(** * Smart-Index: the associative container and the search engine

    A shallow embedding of [CustomeDictionary.py] (the open-chained hash
    table with load-factor-triggered resize and its default-valued
    variant), of [indexing.py] (term weighting, index rebuild and query
    resolution over the built-in containers) and of [Indexing_App.py] (the
    same weighting and rebuild over the custom containers, and its own
    query resolver), with the helpers for base forms and variants of
    Indexing_App.py. Of the user interfaces only [get_multiline_input] is
    modelled; the menus, the pages and the file loading are left out. *)

From Stdlib Require Import ZArith QArith Reals Lra String Ascii List.
From stdpp Require Import base tactics option list gmap strings sets.

Local Open Scope Z_scope.

(** ** Python results: a value or a raised exception *)

Module Py.

(** Keys of the container are strings or numbers ([_hash] dispatches on
    [isinstance(key, str)]); key equality never identifies a string with a
    number. *)
Inductive key : Type :=
| KStr (s : string)
| KInt (n : Z).

#[global] Instance key_eq_dec : EqDecision key.
Proof. solve_decision. Defined.

Definition key_code (k : key) : string + Z :=
  match k with KStr s => inl s | KInt n => inr n end.

Definition code_key (c : string + Z) : key :=
  match c with inl s => KStr s | inr n => KInt n end.

#[global] Instance key_countable : Countable key :=
  inj_countable' key_code code_key (fun k => match k with KStr _ | KInt _ => eq_refl end).

(** Python's built-in [hash] on the non-string keys. *)
Class PyHash := hash : Z -> Z.

Inductive exn : Type :=
| KeyError (k : key)
| IndexError
| ZeroDivisionError
| RecursionError.

Inductive result (A : Type) : Type :=
| Ok (a : A)
| Raise (e : exn).
Arguments Ok {A} a.
Arguments Raise {A} e.

Definition bind {A B : Type} (m : result A) (f : A -> result B) : result B :=
  match m with
  | Ok a => f a
  | Raise e => Raise e
  end.

(** [for x in xs: st = body(st, x)], stopping at the first exception. *)
Fixpoint for_each {S A : Type} (body : S -> A -> result S) (xs : list A) (st : S)
  : result S :=
  match xs with
  | [] => Ok st
  | x :: xs' => bind (body st x) (for_each body xs')
  end.

(** [l[i]] on a Python list: negative indices count from the end, anything
    out of range raises IndexError. *)
Definition norm_index {A : Type} (l : list A) (i : Z) : option nat :=
  let n := Z.of_nat (length l) in
  if (0 <=? i) && (i <? n) then Some (Z.to_nat i)
  else if (- n <=? i) && (i <? 0) then Some (Z.to_nat (i + n))
  else None.

Definition py_index {A : Type} (l : list A) (i : Z) : result A :=
  match norm_index l i with
  | Some j => match l !! j with Some x => Ok x | None => Raise IndexError end
  | None => Raise IndexError
  end.

End Py.

Export Py.

#[global] Instance result_ret : MRet result := @Ok.
#[global] Instance result_bind : MBind result := fun A B f m => bind m f.

(** ** CustomeDictionary.py *)

Section Dictionary.

Context `{PyHash} {V : Type}.

Record CustomDictionary : Type := mkDict {
  capacity : Z;
  size : Z;
  buckets : list (list (key * V))
}.

Definition load_factor_threshold : Q := 3 # 4.

(** [[[] for _ in range(capacity)]] *)
Definition fresh_buckets (c : Z) : list (list (key * V)) :=
  replicate (Z.to_nat c) [].

Definition __init__ (initial_capacity : Z) : CustomDictionary :=
  {| capacity := initial_capacity;
     size := 0;
     buckets := fresh_buckets initial_capacity |}.

(** [ord(char)]; the strings of the model are those of code points below
    256. *)
Definition ord (c : ascii) : Z := Z.of_nat (nat_of_ascii c).

(** The polynomial rolling hash of a string, reduced modulo [m] at every
    character. *)
Fixpoint rolling (m : Z) (hash_value : Z) (chars : list ascii) : Z :=
  match chars with
  | [] => hash_value
  | c :: rest => rolling m ((hash_value * 31 + ord c) mod m) rest
  end.

Definition _hash (d : CustomDictionary) (k : key) : result Z :=
  match k with
  | KStr s =>
      match list_ascii_of_string s with
      | [] => Ok 0
      | chars =>
          if capacity d =? 0 then Raise ZeroDivisionError
          else Ok (rolling (capacity d) 0 chars)
      end
  | KInt n =>
      if capacity d =? 0 then Raise ZeroDivisionError
      else Ok (hash n mod capacity d)
  end.

(** Position of the first entry of a bucket whose key equals [k]. *)
Fixpoint find_key (k : key) (bucket : list (key * V)) : option nat :=
  match bucket with
  | [] => None
  | (existing_key, _) :: rest =>
      if decide (existing_key = k) then Some 0%nat
      else S <$> find_key k rest
  end.

(** The bucket list with slot [index] replaced; [index] was accepted by
    [py_index] before. *)
Definition store_bucket (d : CustomDictionary) (index : Z)
    (bucket : list (key * V)) : list (list (key * V)) :=
  match norm_index (buckets d) index with
  | Some j => <[j := bucket]> (buckets d)
  | None => buckets d
  end.

(** [self.size / self.capacity >= self.load_factor_threshold], the true
    division taken over the rationals: 0.75 is a binary64 number and the
    quotient of two integers is rounded correctly, so for capacities below
    [2^52] the rounded quotient reaches 0.75 exactly when the exact one
    does. *)
Definition load_factor_reached (d : CustomDictionary) : result bool :=
  if capacity d =? 0 then Raise ZeroDivisionError
  else Ok (Qle_bool load_factor_threshold
             (inject_Z (size d) / inject_Z (capacity d))).

(** [_resize], with the [self[key] = value] of its loop passed in. *)
Definition _resize_with
    (setitem : CustomDictionary -> key * V -> result CustomDictionary)
    (d : CustomDictionary) : result CustomDictionary :=
  let old_buckets := buckets d in
  let d0 := {| capacity := capacity d * 2;
               size := 0;
               buckets := fresh_buckets (capacity d * 2) |} in
  for_each setitem (concat old_buckets) d0.

(** [__setitem__]. [depth] bounds the nesting of resizes inside the
    reinsertions of a resize: at depth 0 a resize raises RecursionError. *)
Fixpoint __setitem__ (depth : nat) (d : CustomDictionary) (k : key) (value : V)
  : result CustomDictionary :=
  index ← _hash d k;
  bucket ← py_index (buckets d) index;
  match find_key k bucket with
  | Some i =>
      Ok {| capacity := capacity d;
            size := size d;
            buckets := store_bucket d index (<[i := (k, value)]> bucket) |}
  | None =>
      let d1 := {| capacity := capacity d;
                   size := size d + 1;
                   buckets := store_bucket d index (bucket ++ [(k, value)]) |} in
      reached ← load_factor_reached d1;
      if (reached : bool) then
        match depth with
        | O => Raise RecursionError
        | S depth' =>
            _resize_with (fun d' kv => __setitem__ depth' d' kv.1 kv.2) d1
        end
      else Ok d1
  end.

Definition _resize (depth : nat) (d : CustomDictionary) : result CustomDictionary :=
  _resize_with (fun d' kv => __setitem__ depth d' kv.1 kv.2) d.

(** First value stored under [k] in a bucket. *)
Fixpoint bucket_get (k : key) (bucket : list (key * V)) : option V :=
  match bucket with
  | [] => None
  | (existing_key, value) :: rest =>
      if decide (existing_key = k) then Some value else bucket_get k rest
  end.

Definition __getitem__ (d : CustomDictionary) (k : key) : result V :=
  index ← _hash d k;
  bucket ← py_index (buckets d) index;
  match bucket_get k bucket with
  | Some value => Ok value
  | None => Raise (KeyError k)
  end.

Definition __delitem__ (d : CustomDictionary) (k : key) : result CustomDictionary :=
  index ← _hash d k;
  bucket ← py_index (buckets d) index;
  match find_key k bucket with
  | Some i =>
      Ok {| capacity := capacity d;
            size := size d - 1;
            buckets := store_bucket d index (delete i bucket) |}
  | None => Raise (KeyError k)
  end.

Definition get (d : CustomDictionary) (k : key) (default : V) : result V :=
  match __getitem__ d k with
  | Ok value => Ok value
  | Raise (KeyError _) => Ok default
  | Raise e => Raise e
  end.

Definition clear (d : CustomDictionary) : CustomDictionary :=
  {| capacity := capacity d;
     size := 0;
     buckets := fresh_buckets (capacity d) |}.

Definition items (d : CustomDictionary) : list (key * V) := concat (buckets d).
Definition keys (d : CustomDictionary) : list key := (items d).*1.
Definition values (d : CustomDictionary) : list V := (items d).*2.
Definition __len__ (d : CustomDictionary) : Z := size d.

Definition __contains__ (d : CustomDictionary) (k : key) : result bool :=
  match __getitem__ d k with
  | Ok _ => Ok true
  | Raise (KeyError _) => Ok false
  | Raise e => Raise e
  end.

(** *** CustomDefaultDict

    [default_factory] is [None] or a constructor called without arguments
    ([int], [list]); the model keeps the value it builds. *)
Record CustomDefaultDict : Type := mkDefaultDict {
  table : CustomDictionary;
  default_factory : option V
}.

Definition default_init (factory : option V) (initial_capacity : Z)
  : CustomDefaultDict :=
  {| table := __init__ initial_capacity; default_factory := factory |}.

(** [CustomDefaultDict.__getitem__]: the value and the container after the
    call. The second [self[key]] re-enters this method. *)
Fixpoint default_getitem (depth : nat) (d : CustomDefaultDict) (k : key)
  : result (V * CustomDefaultDict) :=
  match __getitem__ (table d) k with
  | Ok value => Ok (value, d)
  | Raise (KeyError _) =>
      match default_factory d with
      | None => Raise (KeyError k)
      | Some made =>
          t ← __setitem__ depth (table d) k made;
          match depth with
          | O => Raise RecursionError
          | S depth' =>
              default_getitem depth' {| table := t; default_factory := default_factory d |} k
          end
      end
  | Raise e => Raise e
  end.

(** [get] is inherited from CustomDictionary, and its [self[key]] is the
    overriding [__getitem__] above. *)
Definition default_get (depth : nat) (d : CustomDefaultDict) (k : key) (default : V)
  : result (V * CustomDefaultDict) :=
  match default_getitem depth d k with
  | Ok r => Ok r
  | Raise (KeyError _) => Ok (default, d)
  | Raise e => Raise e
  end.

Definition default_setitem (depth : nat) (d : CustomDefaultDict) (k : key) (value : V)
  : result CustomDefaultDict :=
  t ← __setitem__ depth (table d) k value;
  Ok {| table := t; default_factory := default_factory d |}.

Definition default_clear (d : CustomDefaultDict) : CustomDefaultDict :=
  {| table := clear (table d); default_factory := default_factory d |}.

(** The entry that [self[k]] reads, holding [value] afterwards: what a
    mutating method ([append]) on the object that [self[k]] returned does
    to the table. *)
Definition replace_value (d : CustomDictionary) (k : key) (value : V)
  : result CustomDictionary :=
  index ← _hash d k;
  bucket ← py_index (buckets d) index;
  match find_key k bucket with
  | Some i =>
      Ok {| capacity := capacity d;
            size := size d;
            buckets := store_bucket d index (<[i := (k, value)]> bucket) |}
  | None => Raise (KeyError k)
  end.

(** *** The container as a finite map, and its representation invariant *)

Definition to_map (d : CustomDictionary) : gmap key V := list_to_map (items d).

(** The bucket index of [k] at capacity [c]. *)
Definition home (c : Z) (k : key) : Z :=
  match k with
  | KStr s => rolling c 0 (list_ascii_of_string s)
  | KInt n => hash n mod c
  end.

(** The slot a key is looked up in. *)
Definition slot (c : Z) (k : key) : nat := Z.to_nat (home c k).

(** Every entry outside slot [j]. *)
Definition others (j : nat) (bs : list (list (key * V))) : list (key * V) :=
  concat (take j bs) ++ concat (drop (S j) bs).

(** The container right after a new entry was appended to its bucket and
    counted, before the load-factor check of [__setitem__]. *)
Definition appended (d : CustomDictionary) (k : key) (v : V)
    (bucket : list (key * V)) : CustomDictionary :=
  {| capacity := capacity d;
     size := size d + 1;
     buckets := store_bucket d (home (capacity d) k) (bucket ++ [(k, v)]) |}.

Record wf (d : CustomDictionary) : Prop := mkWf {
  wf_capacity : 0 < capacity d;
  wf_length : length (buckets d) = Z.to_nat (capacity d);
  wf_size : size d = Z.of_nat (length (items d));
  wf_nodup : NoDup (keys d);
  wf_home : forall (i : nat) bucket k v,
      buckets d !! i = Some bucket -> (k, v) ∈ bucket ->
      home (capacity d) k = Z.of_nat i
}.

Definition load_ok (d : CustomDictionary) : Prop := 4 * size d < 3 * capacity d.

(** The operations a client can apply to a container. *)
Inductive op : Type :=
| OpSet (k : key) (v : V)
| OpDel (k : key)
| OpClear
| OpResize.

(** One operation on the container; a failing [del] raises and leaves the
    container as it was. *)
Definition apply_op (depth : nat) (d : CustomDictionary) (o : op)
  : result CustomDictionary :=
  match o with
  | OpSet k v => __setitem__ depth d k v
  | OpDel k =>
      match __delitem__ d k with
      | Raise (KeyError _) => Ok d
      | r => r
      end
  | OpClear => Ok (clear d)
  | OpResize => _resize depth d
  end.

Definition run (depth : nat) (ops : list op) (d : CustomDictionary)
  : result CustomDictionary :=
  for_each (apply_op depth) ops d.

(** The same operations on a finite map. *)
Definition model_op (m : gmap key V) (o : op) : gmap key V :=
  match o with
  | OpSet k v => <[k := v]> m
  | OpDel k => delete k m
  | OpClear => ∅
  | OpResize => m
  end.

Definition model (ops : list op) : gmap key V := foldl model_op ∅ ops.

(** Whether an operation can change the value bound to [k]. *)
Definition touches (k : key) (o : op) : bool :=
  match o with
  | OpSet k' _ | OpDel k' => bool_decide (k' = k)
  | OpClear => true
  | OpResize => false
  end.

(** [size / capacity] *)
Definition load_ratio (d : CustomDictionary) : Q :=
  inject_Z (size d) / inject_Z (capacity d).

(** An entry of a built-in dict as an entry of the container. *)
Definition key_of_entry (wv : string * V) : key * V := (KStr wv.1, wv.2).

(** A container below its threshold that holds the entries of a built-in
    dict with string keys. *)
Definition refines (t : CustomDictionary) (d : list (string * V)) : Prop :=
  wf t /\ load_ok t /\ NoDup d.*1 /\ to_map t = list_to_map (key_of_entry <$> d).

End Dictionary.

Arguments CustomDictionary V : clear implicits.
Arguments CustomDefaultDict V : clear implicits.
Arguments op V : clear implicits.

(** CPython's [hash] of an [int] on a 64-bit build: the value reduced
    modulo the Mersenne prime [2^61 - 1] with the sign kept, and [-2] in
    place of [-1]. *)
Definition int_hash : PyHash := fun n =>
  let h := Z.sgn n * (Z.abs n mod (2 ^ 61 - 1)) in
  if h =? -1 then -2 else h.

(** Scenario 1 of the specification: three insertions at capacity 4, then a
    deletion. *)
Definition scenario_ops : list (op Z) :=
  [OpSet (KStr "a") 1; OpSet (KStr "b") 2; OpSet (KInt 7) 3; OpDel (KStr "b")].

(** ** Python's built-in containers and strings *)

Module Builtins.

(** A [dict] with string keys: the entries in insertion order, every key
    once. *)
Abbreviation pydict V := (list (string * V)) (only parsing).

Section Dict.

Context {V : Type}.

Fixpoint dict_get (d : pydict V) (k : string) : option V :=
  match d with
  | [] => None
  | (k', v) :: rest => if decide (k' = k) then Some v else dict_get rest k
  end.

(** [d[k] = v]: the value is replaced where the key stands, a new key goes
    to the end. *)
Fixpoint dict_set (d : pydict V) (k : string) (v : V) : pydict V :=
  match d with
  | [] => [(k, v)]
  | (k', v') :: rest =>
      if decide (k' = k) then (k', v) :: rest else (k', v') :: dict_set rest k v
  end.

(** [k in d] *)
Definition dict_contains (d : pydict V) (k : string) : bool :=
  bool_decide (is_Some (dict_get d k)).

(** [d[k]], KeyError when the key is absent. *)
Definition dict_getitem (d : pydict V) (k : string) : result V :=
  match dict_get d k with
  | Some v => Ok v
  | None => Raise (KeyError (KStr k))
  end.

(** [d.get(k, default)] *)
Definition dict_get_default (d : pydict V) (k : string) (default : V) : V :=
  match dict_get d k with
  | Some v => v
  | None => default
  end.

(** [d[k]] on a [defaultdict]: a missing key is first bound to what the
    factory builds. *)
Definition defaultdict_getitem (made : V) (d : pydict V) (k : string)
  : V * pydict V :=
  match dict_get d k with
  | Some v => (v, d)
  | None => (made, dict_set d k made)
  end.

End Dict.

(** [Counter(words)]: every element counted, in order of first occurrence;
    [tally] is the step for one element. *)
Definition tally (c : pydict Z) (w : string) : pydict Z :=
  dict_set c w (dict_get_default c w 0 + 1).

Definition Counter (words : list string) : pydict Z := fold_left tally words [].

(** [str.lower] on ASCII text. *)
Definition lower_char (c : ascii) : ascii :=
  let n := nat_of_ascii c in
  if ((65 <=? n) && (n <=? 90))%nat then ascii_of_nat (n + 32) else c.

Fixpoint lower (s : string) : string :=
  match s with
  | EmptyString => EmptyString
  | String c rest => String (lower_char c) (lower rest)
  end.

(** [needle in hay] on strings. *)
Fixpoint str_in (needle hay : string) : bool :=
  String.prefix needle hay ||
  match hay with
  | EmptyString => false
  | String _ rest => str_in needle rest
  end.

(** [l[i:j]] for [0 <= i <= j]. *)
Definition slice {A : Type} (l : list A) (i j : nat) : list A :=
  take (j - i) (drop i l).

(** [range(n)] for an integer [n]; empty when [n] is not positive. *)
Definition range (n : Z) : list nat := seq 0 (Z.to_nat n).

End Builtins.

Export Builtins.

(** ** The collaborators outside the repository *)

(** True division of two integers, the only arithmetic of [calculate_tf]. *)
Class TrueDiv (F : Type) := truediv : Z -> Z -> F.

(** The floating-point operations of the weighting and of the threshold
    test: [math.log], [*] and [>]. *)
Class FloatOps (F : Type) := {
  float_truediv :: TrueDiv F;
  flog : F -> F;
  fmul : F -> F -> F;
  fgt : F -> F -> bool
}.

(** NLTK: the tokenizer, the part-of-speech tagger, the WordNet lemmatizer
    and [wordnet.synsets], a synset given by the names of its lemmas. *)
Class NLP := {
  word_tokenize : string -> list string;
  pos_tag : list string -> list (string * string);
  lemmatize : string -> string;
  synsets : string -> list (list string)
}.

(** ** indexing.py *)

Module Indexing.

Section TermFrequency.

Context {F : Type} `{TrueDiv F}.

Definition calculate_tf (doc_words : list string) : pydict F :=
  let total_words := Z.of_nat (length doc_words) in
  let word_counts := Counter doc_words in
  fold_left (fun tf wc => dict_set tf wc.1 (truediv wc.2 total_words))
    word_counts [].

End TermFrequency.

(** How often a word occurs in a token list, and in how many documents of a
    corpus it occurs at least once. *)
Definition occurrences (w : string) (words : list string) : Z :=
  Z.of_nat (length (filter (fun x => x = w) words)).

Definition document_frequency (w : string) (documents : list (list string)) : Z :=
  Z.of_nat (length (filter (fun doc_words => w ∈ doc_words) documents)).

(** The sum of a list of rationals, and of the values of a dict. *)
Definition sum_list (l : list Q) : Q := foldr Qplus 0%Q l.

Definition sum_values (d : pydict Q) : Q := sum_list d.*2.

(** The sum of the values of a dict of integers. *)
Definition total (d : pydict Z) : Z := foldr (fun kv acc => kv.2 + acc) 0 d.

Section Engine.

Context `{NLP} {F : Type} `{FloatOps F}.

Definition get_synonyms (word : string) : gset string :=
  list_to_set (lower <$> concat (synsets word)).

Definition expand_query_with_synonyms (query_tokens : list string) : list string :=
  let expanded_query :=
    fold_left (fun acc word => acc ∪ get_synonyms word) query_tokens
      (list_to_set query_tokens : gset string) in
  elements expanded_query.

Definition noun_tags : list string := ["NN"; "NNS"; "NNP"; "NNPS"]%string.

Definition is_noun_tag (pos : string) : bool := bool_decide (pos ∈ noun_tags).

Definition extract_nouns_and_entities (content : string) : list string :=
  let words := word_tokenize (lower content) in
  let pos_tags := pos_tag words in
  let nouns := (filter (fun wp => is_noun_tag wp.2 = true) pos_tags).*1 in
  lemmatize <$> nouns.

(** [word_doc_counts[word] += 1] on a [defaultdict(int)]. *)
Definition increment (word_doc_counts : pydict Z) (word : string) : pydict Z :=
  let '(n, counts) := defaultdict_getitem 0 word_doc_counts word in
  dict_set counts word (n + 1).

(** The inner loop of [calculate_idf] over one document. *)
Definition count_document (word_doc_counts : pydict Z) (doc_words : list string)
  : pydict Z :=
  let unique_words : gset string := list_to_set doc_words in
  fold_left increment (elements unique_words) word_doc_counts.

(** [math.log(total_docs / (1 + doc_count))] *)
Definition idf_value (total_docs doc_count : Z) : F :=
  flog (truediv total_docs (1 + doc_count)).

Definition calculate_idf (documents : list (list string)) : pydict F :=
  let total_docs := Z.of_nat (length documents) in
  let word_doc_counts := fold_left count_document documents [] in
  fold_left (fun idf wc => dict_set idf wc.1 (idf_value total_docs wc.2))
    word_doc_counts [].

Definition calculate_tfidf (doc_words : list string) (tf idf : pydict F)
  : result (pydict F) :=
  for_each (fun tfidf word =>
              if dict_contains idf word then
                t ← dict_getitem tf word;
                i ← dict_getitem idf word;
                Ok (dict_set tfidf word (fmul t i))
              else Ok tfidf)
    doc_words [].

Definition phrase_match (content query : string) : bool :=
  let content_words := word_tokenize (lower content) in
  let query_words := word_tokenize (lower query) in
  existsb (fun i => bool_decide
             (slice content_words i (i + length query_words) = query_words))
    (range (Z.of_nat (length content_words) - Z.of_nat (length query_words) + 1)).

Record SearchEngine : Type := mkEngine {
  index : pydict (list string);
  documents : pydict string
}.

(** The score the weighting formulas give [term] in a document with the
    tokens [doc_words], [None] when the term does not occur in it. *)
Definition tfidf_score (corpus : list (list string)) (doc_words : list string)
    (term : string) : option F :=
  if decide (term ∈ doc_words) then
    Some (fmul (truediv (occurrences term doc_words) (Z.of_nat (length doc_words)))
               (idf_value (Z.of_nat (length corpus)) (document_frequency term corpus)))
  else None.

(** Whether that score exceeds the threshold. *)
Definition significant (threshold : F) (corpus : list (list string))
    (doc_words : list string) (term : string) : bool :=
  match tfidf_score corpus doc_words term with
  | Some score => fgt score threshold
  | None => false
  end.

(** The terms of one document whose score exceeds the threshold. *)
Definition important_terms (threshold : F) (tfidf : pydict F) : gset string :=
  list_to_set (filter (fun ts => fgt ts.2 threshold = true) tfidf).*1.

(** [self.index[term].append(doc_id)] *)
Definition post (doc_id : string) (idx : pydict (list string)) (term : string)
  : pydict (list string) :=
  let '(posting, idx') := defaultdict_getitem [] idx term in
  dict_set idx' term (posting ++ [doc_id]).

(** [update_index], the literal of the threshold test being a parameter
    (0.1 in this file). *)
Definition update_index (threshold : F) (e : SearchEngine) : result SearchEngine :=
  let doc_word_list := (fun dc => extract_nouns_and_entities dc.2) <$> documents e in
  let idf := calculate_idf doc_word_list in
  idx ← for_each (fun idx dc =>
                    let doc_words := extract_nouns_and_entities dc.2 in
                    let tf := calculate_tf doc_words in
                    tfidf ← calculate_tfidf doc_words tf idf;
                    Ok (fold_left (post dc.1) (elements (important_terms threshold tfidf)) idx))
           (documents e) [];
  Ok {| index := idx; documents := documents e |}.

Definition add_document (threshold : F) (e : SearchEngine) (title content : string)
  : result SearchEngine :=
  update_index threshold
    {| index := index e; documents := dict_set (documents e) title content |}.

Definition search_by_title (e : SearchEngine) (query : string) : list string :=
  filter (fun doc_id => str_in (lower query) (lower doc_id) = true) (documents e).*1.

(** The documents that phrase-match, the first loop of [search_by_content]. *)
Definition phrase_matches (e : SearchEngine) (query : string) : gset string :=
  list_to_set (filter (fun dc => phrase_match dc.2 query = true) (documents e)).*1.

(** [all(token.lower() in content for token in tokens)] *)
Definition contains_all (tokens : list string) (content : string) : bool :=
  forallb (fun token => str_in (lower token) content) tokens.

(** The index stage of [search_by_content]: the postings of the first
    expanded token, met with those of every later token the index has. *)
Definition noun_matching (idx : pydict (list string)) (expanded_noun_tokens : list string)
  : gset string :=
  match expanded_noun_tokens with
  | [] => ∅
  | first :: others =>
      fold_left (fun docs token =>
                   if dict_contains idx token
                   then docs ∩ list_to_set (dict_get_default idx token [])
                   else docs)
        others (list_to_set (dict_get_default idx first []))
  end.

(** The nouns among the tagged tokens of a query, and their expansion. *)
Definition query_nouns (query : string) : list string :=
  (filter (fun wp => is_noun_tag wp.2 = true)
     (pos_tag (word_tokenize (lower query)))).*1.

Definition expanded_noun_tokens (query : string) : list string :=
  concat ((fun noun => expand_query_with_synonyms [noun]) <$> query_nouns query).

(** The fallback: the documents whose lower-cased content contains every
    token of the query. *)
Definition substring_matches (e : SearchEngine) (query : string) : gset string :=
  list_to_set
    (filter (fun dc => contains_all (word_tokenize (lower query)) (lower dc.2) = true)
       (documents e)).*1.

Definition search_by_content (e : SearchEngine) (query : string)
  : result (gset string) :=
  let matching_docs := phrase_matches e query in
  if decide (matching_docs = ∅) then
    let query_tokens := word_tokenize (lower query) in
    let query_pos_tags := pos_tag query_tokens in
    let noun_matching_docs := noun_matching (index e) (expanded_noun_tokens query) in
    if decide (noun_matching_docs = ∅) then Ok (substring_matches e query)
    else
      let non_noun_tokens :=
        (filter (fun wp => is_noun_tag wp.2 = false) query_pos_tags).*1 in
      match non_noun_tokens with
      | [] => Ok noun_matching_docs
      | _ =>
          for_each (fun matching doc_id =>
                      content ← dict_getitem (documents e) doc_id;
                      if contains_all non_noun_tokens (lower content)
                      then Ok (matching ∪ {[doc_id]})
                      else Ok matching)
            (elements noun_matching_docs) ∅
      end
  else Ok matching_docs.

(** The semantic phase in the words of the specification: a group for
    every noun (the noun and its synonyms), the union of the posting lists
    over each group, the intersection of these unions and, when there is no
    noun or the intersection is empty, the documents whose content contains
    every token of the query. *)
Definition claimed_semantic_phase {D : Type} `{Countable D}
    (posting : string -> gset D) (docs : list (D * string)) (query : string)
  : gset D :=
  let groups :=
    (fun noun => ({[noun]} ∪ get_synonyms noun : gset string)) <$> query_nouns query in
  let unions := (fun group => ⋃ (posting <$> elements group)) <$> groups in
  let met :=
    match unions with
    | [] => ∅
    | u :: us => foldl (∩) u us
    end in
  if decide (met = ∅) then
    list_to_set
      (filter (fun dc => contains_all (word_tokenize (lower query)) (lower dc.2) = true)
         docs).*1
  else met.

End Engine.

End Indexing.

(** ** Indexing_App.py

    [extract_nouns_and_entities] is defined twice in this file; the second
    definition, the one of indexing.py, is the one in force. *)

Module IndexingApp.

Section Weights.

Context `{PyHash} {F : Type}.

Definition calculate_tf `{TrueDiv F} (depth : nat) (doc_words : list string)
  : result (CustomDictionary F) :=
  let total_words := Z.of_nat (length doc_words) in
  let word_counts := Counter doc_words in
  for_each (fun tf wc => __setitem__ depth tf (KStr wc.1) (truediv wc.2 total_words))
    word_counts (__init__ 1024).

(** [word_doc_counts[word] += 1] on a [CustomDefaultDict(int)]. *)
Definition increment (depth : nat) (word_doc_counts : CustomDefaultDict Z)
    (word : string) : result (CustomDefaultDict Z) :=
  '(n, counts) ← default_getitem depth word_doc_counts (KStr word);
  default_setitem depth counts (KStr word) (n + 1).

Definition count_document (depth : nat) (word_doc_counts : CustomDefaultDict Z)
    (doc_words : list string) : result (CustomDefaultDict Z) :=
  let unique_words : gset string := list_to_set doc_words in
  for_each (increment depth) (elements unique_words) word_doc_counts.

Context `{FloatOps F}.

Definition calculate_idf (depth : nat) (documents : list (list string))
  : result (CustomDictionary F) :=
  let total_docs := Z.of_nat (length documents) in
  word_doc_counts ←
    for_each (count_document depth) documents (default_init (Some 0) 1024);
  for_each (fun idf wc =>
              __setitem__ depth idf wc.1 (Indexing.idf_value total_docs wc.2))
    (items (table word_doc_counts)) (__init__ 1024).

Definition calculate_tfidf (depth : nat) (doc_words : list string)
    (tf idf : CustomDictionary F) : result (CustomDictionary F) :=
  for_each (fun tfidf word =>
              present ← __contains__ idf (KStr word);
              if (present : bool) then
                t ← __getitem__ tf (KStr word);
                i ← __getitem__ idf (KStr word);
                __setitem__ depth tfidf (KStr word) (fmul t i)
              else Ok tfidf)
    doc_words (__init__ 1024).

(** The terms of one document whose score exceeds the threshold. *)
Definition important_terms (threshold : F) (tfidf : CustomDictionary F) : gset key :=
  list_to_set (filter (fun ts => fgt ts.2 threshold = true) (items tfidf)).*1.

End Weights.

Section Engine.

Context `{PyHash} `{NLP}.

(** Document ids are the keys of [documents]; posting lists hold them. *)
Record SearchEngine : Type := mkEngine {
  index : CustomDefaultDict (list key);
  documents : CustomDictionary string
}.

(** [SearchEngine.__init__], without the directory it creates. *)
Definition new_engine : SearchEngine :=
  {| index := default_init (Some []) 1024; documents := __init__ 1024 |}.

Definition add_document (depth : nat) (e : SearchEngine) (title content : string)
  : result SearchEngine :=
  docs ← __setitem__ depth (documents e) (KStr title) content;
  Ok {| index := index e; documents := docs |}.

(** [query.lower() in doc_id.lower()]; the titles are strings. *)
Definition title_matches (query : string) (doc_id : key) : bool :=
  match doc_id with
  | KStr title => str_in (lower query) (lower title)
  | KInt _ => false
  end.

Definition search_by_title (e : SearchEngine) (query : string) : list key :=
  filter (fun doc_id => title_matches query doc_id = true) (keys (documents e)).

(** [set(self.index.get(term, []))]: the set, and the index after the
    call. *)
Definition postings (depth : nat) (idx : CustomDefaultDict (list key)) (term : string)
  : result (gset key * CustomDefaultDict (list key)) :=
  '(posting, idx') ← default_get depth idx (KStr term) [];
  Ok (list_to_set posting, idx').

(** The documents of one noun and of its synonyms. *)
Definition group_docs (depth : nat) (idx : CustomDefaultDict (list key))
    (noun : string) (synonyms : list string)
  : result (gset key * CustomDefaultDict (list key)) :=
  r ← postings depth idx noun;
  for_each (fun acc synonym =>
              '(more, idx') ← postings depth acc.2 synonym;
              Ok (acc.1 ∪ more, idx'))
    synonyms r.

(** The dict that maps every query noun to its expansion. *)
Definition expand_nouns (query_nouns : list string) : pydict (list string) :=
  fold_left (fun expanded noun =>
               dict_set expanded noun (Indexing.expand_query_with_synonyms [noun]))
    query_nouns [].

Definition phrase_matches (e : SearchEngine) (query : string) : gset key :=
  list_to_set (filter (fun dc => Indexing.phrase_match dc.2 query = true)
                 (items (documents e))).*1.

(** The posting list the index holds for a key, empty when it has none. *)
Definition posting_list (idx : CustomDefaultDict (list key)) (term : key) : list key :=
  default [] (to_map (table idx) !! term).

(** [self.index[term].append(doc_id)] *)
Definition post (depth : nat) (doc_id : key) (idx : CustomDefaultDict (list key))
    (term : key) : result (CustomDefaultDict (list key)) :=
  '(posting, idx') ← default_getitem depth idx term;
  t ← replace_value (table idx') term (posting ++ [doc_id]);
  Ok {| table := t; default_factory := default_factory idx' |}.

(** The documents the index lists under a term, none when the term has no
    entry. *)
Definition posting_set (idx : CustomDefaultDict (list key)) (term : string) : gset key :=
  match to_map (table idx) !! KStr term with
  | Some posting => list_to_set posting
  | None => ∅
  end.

(** The documents of a noun and of the terms it expands to. *)
Definition group_set (idx : CustomDefaultDict (list key)) (noun : string)
    (synonyms : list string) : gset key :=
  posting_set idx noun ∪ ⋃ (posting_set idx <$> synonyms).

(** An index in a state the container operations reach, built with [list]
    as its factory. *)
Definition index_ok (idx : CustomDefaultDict (list key)) : Prop :=
  wf (table idx) /\ load_ok (table idx) /\ default_factory idx = Some [].

(** Every term of [idx] is still a term of [idx']. *)
Definition index_grows (idx idx' : CustomDefaultDict (list key)) : Prop :=
  forall k, is_Some (to_map (table idx) !! k) -> is_Some (to_map (table idx') !! k).

(** [search_by_content]: the result and the engine after the call. *)
Definition search_by_content (depth : nat) (e : SearchEngine) (query : string)
  : result (gset key * SearchEngine) :=
  let matching_docs := phrase_matches e query in
  if decide (matching_docs = ∅) then
    let expanded_noun_tokens := expand_nouns (Indexing.query_nouns query) in
    match expanded_noun_tokens with
    | [] => Ok (∅, e)
    | (first_noun, synonyms) :: rest =>
        r ← group_docs depth (index e) first_noun synonyms;
        '(noun_matching_docs, idx) ←
          for_each (fun acc ns =>
                      '(current_docs, idx') ← group_docs depth acc.2 ns.1 ns.2;
                      Ok (acc.1 ∩ current_docs, idx'))
            rest r;
        Ok (noun_matching_docs, {| index := idx; documents := documents e |})
    end
  else Ok (matching_docs, e).

Context {F : Type} `{FloatOps F}.

(** The second loop of [update_index] for one document. *)
Definition index_document (depth : nat) (threshold : F) (idf : CustomDictionary F)
    (idx : CustomDefaultDict (list key)) (dc : key * string)
  : result (CustomDefaultDict (list key)) :=
  let doc_words := Indexing.extract_nouns_and_entities dc.2 in
  tf ← calculate_tf depth doc_words;
  tfidf ← calculate_tfidf depth doc_words tf idf;
  for_each (post depth dc.1) (elements (important_terms threshold tfidf)) idx.

(** [update_index], the literal of the threshold test being a parameter
    (0.01 in this file). *)
Definition update_index (depth : nat) (threshold : F) (e : SearchEngine)
  : result SearchEngine :=
  let docs := items (documents e) in
  let doc_word_list :=
    (fun dc => Indexing.extract_nouns_and_entities dc.2) <$> docs in
  idf ← calculate_idf depth doc_word_list;
  idx ← for_each (index_document depth threshold idf) docs (default_clear (index e));
  Ok {| index := idx; documents := documents e |}.

(** Whether the weighting formulas put the term a key names above the
    threshold in a document. *)
Definition significant_key (threshold : F) (corpus : list (list string))
    (doc_words : list string) (k : key) : bool :=
  match k with
  | KStr term => Indexing.significant threshold corpus doc_words term
  | KInt _ => false
  end.

End Engine.

End IndexingApp.

(** ** CustomeDictionary.py: what CustomDefaultDict inherits, and the hash
    as a polynomial *)

Section Inherited.

Context `{PyHash} {V : Type}.

(** [__contains__] is inherited from CustomDictionary, and its [self[key]]
    is the overriding [__getitem__]: the answer and the container after the
    call. *)
Definition default_contains (depth : nat) (d : CustomDefaultDict V) (k : key)
  : result (bool * CustomDefaultDict V) :=
  match default_getitem depth d k with
  | Ok r => Ok (true, r.2)
  | Raise (KeyError _) => Ok (false, d)
  | Raise e => Raise e
  end.

End Inherited.

(** The characters of a string read as the digits of a number in base 31,
    the first character the most significant: the polynomial that the
    docstring of [_hash] names. *)
Fixpoint polynomial (chars : list ascii) : Z :=
  match chars with
  | [] => 0
  | c :: rest => ord c * 31 ^ Z.of_nat (length rest) + polynomial rest
  end.

(** ** Indexing_App.py: base forms and variants of a word

    These helpers serve the first definition of
    [extract_nouns_and_entities], the one that the second definition
    replaces. *)

Module Variants.

(** [s.endswith(suffix)] *)
Definition endswith (s suffix : string) : bool :=
  bool_decide (list_ascii_of_string suffix `suffix_of` list_ascii_of_string s).

(** [s[:-n]] for a positive [n]: the string without its last [n]
    characters, empty when it has no more than [n]. *)
Definition drop_last (n : nat) (s : string) : string :=
  let chars := list_ascii_of_string s in
  string_of_list_ascii (take (length chars - n) chars).

Definition load_base_forms : pydict string :=
  [("children", "child"); ("mice", "mouse"); ("men", "man"); ("women", "woman");
   ("teeth", "tooth"); ("feet", "foot"); ("geese", "goose"); ("oxen", "ox");
   ("data", "datum"); ("criteria", "criterion");
   ("phenomena", "phenomenon")]%string.

Definition get_base_form (word : string) (irregular_forms : pydict string) : string :=
  let word := lower word in
  match dict_get irregular_forms word with
  | Some base => base
  | None =>
      if endswith word "ies" then drop_last 3 word +:+ "y"
      else if endswith word "es" then
        if endswith word "ses" || endswith word "zes"
           || endswith word "ches" || endswith word "shes"
        then drop_last 2 word
        else drop_last 1 word
      else if endswith word "s" && negb (endswith word "ss") then drop_last 1 word
      else word
  end.

Definition noun_suffixes : list string :=
  ["tion"; "ment"; "ness"; "ship"; "age"; "ity"; "ant";
   "ence"; "er"; "or"; "ist"; "ing"; "ism"; "dom";
   "ary"; "ery"; "ory"; "cy"; "phy"; "ogy"; "ice";
   "ade"; "al"; "an"; "ance"; "ancy"; "ant"; "arc";
   "ard"; "ate"; "ent"; "ess"; "ice"; "ics"; "ide";
   "ine"; "ion"; "ite"; "let"; "oid"; "oma"; "ose";
   "ric"; "sis"; "ure"]%string.

(** [c.isupper()] on ASCII text. *)
Definition isupper (c : ascii) : bool :=
  let n := nat_of_ascii c in ((65 <=? n) && (n <=? 90))%nat.

(** [is_likely_noun]; [word[0]] raises IndexError on the empty string. *)
Definition is_likely_noun (word : string) : result bool :=
  let word := lower word in
  if existsb (endswith word) noun_suffixes then Ok true
  else
    match word with
    | EmptyString => Raise IndexError
    | String first _ => if isupper first then Ok true else Ok false
    end.

Definition get_word_variants (word : string) : gset string :=
  let variants : gset string := {[ lower word ]} in
  let word_lower := lower word in
  if endswith word_lower "y" then
    variants ∪ {[ drop_last 1 word_lower +:+ "ies" ]}
  else if endswith word_lower "s" then
    variants ∪ {[ drop_last 1 word_lower ]}
  else
    let variants := variants ∪ {[ word_lower +:+ "s" ]} in
    if endswith word_lower "e" then
      variants ∪ {[ word_lower +:+ "s" ]}
    else if endswith word_lower "y" then
      variants ∪ {[ drop_last 1 word_lower +:+ "ies" ]}
    else
      variants ∪ {[ word_lower +:+ "es" ]}.

Definition expand_query_with_variants (query_tokens : list string) : list string :=
  let expanded_query :=
    fold_left (fun acc token => acc ∪ get_word_variants token) query_tokens
      (∅ : gset string) in
  elements expanded_query.

End Variants.

(** ** indexing.py and Indexing_App.py: reading a text from the console

    The console is the lines still to be typed and the texts printed so
    far, one for every call of [print]. A call of [input] when no line is
    left raises EOFError, the only exception of this part: [None]. *)

Module Console.

Record console : Type := mkConsole {
  pending : list string;
  printed : list string
}.

Definition print (line : string) (c : console) : console :=
  {| pending := pending c; printed := printed c ++ [line] |}.

(** [c.isspace()] for a code point below 256. *)
Definition isspace (c : ascii) : bool :=
  let n := nat_of_ascii c in
  (((9 <=? n) && (n <=? 13)) || ((28 <=? n) && (n <=? 32))
   || (n =? 133) || (n =? 160))%nat.

(** The characters that are left when leading white space is dropped. *)
Fixpoint lstrip (chars : list ascii) : list ascii :=
  match chars with
  | [] => []
  | c :: rest => if isspace c then lstrip rest else chars
  end.

(** [s.strip()]: leading and trailing white space dropped. *)
Definition strip (s : string) : string :=
  string_of_list_ascii
    (reverse (lstrip (reverse (lstrip (list_ascii_of_string s))))).

(** The loop of [get_multiline_input]: lines are read up to the first one
    that is blank. *)
Fixpoint read_lines (lines : list string) (input : list string)
  : option (list string * list string) :=
  match input with
  | [] => None
  | line :: rest =>
      if decide (strip line = EmptyString) then Some (lines, rest)
      else read_lines (lines ++ [line]) rest
  end.

Definition newline : string := String (ascii_of_nat 10) EmptyString.

Definition get_multiline_input (prompt : string) (c : console)
  : option (string * console) :=
  let c := print prompt c in
  let c := print "(Enter an empty line to finish)" c in
  '(lines, rest) ← read_lines [] (pending c);
  Some (String.concat newline lines, {| pending := rest; printed := printed c |}).

End Console.

(** ** Instances used to evaluate the model *)

#[global] Instance Q_truediv : TrueDiv Q := fun a b => (inject_Z a / inject_Z b)%Q.

#[global] Instance R_truediv : TrueDiv R := fun a b => (IZR a / IZR b)%R.

#[global] Instance R_float : FloatOps R := {|
  float_truediv := R_truediv;
  flog := ln;
  fmul := Rmult;
  fgt := fun x y => if Rlt_dec y x then true else false
|}.

(** A whitespace tokenizer. *)
Fixpoint split_words (current : string) (s : string) : list string :=
  match s with
  | EmptyString => if decide (current = EmptyString) then [] else [current]
  | String c rest =>
      if decide (c = " "%char) then
        if decide (current = EmptyString) then split_words EmptyString rest
        else current :: split_words EmptyString rest
      else split_words (current ++ String c EmptyString) rest
  end.

(** A stand-in for NLTK on a handful of words: whitespace tokens, a fixed
    list of non-nouns, no lemmatization, and one thesaurus entry. *)
Definition toy_nlp : NLP := {|
  word_tokenize := split_words EmptyString;
  pos_tag := fun words =>
    (fun w => (w, if bool_decide (w ∈ ["the"; "on"; "sat"; "a"; "big"]%string)
                  then "DT"%string else "NN"%string)) <$> words;
  lemmatize := fun w => w;
  synsets := fun w =>
    if decide (w = "feline"%string) then [["cat"; "kitty"]%string] else []
|}.

(** The corpus of scenario 2 of the specification. With two documents no
    term scores above zero, so the rebuilt index is empty. *)
Definition toy_corpus : Indexing.SearchEngine :=
  {| Indexing.index := [];
     Indexing.documents :=
       [("doc1", "The cat sat on the mat"); ("doc2", "The dog sat on the rug")]%string |}.

(** Three one-word documents and the index a rebuild gives them: with
    three documents a term of a single document scores [ln(3/2)]. *)
Definition thesaurus_corpus : Indexing.SearchEngine :=
  {| Indexing.index := [("cat", ["d1"]); ("kitty", ["d2"]); ("dog", ["d3"])]%string;
     Indexing.documents := [("d1", "cat"); ("d2", "kitty"); ("d3", "dog")]%string |}.

(** An engine of Indexing_App.py that holds one document; its index is
    empty, as it is before the first rebuild and after a rebuild of a
    single document. *)
Definition app_corpus : IndexingApp.SearchEngine :=
  {| IndexingApp.index := default_init (Some []) 1024;
     IndexingApp.documents :=
       match __setitem__ (H := int_hash) 1 (__init__ 1024) (KStr "d1") "cat mat"%string with
       | Ok docs => docs
       | Raise _ => __init__ 1024
       end |}.

(** * Theorems *)

(** ** The definitions on small inputs *)

Example hash_ab : _hash (H := int_hash) (__init__ 1024 : CustomDictionary Z) (KStr "ab") = Ok 33.
Proof. reflexivity. Qed.

Example hash_int : _hash (H := int_hash) (__init__ 4 : CustomDictionary Z) (KInt (-3)) = Ok 1.
Proof. reflexivity. Qed.

Example hash_without_buckets :
  _hash (H := int_hash) (__init__ 0 : CustomDictionary Z) (KStr "ab")
  = Raise ZeroDivisionError.
Proof. reflexivity. Qed.

Example index_from_the_end : py_index [10; 20; 30] (-1) = Ok 30.
Proof. reflexivity. Qed.

Example index_out_of_range : py_index [10; 20; 30] 3 = Raise IndexError.
Proof. reflexivity. Qed.

(** Scenario 1: the third insertion at capacity 4 doubles the capacity, and
    the three keys keep their values. *)
Example third_insert_resizes :
  exists d,
    run (H := int_hash) 1
      [OpSet (KStr "a") 1; OpSet (KStr "b") 2; OpSet (KStr "c") 3] (__init__ 4) = Ok d /\
    capacity d = 8 /\ size d = 3 /\
    __getitem__ (H := int_hash) d (KStr "a") = Ok 1 /\
    __getitem__ (H := int_hash) d (KStr "b") = Ok 2 /\
    __getitem__ (H := int_hash) d (KStr "c") = Ok 3.
Proof. eexists. split; [vm_compute; reflexivity|]. by vm_compute. Qed.

Example resize_needs_depth :
  run (H := int_hash) 0
    [OpSet (KStr "a") 1; OpSet (KStr "b") 2; OpSet (KStr "c") 3] (__init__ 4)
  = Raise RecursionError.
Proof. reflexivity. Qed.

Example lower_mixed : lower "The Cat-42" = "the cat-42"%string.
Proof. reflexivity. Qed.

Example str_in_middle : str_in "at s" "the cat sat" = true.
Proof. reflexivity. Qed.

Example str_in_empty : str_in EmptyString EmptyString = true.
Proof. reflexivity. Qed.

Example counter_order :
  Counter ["cat"; "mat"; "cat"]%string = [("cat", 2); ("mat", 1)]%string.
Proof. reflexivity. Qed.

Example tf_cat_mat_cat :
  Indexing.calculate_tf (F := Q) ["cat"; "mat"; "cat"]%string
  = [("cat"%string, (2 # 1) / (3 # 1)); ("mat"%string, (1 # 1) / (3 # 1))]%Q.
Proof. reflexivity. Qed.

(** Scenario 3. *)
Example phrase_sat_on_the_mat :
  Indexing.phrase_match (H := toy_nlp) "The cat sat on the mat" "sat on the mat" = true.
Proof. reflexivity. Qed.

Example phrase_longer_than_content :
  Indexing.phrase_match (H := toy_nlp) "the mat" "sat on the mat" = false.
Proof. reflexivity. Qed.

Example phrase_not_contiguous :
  Indexing.phrase_match (H := toy_nlp) "The cat sat on the mat" "cat on" = false.
Proof. reflexivity. Qed.

(** Scenario 4 on the resolver of Indexing_App.py: "feline" reaches the
    document listed under its synonym "cat". *)
Example feline_finds_cat :
  exists idx docs e',
    run (H := int_hash) 1 [OpSet (KStr "cat") [KStr "doc1"]] (__init__ 1024) = Ok idx /\
    run (H := int_hash) 1
      [OpSet (KStr "doc1") "The cat sat on the mat"%string;
       OpSet (KStr "doc2") "The dog sat on the rug"%string;
       OpSet (KStr "doc3") "A big bird"%string] (__init__ 1024) = Ok docs /\
    IndexingApp.search_by_content (H := int_hash) (H0 := toy_nlp) 1
      {| IndexingApp.index := {| table := idx; default_factory := Some [] |};
         IndexingApp.documents := docs |} "feline"
    = Ok ({[ KStr "doc1" ]}, e').
Proof.
  eexists _, _, _. split; [vm_compute; reflexivity|].
  split; vm_compute; reflexivity.
Qed.

(** ** The associative container *)

Section DictionaryFacts.

Context `{PyHash} {V : Type}.
Implicit Types (d : CustomDictionary V) (k : key) (v : V)
  (bucket : list (key * V)) (bs : list (list (key * V))).

Lemma bind_Ok {A B} (m : result A) (f : A -> result B) b :
  (m ≫= f) = Ok b <-> exists a, m = Ok a /\ f a = Ok b.
Proof.
  unfold mbind, result_bind, bind. destruct m; split.
  - eauto.
  - intros (a' & [= ->] & ?). done.
  - discriminate.
  - intros (a' & [=] & ?).
Qed.

Lemma norm_index_in_range {A} (l : list A) (i : Z) :
  0 <= i < Z.of_nat (length l) -> norm_index l i = Some (Z.to_nat i).
Proof.
  intros Hi. unfold norm_index.
  destruct (0 <=? i) eqn:E1; [|lia].
  destruct (i <? Z.of_nat (length l)) eqn:E2; [done | lia].
Qed.

Lemma rolling_range m h chars : 0 < m -> 0 <= h < m -> 0 <= rolling m h chars < m.
Proof.
  intros Hm. revert h. induction chars as [|c rest IH]; intros h Hh; simpl; [done|].
  apply IH. apply Z.mod_pos_bound. done.
Qed.

Lemma home_range c k : 0 < c -> 0 <= home c k < c.
Proof.
  intros Hc. destruct k as [s|n]; simpl.
  - apply rolling_range; lia.
  - apply Z.mod_pos_bound. done.
Qed.

Lemma _hash_home d k : 0 < capacity d -> _hash d k = Ok (home (capacity d) k).
Proof.
  intros Hc. unfold _hash, home. destruct k as [s|n].
  - destruct (list_ascii_of_string s) as [|c rest]; [done|].
    destruct (capacity d =? 0) eqn:E; [lia | done].
  - destruct (capacity d =? 0) eqn:E; [lia | done].
Qed.

Lemma slot_lt d k : wf d -> (slot (capacity d) k < length (buckets d))%nat.
Proof.
  intros Hwf. unfold slot. rewrite (wf_length _ Hwf).
  pose proof (home_range (capacity d) k (wf_capacity _ Hwf)). lia.
Qed.

Lemma py_index_home d k :
  wf d ->
  exists bucket, buckets d !! slot (capacity d) k = Some bucket /\
    py_index (buckets d) (home (capacity d) k) = Ok bucket /\
    norm_index (buckets d) (home (capacity d) k) = Some (slot (capacity d) k).
Proof.
  intros Hwf. pose proof (slot_lt d k Hwf) as Hlt.
  destruct (lookup_lt_is_Some_2 _ _ Hlt) as [bucket Hb].
  exists bucket. split; [done|].
  assert (norm_index (buckets d) (home (capacity d) k) = Some (slot (capacity d) k)) as Hn.
  { apply norm_index_in_range. rewrite (wf_length _ Hwf).
    pose proof (home_range (capacity d) k (wf_capacity _ Hwf)). lia. }
  split; [|done]. unfold py_index. rewrite Hn. fold (slot (capacity d) k). by rewrite Hb.
Qed.

Lemma bucket_get_Some k bucket v : bucket_get k bucket = Some v -> (k, v) ∈ bucket.
Proof.
  induction bucket as [|[k' v'] rest IH]; simpl; [done|].
  case_decide as E.
  - intros [= ->]. subst. apply list_elem_of_here.
  - intros Hr. apply list_elem_of_further. auto.
Qed.

Lemma bucket_get_None k bucket : bucket_get k bucket = None <-> k ∉ bucket.*1.
Proof.
  induction bucket as [|[k' v'] rest IH]; simpl.
  - split; [|done]. intros _ Hin. by apply elem_of_nil in Hin.
  - case_decide as E.
    + subst. split; [done|]. intros Hn. exfalso. apply Hn. apply list_elem_of_here.
    + rewrite IH. rewrite not_elem_of_cons. split; [by intros; split; [congruence|] | tauto].
Qed.

Lemma find_key_None k bucket : find_key k bucket = None <-> k ∉ bucket.*1.
Proof.
  induction bucket as [|[k' v'] rest IH]; simpl.
  - split; [|done]. intros _ Hin. by apply elem_of_nil in Hin.
  - case_decide as E.
    + subst. split; [done|]. intros Hn. exfalso. apply Hn. apply list_elem_of_here.
    + rewrite not_elem_of_cons, <- IH.
      destruct (find_key k rest); simpl; split; try done; try tauto.
      intros [_ [=]].
Qed.

(** A found position splits the bucket around the entry of [k]. *)
Lemma find_key_Some k bucket i :
  find_key k bucket = Some i ->
  exists b1 v0 b2, bucket = b1 ++ (k, v0) :: b2 /\ length b1 = i /\ k ∉ b1.*1.
Proof.
  revert i. induction bucket as [|[k' v'] rest IH]; intros i; simpl; [done|].
  case_decide as E.
  - intros [= <-]. subst. exists [], v', rest. split_and!; [done..|].
    intros Hin. by apply elem_of_nil in Hin.
  - destruct (find_key k rest) as [i'|] eqn:Ef; [|done]. intros [= <-].
    destruct (IH i' eq_refl) as (b1 & v0 & b2 & -> & Hl & Hn).
    exists ((k', v') :: b1), v0, b2. split_and!; [done | simpl; lia |].
    simpl. rewrite not_elem_of_cons. done.
Qed.

Lemma concat_slot bs (j : nat) bucket :
  bs !! j = Some bucket -> concat bs ≡ₚ bucket ++ others j bs.
Proof.
  intros Hj. rewrite <- (take_drop_middle bs j bucket Hj) at 1.
  rewrite concat_app, concat_cons. unfold others.
  rewrite Permutation_app_swap_app. done.
Qed.

Lemma concat_insert_slot bs (j : nat) bucket' :
  (j < length bs)%nat -> concat (<[j := bucket']> bs) ≡ₚ bucket' ++ others j bs.
Proof.
  intros Hj. rewrite insert_take_drop by done.
  rewrite concat_app, concat_cons. unfold others.
  rewrite Permutation_app_swap_app. done.
Qed.

Lemma others_home d (j : nat) k v :
  wf d -> (k, v) ∈ others j (buckets d) -> home (capacity d) k <> Z.of_nat j.
Proof.
  intros Hwf Hin. unfold others in Hin. apply elem_of_app in Hin.
  destruct Hin as [Hin|Hin]; apply list_elem_of_In, in_concat in Hin;
    destruct Hin as (b & Hb & Hkb); apply list_elem_of_In in Hb, Hkb;
    apply list_elem_of_lookup in Hb; destruct Hb as [i Hi].
  - apply lookup_take_Some in Hi. destruct Hi as [Hi Hlt].
    rewrite (wf_home d Hwf i b k v Hi Hkb). lia.
  - rewrite lookup_drop in Hi.
    rewrite (wf_home d Hwf _ b k v Hi Hkb). lia.
Qed.

Lemma home_slot d k : wf d -> home (capacity d) k = Z.of_nat (slot (capacity d) k).
Proof.
  intros Hwf. unfold slot.
  pose proof (home_range (capacity d) k (wf_capacity _ Hwf)). lia.
Qed.

Lemma items_slot d (j : nat) bucket :
  buckets d !! j = Some bucket -> items d ≡ₚ bucket ++ others j (buckets d).
Proof. apply concat_slot. Qed.

Lemma others_no_key d k :
  wf d -> k ∉ (others (slot (capacity d) k) (buckets d)).*1.
Proof.
  intros Hwf Hin. apply list_elem_of_fmap in Hin. destruct Hin as ([k' v] & -> & Hin).
  apply (others_home d _ k' v Hwf) in Hin. by apply Hin, home_slot.
Qed.

Lemma to_map_lookup d k bucket :
  wf d -> buckets d !! slot (capacity d) k = Some bucket ->
  to_map d !! k = bucket_get k bucket.
Proof.
  intros Hwf Hb. unfold to_map.
  destruct (bucket_get k bucket) as [v|] eqn:Eg.
  - apply elem_of_list_to_map; [apply (wf_nodup _ Hwf)|].
    rewrite (items_slot d _ _ Hb). apply elem_of_app. left. by apply bucket_get_Some.
  - apply not_elem_of_list_to_map. rewrite (items_slot d _ _ Hb), fmap_app.
    rewrite not_elem_of_app. split; [by apply bucket_get_None | by apply others_no_key].
Qed.

(** [__getitem__] reads the finite map. *)
Lemma getitem_to_map d k :
  wf d ->
  __getitem__ d k =
    match to_map d !! k with Some v => Ok v | None => Raise (KeyError k) end.
Proof.
  intros Hwf. unfold __getitem__.
  rewrite (_hash_home d k (wf_capacity _ Hwf)). simpl.
  destruct (py_index_home d k Hwf) as (bucket & Hb & -> & _). simpl.
  by rewrite (to_map_lookup d k bucket Hwf Hb).
Qed.

Lemma list_to_map_overwrite (l1 l2 : list (key * V)) k v v0 :
  k ∉ l1.*1 ->
  (list_to_map (l1 ++ (k, v) :: l2) : gmap key V)
  = <[k := v]> (list_to_map (l1 ++ (k, v0) :: l2)).
Proof.
  induction l1 as [|[k' v'] l1 IH]; simpl; intros Hn.
  - by rewrite insert_insert_eq.
  - apply not_elem_of_cons in Hn. destruct Hn as [Hne Hn].
    rewrite (IH Hn). by apply insert_insert_ne.
Qed.

Lemma list_to_map_remove (l1 l2 : list (key * V)) k v0 :
  k ∉ l1.*1 -> k ∉ l2.*1 ->
  (list_to_map (l1 ++ l2) : gmap key V)
  = delete k (list_to_map (l1 ++ (k, v0) :: l2)).
Proof.
  induction l1 as [|[k' v'] l1 IH]; simpl; intros Hn1 Hn2.
  - rewrite delete_insert_eq. symmetry. apply delete_id.
    by apply not_elem_of_list_to_map.
  - apply not_elem_of_cons in Hn1. destruct Hn1 as [Hne Hn1].
    rewrite (IH Hn1 Hn2). by rewrite delete_insert_ne.
Qed.

(** Replacing the bucket of one slot by entries that belong there. *)
Lemma wf_store d (j : nat) bucket' sz :
  wf d -> (j < length (buckets d))%nat ->
  (forall k v, (k, v) ∈ bucket' -> home (capacity d) k = Z.of_nat j) ->
  NoDup (bucket' ++ others j (buckets d)).*1 ->
  sz = Z.of_nat (length (bucket' ++ others j (buckets d))) ->
  let d' := {| capacity := capacity d; size := sz;
               buckets := <[j := bucket']> (buckets d) |} in
  wf d' /\ to_map d' = list_to_map (bucket' ++ others j (buckets d)).
Proof.
  intros Hwf Hj Hhome Hnd Hsz d'.
  assert (items d' ≡ₚ bucket' ++ others j (buckets d)) as Hperm.
  { unfold items, d'. simpl. by apply concat_insert_slot. }
  split.
  - constructor; simpl.
    + apply (wf_capacity _ Hwf).
    + rewrite length_insert. apply (wf_length _ Hwf).
    + rewrite Hsz. f_equal. by rewrite Hperm.
    + unfold keys. by rewrite Hperm.
    + intros i b k v Hi Hkv. destruct (decide (i = j)) as [->|Hne].
      * rewrite list_lookup_insert_eq in Hi by done. injection Hi as <-. by eapply Hhome.
      * rewrite list_lookup_insert_ne in Hi by done. by eapply (wf_home _ Hwf).
  - unfold to_map. apply list_to_map_proper; [|done].
    rewrite Hperm. done.
Qed.

Lemma norm_index_slot d k :
  wf d -> norm_index (buckets d) (home (capacity d) k) = Some (slot (capacity d) k).
Proof. intros Hwf. by destruct (py_index_home d k Hwf) as (? & _ & _ & ?). Qed.

Lemma load_factor_reached_spec d :
  0 < capacity d ->
  load_factor_reached d = Ok (bool_decide (3 * capacity d <= 4 * size d)).
Proof.
  intros Hc. unfold load_factor_reached.
  destruct (capacity d =? 0) eqn:E; [lia|]. f_equal.
  destruct (capacity d) as [|c|c] eqn:Ec; try lia.
  unfold load_factor_threshold.
  destruct (Qle_bool (3 # 4) (inject_Z (size d) / inject_Z (Z.pos c))) eqn:Eq.
  - apply Qle_bool_iff in Eq. unfold Qle, Qdiv, Qmult, Qinv, inject_Z in Eq.
    simpl in Eq. symmetry. apply bool_decide_eq_true. lia.
  - symmetry. apply bool_decide_eq_false. intros Hle.
    assert (Qle_bool (3 # 4) (inject_Z (size d) / inject_Z (Z.pos c)) = true) as Ht.
    { apply Qle_bool_iff. unfold Qle, Qdiv, Qmult, Qinv, inject_Z. simpl. lia. }
    congruence.
Qed.

(** Overwriting the value of a key that is present. *)
Lemma setitem_present depth d k v :
  wf d -> is_Some (to_map d !! k) ->
  exists d', __setitem__ depth d k v = Ok d' /\ wf d' /\
    capacity d' = capacity d /\ size d' = size d /\
    to_map d' = <[k := v]> (to_map d).
Proof.
  intros Hwf [v0 Hv0].
  destruct (py_index_home d k Hwf) as (bucket & Hb & Hpy & Hn).
  rewrite (to_map_lookup d k bucket Hwf Hb) in Hv0.
  destruct (find_key k bucket) as [i|] eqn:Ef.
  2:{ apply find_key_None, bucket_get_None in Ef. congruence. }
  destruct (find_key_Some k bucket i Ef) as (b1 & v1 & b2 & -> & Hi & Hk1).
  pose proof (items_slot d _ _ Hb) as Hperm.
  destruct (wf_store d (slot (capacity d) k) (b1 ++ (k, v) :: b2) (size d) Hwf)
    as [Hwf' Hmap].
  { by apply slot_lt. }
  { intros k' v' Hin.
    apply (wf_home _ Hwf _ (b1 ++ (k, v1) :: b2) k' (if decide (k' = k) then v1 else v'));
      [done|].
    rewrite elem_of_app, elem_of_cons in Hin |- *.
    destruct Hin as [Hin|[[= -> ->]|Hin]].
    - left. case_decide; [|done]. subst. exfalso. apply Hk1.
      apply list_elem_of_fmap. by exists (k, v').
    - right. left. by rewrite decide_True.
    - case_decide; [|by right; right]. subst. by right; left. }
  { pose proof (wf_nodup _ Hwf) as Hnd. unfold keys in Hnd. rewrite Hperm in Hnd.
    rewrite !fmap_app, !fmap_cons in Hnd |- *. done. }
  { rewrite (wf_size _ Hwf), Hperm. rewrite !length_app. simpl. done. }
  eexists. split.
  { destruct depth; simpl; rewrite (_hash_home d k (wf_capacity _ Hwf)); simpl;
      rewrite Hpy; simpl; rewrite Ef; unfold store_bucket; rewrite Hn;
      rewrite <- Hi, insert_app_r_alt, Nat.sub_diag by lia; simpl; reflexivity. }
  split; [done|]. split; [done|]. split; [done|].
  rewrite Hmap. unfold to_map. rewrite (list_to_map_proper _ _ (wf_nodup _ Hwf) Hperm).
  rewrite <- !app_assoc. simpl. by apply list_to_map_overwrite.
Qed.

Lemma wf_appended d k v bucket :
  wf d -> to_map d !! k = None ->
  buckets d !! slot (capacity d) k = Some bucket ->
  wf (appended d k v bucket) /\
  to_map (appended d k v bucket) = <[k := v]> (to_map d).
Proof.
  intros Hwf Hnone Hb.
  pose proof (items_slot d _ _ Hb) as Hperm.
  assert (k ∉ (items d).*1) as Hfresh by by apply not_elem_of_list_to_map.
  destruct (wf_store d (slot (capacity d) k) (bucket ++ [(k, v)]) (size d + 1) Hwf)
    as [Hwf' Hmap].
  { by apply slot_lt. }
  { intros k' v' Hin. rewrite elem_of_app, list_elem_of_singleton in Hin.
    destruct Hin as [Hin|[= -> ->]].
    - by apply (wf_home _ Hwf _ bucket k' v').
    - by apply home_slot. }
  { rewrite <- app_assoc. simpl.
    rewrite <- Permutation_middle, fmap_cons. apply NoDup_cons. split.
    - by rewrite <- Hperm.
    - rewrite <- Hperm. apply (wf_nodup _ Hwf). }
  { rewrite (wf_size _ Hwf), Hperm. rewrite !length_app. simpl. lia. }
  unfold appended, store_bucket. rewrite (norm_index_slot d k Hwf).
  split; [done|]. rewrite Hmap. unfold to_map.
  rewrite <- app_assoc. simpl.
  rewrite (list_to_map_proper (bucket ++ (k, v) :: others _ _) ((k, v) :: items d)).
  - done.
  - rewrite <- Permutation_middle, fmap_cons. apply NoDup_cons. split.
    + by rewrite <- Hperm.
    + rewrite <- Hperm. apply (wf_nodup _ Hwf).
  - by rewrite <- Permutation_middle, Hperm.
Qed.

(** Inserting a key that is absent: append, count, then check the load. *)
Lemma setitem_absent depth d k v :
  wf d -> to_map d !! k = None ->
  exists bucket, buckets d !! slot (capacity d) k = Some bucket /\
    __setitem__ depth d k v =
      if bool_decide (3 * capacity d <= 4 * (size d + 1)) then
        match depth with
        | O => Raise RecursionError
        | S depth' => _resize depth' (appended d k v bucket)
        end
      else Ok (appended d k v bucket).
Proof.
  intros Hwf Hnone.
  destruct (py_index_home d k Hwf) as (bucket & Hb & Hpy & Hn).
  exists bucket. split; [done|].
  rewrite (to_map_lookup d k bucket Hwf Hb) in Hnone.
  apply bucket_get_None, find_key_None in Hnone.
  destruct depth; simpl; rewrite (_hash_home d k (wf_capacity _ Hwf)); simpl;
    rewrite Hpy; simpl; rewrite Hnone;
    rewrite load_factor_reached_spec by (simpl; apply (wf_capacity _ Hwf)); simpl;
    fold (appended d k v bucket); reflexivity.
Qed.

Lemma setitem_absent_quiet depth d k v :
  wf d -> to_map d !! k = None -> 4 * (size d + 1) < 3 * capacity d ->
  exists d', __setitem__ depth d k v = Ok d' /\ wf d' /\
    capacity d' = capacity d /\ size d' = size d + 1 /\
    to_map d' = <[k := v]> (to_map d).
Proof.
  intros Hwf Hnone Hload.
  destruct (setitem_absent depth d k v Hwf Hnone) as (bucket & Hb & ->).
  rewrite bool_decide_eq_false_2 by lia.
  destruct (wf_appended d k v bucket Hwf Hnone Hb) as [Hwf' Hmap].
  by exists (appended d k v bucket).
Qed.

Lemma wf_init c : 0 < c -> wf (__init__ c : CustomDictionary V).
Proof.
  intros Hc.
  assert (forall n, concat (replicate n ([] : list (key * V))) = []) as Hnil.
  { induction n as [|n IH]; simpl; [done|]. by rewrite IH. }
  constructor; simpl; unfold items, keys, fresh_buckets; simpl.
  - done.
  - by rewrite length_replicate.
  - unfold fresh_buckets. by rewrite Hnil.
  - unfold items. simpl. unfold fresh_buckets. rewrite Hnil. constructor.
  - intros i b k v Hi Hin. apply lookup_replicate in Hi. destruct Hi as [-> _].
    by apply elem_of_nil in Hin.
Qed.

Lemma to_map_init c : to_map (__init__ c : CustomDictionary V) = ∅.
Proof.
  unfold to_map, items, __init__, fresh_buckets. simpl.
  assert (forall n, concat (replicate n ([] : list (key * V))) = []) as Hnil.
  { induction n as [|n IH]; simpl; [done|]. by rewrite IH. }
  by rewrite Hnil.
Qed.

(** Reinserting entries with pairwise distinct fresh keys into a table that
    has room for all of them: no resize is attempted, at any depth. *)
Lemma refill depth (es : list (key * V)) : forall d,
  wf d -> NoDup es.*1 -> (forall k, k ∈ es.*1 -> to_map d !! k = None) ->
  4 * (size d + Z.of_nat (length es)) < 3 * capacity d ->
  exists d', for_each (fun d' kv => __setitem__ depth d' kv.1 kv.2) es d = Ok d' /\
    wf d' /\ capacity d' = capacity d /\
    size d' = size d + Z.of_nat (length es) /\
    to_map d' = list_to_map es ∪ to_map d.
Proof.
  induction es as [|[k v] es IH]; intros d Hwf Hnd Hfresh Hload.
  - exists d. simpl. split_and!; try done; [lia|]. by rewrite (left_id_L ∅ (∪)).
  - rewrite fmap_cons in Hnd. apply NoDup_cons in Hnd. destruct Hnd as [Hk Hnd].
    destruct (setitem_absent_quiet depth d k v Hwf) as (d1 & Hset & Hwf1 & Hc1 & Hs1 & Hm1).
    { apply Hfresh. rewrite fmap_cons. apply list_elem_of_here. }
    { simpl length in Hload. pose proof (wf_size _ Hwf). lia. }
    destruct (IH d1 Hwf1 Hnd) as (d' & Hrun & Hwf' & Hc' & Hs' & Hm').
    { intros k' Hk'. rewrite Hm1, lookup_insert_ne; [|by intros ->].
      apply Hfresh. rewrite fmap_cons. by apply list_elem_of_further. }
    { rewrite Hc1, Hs1. simpl length in Hload. lia. }
    exists d'. simpl. rewrite Hset. simpl. split; [done|]. split; [done|].
    split; [congruence|]. split; [simpl length; lia|].
    rewrite Hm', Hm1. rewrite <- insert_union_r by by apply not_elem_of_list_to_map.
    by rewrite insert_union_l.
Qed.

(** A resize of a table whose entries fit below the threshold at the doubled
    capacity keeps the map and runs without a nested resize. *)
Lemma resize_spec depth d :
  wf d -> 4 * size d < 6 * capacity d ->
  exists d', _resize depth d = Ok d' /\ wf d' /\ load_ok d' /\
    capacity d' = 2 * capacity d /\ size d' = size d /\ to_map d' = to_map d.
Proof.
  intros Hwf Hload. unfold _resize, _resize_with.
  change {| capacity := capacity d * 2; size := 0;
            buckets := fresh_buckets (capacity d * 2) |}
    with (__init__ (capacity d * 2) : CustomDictionary V).
  pose proof (wf_capacity _ Hwf) as Hc.
  destruct (refill depth (items d) (__init__ (capacity d * 2)))
    as (d' & Hrun & Hwf' & Hc' & Hs' & Hm').
  { apply wf_init. lia. }
  { apply (wf_nodup _ Hwf). }
  { intros k _. by rewrite to_map_init. }
  { simpl. rewrite <- (wf_size _ Hwf). lia. }
  exists d'. split; [done|]. split; [done|]. simpl in Hc', Hs'.
  rewrite <- (wf_size _ Hwf) in Hs'.
  split; [unfold load_ok; lia|]. split; [lia|]. split; [lia|].
  rewrite Hm', to_map_init. by rewrite (right_id_L ∅ (∪)).
Qed.

(** [__setitem__] on a table below the threshold: it returns at every depth
    that permits one resize, the result is a table below the threshold, and
    the map gains the binding. *)
Lemma setitem_spec depth d k v :
  wf d -> load_ok d ->
  exists d', __setitem__ (S depth) d k v = Ok d' /\ wf d' /\ load_ok d' /\
    to_map d' = <[k := v]> (to_map d) /\
    capacity d' =
      (if decide (to_map d !! k = None /\ 3 * capacity d <= 4 * (size d + 1))
       then 2 * capacity d else capacity d).
Proof.
  intros Hwf Hload. unfold load_ok in Hload.
  destruct (to_map d !! k) as [v0|] eqn:Ek.
  - destruct (setitem_present (S depth) d k v Hwf) as (d' & Hset & Hwf' & Hc & Hs & Hm);
      [by eexists|].
    exists d'. split_and!; [done | done | unfold load_ok; lia | done |].
    rewrite decide_False; [done|]. intros [? _]. congruence.
  - destruct (setitem_absent (S depth) d k v Hwf Ek) as (bucket & Hb & Hset).
    destruct (wf_appended d k v bucket Hwf Ek Hb) as [Hwf1 Hm1].
    case_bool_decide as Hreach.
    + destruct (resize_spec depth (appended d k v bucket) Hwf1)
        as (d' & Hrs & Hwf' & Hl' & Hc' & _ & Hm').
      { simpl. pose proof (wf_size _ Hwf). pose proof (wf_capacity _ Hwf). lia. }
      exists d'. split; [congruence|]. split_and!; [done | done | congruence |].
      rewrite decide_True; [apply Hc'|done].
    + exists (appended d k v bucket). split_and!; [done | done | | done |].
      * unfold load_ok. simpl. lia.
      * rewrite decide_False; [done|]. by intros [_ ?].
Qed.

Lemma delitem_absent d k :
  wf d -> to_map d !! k = None -> __delitem__ d k = Raise (KeyError k).
Proof.
  intros Hwf Hnone. unfold __delitem__.
  destruct (py_index_home d k Hwf) as (bucket & Hb & Hpy & Hn).
  rewrite (to_map_lookup d k bucket Hwf Hb) in Hnone.
  apply bucket_get_None, find_key_None in Hnone.
  rewrite (_hash_home d k (wf_capacity _ Hwf)). simpl. rewrite Hpy. simpl.
  by rewrite Hnone.
Qed.

Lemma delitem_present d k :
  wf d -> is_Some (to_map d !! k) ->
  exists d', __delitem__ d k = Ok d' /\ wf d' /\
    capacity d' = capacity d /\ size d' = size d - 1 /\
    to_map d' = delete k (to_map d).
Proof.
  intros Hwf [v0 Hv0].
  destruct (py_index_home d k Hwf) as (bucket & Hb & Hpy & Hn).
  rewrite (to_map_lookup d k bucket Hwf Hb) in Hv0.
  destruct (find_key k bucket) as [i|] eqn:Ef.
  2:{ apply find_key_None, bucket_get_None in Ef. congruence. }
  destruct (find_key_Some k bucket i Ef) as (b1 & v1 & b2 & -> & Hi & Hk1).
  pose proof (items_slot d _ _ Hb) as Hperm.
  pose proof (wf_nodup _ Hwf) as Hnd. unfold keys in Hnd. rewrite Hperm in Hnd.
  rewrite <- app_assoc in Hnd. simpl in Hnd.
  rewrite fmap_app, fmap_cons in Hnd. apply NoDup_app in Hnd.
  destruct Hnd as (Hnd1 & Hdisj & Hnd2). apply NoDup_cons in Hnd2.
  destruct Hnd2 as [Hk2 Hnd2]. simpl in Hk2.
  destruct (wf_store d (slot (capacity d) k) (b1 ++ b2) (size d - 1) Hwf)
    as [Hwf' Hmap].
  { by apply slot_lt. }
  { intros k' v' Hin. apply (wf_home _ Hwf _ (b1 ++ (k, v1) :: b2) k' v'); [done|].
    rewrite elem_of_app, elem_of_cons. rewrite elem_of_app in Hin. tauto. }
  { rewrite <- app_assoc, fmap_app. apply NoDup_app. split_and!; [done| |done].
    intros x Hx1 Hx2. apply (Hdisj x Hx1). simpl. by apply list_elem_of_further. }
  { rewrite (wf_size _ Hwf), Hperm. rewrite !length_app. simpl. lia. }
  eexists. split.
  { unfold __delitem__. rewrite (_hash_home d k (wf_capacity _ Hwf)). simpl.
    rewrite Hpy. simpl. rewrite Ef. unfold store_bucket. rewrite Hn.
    rewrite <- Hi, delete_middle. reflexivity. }
  split; [done|]. split; [done|]. split; [done|].
  rewrite Hmap. unfold to_map. rewrite (list_to_map_proper _ _ (wf_nodup _ Hwf) Hperm).
  rewrite <- !app_assoc. simpl. by apply list_to_map_remove.
Qed.

Lemma clear_spec d :
  wf d -> wf (clear d) /\ load_ok (clear d) /\ to_map (clear d) = ∅.
Proof.
  intros Hwf. pose proof (wf_capacity _ Hwf) as Hc.
  change (clear d) with (__init__ (capacity d) : CustomDictionary V).
  split; [by apply wf_init|]. split; [unfold load_ok; simpl; lia|].
  apply to_map_init.
Qed.

(** *** More depth never changes a result *)

Lemma setitem_unfold depth d k v :
  __setitem__ depth d k v =
    (index ← _hash d k;
     bucket ← py_index (buckets d) index;
     match find_key k bucket with
     | Some i =>
         Ok {| capacity := capacity d; size := size d;
               buckets := store_bucket d index (<[i := (k, v)]> bucket) |}
     | None =>
         let d1 := {| capacity := capacity d; size := size d + 1;
                      buckets := store_bucket d index (bucket ++ [(k, v)]) |} in
         reached ← load_factor_reached d1;
         if (reached : bool) then
           match depth with
           | O => Raise RecursionError
           | S depth' => _resize depth' d1
           end
         else Ok d1
     end).
Proof. by destruct depth. Qed.

Lemma for_each_step {S A} (f : S -> A -> result S) x (xs : list A) st st1 :
  f st x = Ok st1 -> for_each f (x :: xs) st = for_each f xs st1.
Proof. intros Hf. simpl. by rewrite Hf. Qed.

Lemma for_each_mono {S A} (f g : S -> A -> result S) (xs : list A) :
  (forall st x st', f st x = Ok st' -> g st x = Ok st') ->
  forall st st', for_each f xs st = Ok st' -> for_each g xs st = Ok st'.
Proof.
  intros Hfg. induction xs as [|x xs IH]; intros st st'; simpl; [done|].
  destruct (f st x) as [st1|e] eqn:Ef; simpl; [|done].
  rewrite (Hfg _ _ _ Ef). simpl. apply IH.
Qed.

Lemma setitem_deeper depth : forall d k v d',
  __setitem__ depth d k v = Ok d' -> __setitem__ (S depth) d k v = Ok d'.
Proof.
  induction depth as [|depth IH]; intros d k v d';
    rewrite (setitem_unfold (S _)), setitem_unfold;
    destruct (_hash d k) as [index|]; simpl; try done;
    destruct (py_index (buckets d) index) as [bucket|]; simpl; try done;
    destruct (find_key k bucket); try done;
    destruct (load_factor_reached _) as [[]|]; simpl; try done.
  unfold _resize, _resize_with. apply for_each_mono.
  intros st [k' v'] st'. simpl. apply IH.
Qed.

Lemma setitem_depth_le n m d k v d' :
  (n <= m)%nat -> __setitem__ n d k v = Ok d' -> __setitem__ m d k v = Ok d'.
Proof. induction 1; [done|]. intros Hn. by apply setitem_deeper, IHle. Qed.

Lemma resize_depth_le n m d d' :
  (n <= m)%nat -> _resize n d = Ok d' -> _resize m d = Ok d'.
Proof.
  intros Hle. unfold _resize, _resize_with. apply for_each_mono.
  intros st [k v] st'. simpl. by apply setitem_depth_le.
Qed.

(** *** Sequences of operations *)

Lemma apply_op_spec depth d (o : op V) :
  wf d -> load_ok d ->
  exists d', apply_op (S depth) d o = Ok d' /\ wf d' /\ load_ok d' /\
    to_map d' = model_op (to_map d) o.
Proof.
  intros Hwf Hload. destruct o as [k v|k| |]; simpl.
  - destruct (setitem_spec depth d k v Hwf Hload) as (d' & ? & ? & ? & ? & _).
    by exists d'.
  - destruct (to_map d !! k) as [v0|] eqn:Ek.
    + destruct (delitem_present d k Hwf) as (d' & -> & Hwf' & Hc & Hs & Hm);
        [by eexists|].
      exists d'. split_and!; try done. unfold load_ok in *. lia.
    + rewrite (delitem_absent d k Hwf Ek). exists d. split_and!; try done.
      symmetry. by apply delete_id.
  - destruct (clear_spec d Hwf) as (? & ? & ?). by exists (clear d).
  - destruct (resize_spec (S depth) d Hwf) as (d' & ? & ? & ? & _ & _ & ?).
    { unfold load_ok in Hload. pose proof (wf_capacity _ Hwf). lia. }
    by exists d'.
Qed.

Lemma apply_op_depth_le n m d (o : op V) d' :
  (n <= m)%nat -> apply_op n d o = Ok d' -> apply_op m d o = Ok d'.
Proof.
  intros Hle. destruct o; simpl; try done.
  - by apply setitem_depth_le.
  - by apply resize_depth_le.
Qed.

Lemma apply_op_sound depth d (o : op V) d' :
  wf d -> load_ok d -> apply_op depth d o = Ok d' ->
  wf d' /\ load_ok d' /\ to_map d' = model_op (to_map d) o.
Proof.
  intros Hwf Hload Hop.
  destruct (apply_op_spec depth d o Hwf Hload) as (d'' & Hop' & ? & ? & ?).
  apply (apply_op_depth_le depth (S depth)) in Hop; [|lia].
  assert (d'' = d') as -> by congruence. done.
Qed.

Lemma run_spec depth (ops : list (op V)) : forall d,
  wf d -> load_ok d ->
  exists d', run (S depth) ops d = Ok d' /\ wf d' /\ load_ok d' /\
    to_map d' = foldl model_op (to_map d) ops.
Proof.
  unfold run. induction ops as [|o ops IH]; intros d Hwf Hload; simpl.
  - by exists d.
  - destruct (apply_op_spec depth d o Hwf Hload) as (d1 & -> & Hwf1 & Hl1 & Hm1).
    simpl. destruct (IH d1 Hwf1 Hl1) as (d' & ? & ? & ? & ?).
    exists d'. split_and!; try done. congruence.
Qed.

Lemma run_sound depth (ops : list (op V)) : forall d d',
  wf d -> load_ok d -> run depth ops d = Ok d' ->
  wf d' /\ load_ok d' /\ to_map d' = foldl model_op (to_map d) ops.
Proof.
  unfold run. induction ops as [|o ops IH]; intros d d' Hwf Hload; simpl.
  - by intros [= <-].
  - destruct (apply_op depth d o) as [d1|e] eqn:Eo; simpl; [|done].
    destruct (apply_op_sound depth d o d1 Hwf Hload Eo) as (Hwf1 & Hl1 & Hm1).
    intros Hrun. destruct (IH d1 d' Hwf1 Hl1 Hrun) as (? & ? & ?).
    split_and!; try done. congruence.
Qed.

Lemma load_ok_init c : 0 < c -> load_ok (__init__ c : CustomDictionary V).
Proof. intros Hc. unfold load_ok. simpl. lia. Qed.

Lemma untouched_model k (post : list (op V)) : forall m,
  Forall (fun o => touches k o = false) post ->
  foldl model_op m post !! k = m !! k.
Proof.
  induction post as [|o post IH]; intros m Hpost; simpl; [done|].
  apply Forall_cons in Hpost. destruct Hpost as [Ho Hpost].
  rewrite (IH _ Hpost). destruct o as [k' v'|k'| |]; simpl in *; try done.
  - apply bool_decide_eq_false in Ho. by apply lookup_insert_ne.
  - apply bool_decide_eq_false in Ho. by apply lookup_delete_ne.
Qed.

Lemma load_ratio_below d :
  0 < capacity d -> (load_ratio d < load_factor_threshold)%Q <-> load_ok d.
Proof.
  intros Hc. unfold load_ratio, load_factor_threshold, load_ok.
  destruct (capacity d) as [|c|c] eqn:Ec; try lia.
  unfold Qlt, Qdiv, Qmult, Qinv, inject_Z. simpl. lia.
Qed.

(** C1. After any sequence of operations on a fresh container every
    [get(k)] answers as the finite map that underwent the same operations:
    it returns the value of the last [set(k, v)] when no later operation
    touched [k], and raises KeyError when the last operation on [k] was a
    [delete(k)]; a resize, called directly or triggered inside a [set],
    returns and leaves the result of every [get] as it was. *)
Theorem get_after_set_delete_resize (c : Z) (depth : nat) (ops : list (op V)) :
  0 < c ->
  exists d, run (S depth) ops (__init__ c) = Ok d /\
    (forall k, __getitem__ d k
               = match model ops !! k with
                 | Some v => Ok v
                 | None => Raise (KeyError k)
                 end) /\
    (forall pre k v post, ops = pre ++ OpSet k v :: post ->
       Forall (fun o => touches k o = false) post -> __getitem__ d k = Ok v) /\
    (forall pre k post, ops = pre ++ OpDel k :: post ->
       Forall (fun o => touches k o = false) post ->
       __getitem__ d k = Raise (KeyError k)) /\
    (exists d', _resize depth d = Ok d' /\
       forall k, __getitem__ d' k = __getitem__ d k) /\
    (forall k v, exists d', __setitem__ (S depth) d k v = Ok d' /\
       __getitem__ d' k = Ok v /\
       forall k', k' <> k -> __getitem__ d' k' = __getitem__ d k').
Proof.
  intros Hc.
  destruct (run_spec depth ops (__init__ c) (wf_init c Hc) (load_ok_init c Hc))
    as (d & Hrun & Hwf & Hload & Hm).
  rewrite to_map_init in Hm.
  exists d. split; [done|]. split_and!.
  - intros k. by rewrite (getitem_to_map d k Hwf), Hm.
  - intros pre k v post -> Hpost. rewrite (getitem_to_map d k Hwf), Hm.
    rewrite foldl_app. simpl. rewrite untouched_model by done.
    by rewrite lookup_insert_eq.
  - intros pre k post -> Hpost. rewrite (getitem_to_map d k Hwf), Hm.
    rewrite foldl_app. simpl. rewrite untouched_model by done.
    by rewrite lookup_delete_eq.
  - destruct (resize_spec depth d Hwf) as (d' & Hrs & Hwf' & _ & _ & _ & Hm').
    { unfold load_ok in Hload. pose proof (wf_capacity _ Hwf). lia. }
    exists d'. split; [done|]. intros k.
    by rewrite (getitem_to_map d' k Hwf'), (getitem_to_map d k Hwf), Hm'.
  - intros k v.
    destruct (setitem_spec depth d k v Hwf Hload) as (d' & Hset & Hwf' & _ & Hm' & _).
    exists d'. split; [done|]. split.
    + by rewrite (getitem_to_map d' k Hwf'), Hm', lookup_insert_eq.
    + intros k' Hne.
      rewrite (getitem_to_map d' k' Hwf'), (getitem_to_map d k' Hwf), Hm'.
      by rewrite lookup_insert_ne.
Qed.

Lemma py_index_nil {A} (i : Z) : py_index ([] : list A) i = Raise IndexError.
Proof. unfold py_index. by destruct (norm_index [] i). Qed.

(** A container created with a capacity that is not positive has no bucket,
    and keeps none: every [set] on it raises. This is why the theorems
    below start from a positive capacity. *)
Lemma setitem_needs_buckets (c : Z) (depth : nat) (ops : list (op V)) d k v :
  c <= 0 -> run depth ops (__init__ c) = Ok d ->
  exists e, __setitem__ depth d k v = Raise e.
Proof.
  intros Hc Hrun.
  assert (forall d0 : CustomDictionary V, buckets d0 = [] ->
            forall k0 v0, exists e, __setitem__ depth d0 k0 v0 = Raise e) as Hset.
  { intros d0 Hb k0 v0. rewrite setitem_unfold.
    destruct (_hash d0 k0) as [index|e]; [|by exists e]. simpl.
    rewrite Hb, py_index_nil. by exists IndexError. }
  assert (forall d0 : CustomDictionary V, buckets d0 = [] ->
            forall k0, exists e, __delitem__ d0 k0 = Raise e /\
                         forall k1, e <> KeyError k1) as Hdel.
  { intros d0 Hb k0. unfold __delitem__.
    destruct (_hash d0 k0) as [index|e] eqn:Eh.
    - simpl. rewrite Hb, py_index_nil. by exists IndexError.
    - exists e. split; [done|]. intros k1 ->. unfold _hash in Eh.
      destruct k0 as [s|n].
      + destruct (list_ascii_of_string s); [done|]. by destruct (capacity d0 =? 0).
      + by destruct (capacity d0 =? 0). }
  assert (capacity d <= 0 /\ buckets d = []) as [_ Hb]; [|by apply Hset].
  assert (capacity (__init__ c : CustomDictionary V) <= 0
          /\ buckets (__init__ c : CustomDictionary V) = []) as Hinit.
  { split; [done|]. unfold __init__, fresh_buckets. simpl.
    by replace (Z.to_nat c) with 0%nat by lia. }
  revert Hrun Hinit. generalize (__init__ c : CustomDictionary V).
  unfold run. induction ops as [|o ops IH]; intros d0 Hrun [Hcap Hb].
  - by injection Hrun as <-.
  - simpl in Hrun. destruct (apply_op depth d0 o) as [d1|e] eqn:Eo; [|done].
    simpl in Hrun. apply (IH d1 Hrun).
    destruct o as [k0 v0|k0| |]; simpl in Eo.
    + destruct (Hset d0 Hb k0 v0) as [e He]. congruence.
    + destruct (Hdel d0 Hb k0) as (e & He & Hne). rewrite He in Eo.
      destruct e; try done. by destruct (Hne k1).
    + injection Eo as <-. simpl. split; [done|]. unfold fresh_buckets.
      by replace (Z.to_nat (capacity d0)) with 0%nat by lia.
    + unfold _resize, _resize_with in Eo. rewrite Hb in Eo. simpl in Eo.
      injection Eo as <-. simpl. split; [lia|]. unfold fresh_buckets.
      by replace (Z.to_nat (capacity d0 * 2)) with 0%nat by lia.
Qed.


(** C10. In every container reached from a fresh one by [set], [delete],
    [clear] and [_resize], at any depth at which they return, [size] is the
    number of stored entries, no key is stored twice, and every entry sits
    in the bucket whose index is [_hash] of its key at the current
    capacity. *)
Theorem container_invariant (c : Z) (depth : nat) (ops : list (op V)) d :
  0 < c -> run depth ops (__init__ c) = Ok d ->
  size d = Z.of_nat (length (concat (buckets d))) /\
  NoDup (concat (buckets d)).*1 /\
  (forall (i : nat) bucket k v, buckets d !! i = Some bucket ->
     (k, v) ∈ bucket -> _hash d k = Ok (Z.of_nat i)).
Proof.
  intros Hc Hrun.
  destruct (run_sound depth ops (__init__ c) d (wf_init c Hc) (load_ok_init c Hc) Hrun)
    as (Hwf & _ & _).
  split; [apply (wf_size _ Hwf)|]. split; [apply (wf_nodup _ Hwf)|].
  intros i bucket k v Hi Hin.
  rewrite (_hash_home d k (wf_capacity _ Hwf)). f_equal.
  by apply (wf_home _ Hwf i bucket k v).
Qed.

End DictionaryFacts.

Lemma get_after_set_delete_resize_witness :
  0 < 4 /\
  exists d, run (H := int_hash) 1 scenario_ops (__init__ 4) = Ok d /\
    __getitem__ (H := int_hash) d (KInt 7) = Ok 3 /\
    __getitem__ (H := int_hash) d (KStr "b") = Raise (KeyError (KStr "b")).
Proof.
  assert (0 < 4) as Hc by lia. split; [exact Hc|].
  destruct (get_after_set_delete_resize (H := int_hash) 4 0 scenario_ops Hc)
    as (d & Hrun & _ & Hset & Hdel & _).
  exists d. split; [exact Hrun|]. split.
  - apply (Hset [OpSet (KStr "a") 1; OpSet (KStr "b") 2] (KInt 7) 3 [OpDel (KStr "b")]).
    + reflexivity.
    + repeat constructor.
  - apply (Hdel [OpSet (KStr "a") 1; OpSet (KStr "b") 2; OpSet (KInt 7) 3] (KStr "b") []).
    + reflexivity.
    + constructor.
Defined.


Lemma container_invariant_witness :
  0 < 4 /\
  exists d, run (H := int_hash) 1 scenario_ops (__init__ 4) = Ok d /\
    capacity d = 8 /\ size d = Z.of_nat (length (concat (buckets d))).
Proof.
  assert (0 < 4) as Hc by lia. split; [exact Hc|].
  eexists. split; [vm_compute; reflexivity|]. split; [reflexivity|].
  eapply (container_invariant (H := int_hash) 4 1 scenario_ops _ Hc).
  vm_compute. reflexivity.
Defined.

(** ** Built-in dicts *)

Section DictFacts.

Context {V : Type}.
Implicit Types (d : pydict V) (k : string) (v : V).

Lemma dict_get_set_eq d k v : dict_get (dict_set d k v) k = Some v.
Proof.
  induction d as [|[k' v'] d IH]; simpl.
  - by rewrite decide_True.
  - case_decide as E; simpl.
    + by rewrite decide_True.
    + by rewrite decide_False.
Qed.

Lemma dict_get_set_ne d k k' v :
  k <> k' -> dict_get (dict_set d k v) k' = dict_get d k'.
Proof.
  intros Hne. induction d as [|[k0 v0] d IH]; simpl.
  - by rewrite decide_False.
  - case_decide as E; simpl.
    + subst. by rewrite !decide_False.
    + case_decide; [done | apply IH].
Qed.

Lemma dict_get_None d k : dict_get d k = None <-> k ∉ d.*1.
Proof.
  induction d as [|[k' v'] d IH]; simpl.
  - split; [|done]. intros _ Hin. by apply elem_of_nil in Hin.
  - case_decide as E.
    + subst. split; [done|]. intros Hn. exfalso. apply Hn, list_elem_of_here.
    + rewrite IH, not_elem_of_cons. split; [by intros; split; [congruence|] | tauto].
Qed.

Lemma dict_get_elem d k v : dict_get d k = Some v -> (k, v) ∈ d.
Proof.
  induction d as [|[k' v'] d IH]; simpl; [done|].
  case_decide as E.
  - intros [= ->]. subst. apply list_elem_of_here.
  - intros Hg. apply list_elem_of_further. auto.
Qed.

Lemma elem_dict_get d k v : NoDup d.*1 -> (k, v) ∈ d -> dict_get d k = Some v.
Proof.
  induction d as [|[k' v'] d IH]; simpl; intros Hnd Hin.
  - by apply elem_of_nil in Hin.
  - apply NoDup_cons in Hnd. destruct Hnd as [Hk' Hnd].
    apply elem_of_cons in Hin. destruct Hin as [[= -> ->]|Hin].
    + by rewrite decide_True.
    + rewrite decide_False; [by apply IH|]. intros ->. apply Hk'.
      apply list_elem_of_fmap. by exists (k, v).
Qed.

Lemma dict_set_absent d k v : k ∉ d.*1 -> dict_set d k v = d ++ [(k, v)].
Proof.
  induction d as [|[k' v'] d IH]; simpl; intros Hn; [done|].
  apply not_elem_of_cons in Hn. destruct Hn as [Hne Hn].
  rewrite decide_False by done. by rewrite IH.
Qed.

Lemma dict_set_keys d k v k' : k' ∈ (dict_set d k v).*1 <-> k' = k \/ k' ∈ d.*1.
Proof.
  induction d as [|[k0 v0] d IH]; simpl.
  - rewrite list_elem_of_singleton. split; [auto|]. intros [?|Hin]; [done|].
    by apply elem_of_nil in Hin.
  - case_decide as E; simpl; rewrite !elem_of_cons.
    + subst. tauto.
    + rewrite IH. tauto.
Qed.

Lemma dict_set_nodup d k v : NoDup d.*1 -> NoDup (dict_set d k v).*1.
Proof.
  induction d as [|[k0 v0] d IH]; simpl; intros Hnd.
  - apply NoDup_singleton.
  - apply NoDup_cons in Hnd. destruct Hnd as [Hk0 Hnd].
    case_decide as E; simpl; apply NoDup_cons.
    + done.
    + split; [|by apply IH]. rewrite dict_set_keys. intros [->|?]; done.
Qed.

(** Binding pairwise distinct new keys one after the other appends them. *)
Lemma fold_dict_set_fresh {A} (f : A -> V) (l : list (string * A)) : forall d,
  NoDup (d.*1 ++ l.*1) ->
  fold_left (fun acc wc => dict_set acc wc.1 (f wc.2)) l d
  = d ++ ((fun wc => (wc.1, f wc.2)) <$> l).
Proof.
  induction l as [|[w c] l IH]; intros d Hnd; simpl.
  - by rewrite app_nil_r.
  - rewrite fmap_cons in Hnd. simpl in Hnd.
    rewrite dict_set_absent.
    + rewrite IH.
      * by rewrite <- app_assoc.
      * rewrite fmap_app. simpl. by rewrite <- app_assoc.
    + apply NoDup_app in Hnd. destruct Hnd as (_ & Hdisj & _).
      intros Hin. apply (Hdisj w Hin). apply list_elem_of_here.
Qed.

Lemma dict_get_fmap {A} (f : A -> V) (l : list (string * A)) k :
  dict_get ((fun wc => (wc.1, f wc.2)) <$> l) k = f <$> dict_get l k.
Proof.
  induction l as [|[w c] l IH]; simpl; [done|]. by case_decide.
Qed.

End DictFacts.

(** ** indexing.py: phrase matching and the first phase of a content query *)

Section PhraseFacts.

Context `{NLP}.
Import Indexing.

Lemma phrase_match_iff content query :
  phrase_match content query = true <->
  exists pre post,
    word_tokenize (lower content) = pre ++ word_tokenize (lower query) ++ post.
Proof.
  unfold phrase_match, range, slice.
  set (cw := word_tokenize (lower content)). set (qw := word_tokenize (lower query)).
  rewrite existsb_exists. split.
  - intros (i & _ & Hi). apply bool_decide_eq_true in Hi.
    replace (i + length qw - i)%nat with (length qw) in Hi by lia.
    exists (take i cw), (drop (length qw) (drop i cw)).
    rewrite <- (take_drop i cw) at 1. f_equal.
    rewrite <- (take_drop (length qw) (drop i cw)) at 1. by f_equal.
  - intros (pre & post & Hcw). exists (length pre). split.
    + apply in_seq. rewrite Hcw, !length_app. lia.
    + apply bool_decide_eq_true.
      replace (length pre + length qw - length pre)%nat with (length qw) by lia.
      rewrite Hcw, drop_app_length. by rewrite take_app_length.
Qed.

Lemma elem_of_phrase_matches (e : SearchEngine) query doc_id :
  doc_id ∈ phrase_matches e query <->
  exists content, (doc_id, content) ∈ documents e /\
    phrase_match content query = true.
Proof.
  unfold phrase_matches. rewrite elem_of_list_to_set, list_elem_of_fmap. split.
  - intros ([id content] & -> & Hin). apply list_elem_of_filter in Hin.
    destruct Hin as [Hm Hin]. by exists content.
  - intros (content & Hin & Hm). exists (doc_id, content). split; [done|].
    by apply list_elem_of_filter.
Qed.

(** C4. [phrase_match] holds exactly when the tokens of the lower-cased
    query occur as a contiguous run in the tokens of the lower-cased
    content; and when some document phrase-matches, [search_by_content]
    returns the set of the phrase-matching documents whatever the index
    holds. *)
Theorem phrase_match_decides_first_phase :
  (forall content query,
     phrase_match content query = true <->
     exists pre post,
       word_tokenize (lower content) = pre ++ word_tokenize (lower query) ++ post) /\
  (forall (e : SearchEngine) query,
     (exists doc_id content, (doc_id, content) ∈ documents e /\
        phrase_match content query = true) ->
     exists found, search_by_content e query = Ok found /\
       (forall doc_id, doc_id ∈ found <->
          exists content, (doc_id, content) ∈ documents e /\
            phrase_match content query = true) /\
       forall idx,
         search_by_content {| index := idx; documents := documents e |} query
         = Ok found).
Proof.
  split; [apply phrase_match_iff|].
  intros e query (doc_id & content & Hin & Hm).
  assert (phrase_matches e query <> ∅) as Hne.
  { intros Hempty.
    assert (doc_id ∈ phrase_matches e query) as Hd
      by (apply elem_of_phrase_matches; eauto).
    rewrite Hempty in Hd. by apply not_elem_of_empty in Hd. }
  exists (phrase_matches e query). split_and!.
  - unfold search_by_content. by rewrite decide_False.
  - intros id. apply elem_of_phrase_matches.
  - intros idx. unfold search_by_content.
    change (phrase_matches {| index := idx; documents := documents e |} query)
      with (phrase_matches e query).
    by rewrite decide_False.
Qed.

(** C6, as the code has it. A query without tokens phrase-matches every
    document, so [search_by_content] returns the ids of all documents, the
    empty set only for an empty corpus; no exception is raised. *)
Theorem empty_query_matches_every_document (e : SearchEngine) query :
  word_tokenize (lower query) = [] -> pos_tag [] = [] ->
  search_by_content e query = Ok (list_to_set (documents e).*1).
Proof.
  intros Htok Htag.
  assert (forall content, phrase_match content query = true) as Hall.
  { intros content. apply phrase_match_iff. rewrite Htok.
    exists [], (word_tokenize (lower content)). done. }
  assert (phrase_matches e query = list_to_set (documents e).*1) as Hpm.
  { unfold phrase_matches. f_equal. f_equal.
    induction (documents e) as [|dc l IH]; [done|].
    rewrite filter_cons. rewrite decide_True by apply Hall. by rewrite IH. }
  unfold search_by_content. rewrite Hpm.
  case_decide as Hempty; [|done].
  unfold expanded_noun_tokens, query_nouns, substring_matches.
  rewrite Htok, Htag. simpl. rewrite decide_True by done.
  destruct (documents e) as [|[id c] l]; [done|].
  exfalso. assert (id ∈ (∅ : gset string)) as Hin.
  { rewrite <- Hempty. apply elem_of_list_to_set. simpl. apply list_elem_of_here. }
  by apply not_elem_of_empty in Hin.
Qed.

End PhraseFacts.

Lemma phrase_match_decides_first_phase_witness :
  exists found,
    Indexing.search_by_content (H := toy_nlp) toy_corpus "sat on the mat" = Ok found /\
    "doc1"%string ∈ found.
Proof.
  destruct (proj2 (phrase_match_decides_first_phase (H := toy_nlp))
              toy_corpus "sat on the mat"%string)
    as (found & Hrun & Hfound & _).
  - exists "doc1"%string, "The cat sat on the mat"%string. split.
    + apply list_elem_of_here.
    + vm_compute. reflexivity.
  - exists found. split; [exact Hrun|]. apply Hfound.
    exists "The cat sat on the mat"%string. split.
    + apply list_elem_of_here.
    + vm_compute. reflexivity.
Defined.

(** C6, as stated, fails: the empty query has no tokens, and the search
    returns both documents of the corpus. *)
Lemma empty_query_result_not_empty :
  word_tokenize (NLP := toy_nlp) (lower EmptyString) = [] /\
  Indexing.search_by_content (H := toy_nlp) toy_corpus EmptyString <> Ok ∅.
Proof.
  split; [reflexivity|]. vm_compute. discriminate.
Qed.

Lemma empty_query_matches_every_document_witness :
  Indexing.search_by_content (H := toy_nlp) toy_corpus EmptyString
  = Ok (list_to_set ["doc1"; "doc2"]%string).
Proof.
  apply (empty_query_matches_every_document (H := toy_nlp) toy_corpus EmptyString);
    reflexivity.
Defined.

(** ** indexing.py: term frequencies *)

Section CounterFacts.

Import Indexing.

Lemma dict_get_default_set_eq {V} (d : pydict V) k v dflt :
  dict_get_default (dict_set d k v) k dflt = v.
Proof. unfold dict_get_default. by rewrite dict_get_set_eq. Qed.

Lemma dict_get_default_set_ne {V} (d : pydict V) k k' v dflt :
  k <> k' -> dict_get_default (dict_set d k v) k' dflt = dict_get_default d k' dflt.
Proof. intros Hne. unfold dict_get_default. by rewrite dict_get_set_ne. Qed.

Lemma occurrences_cons w x words :
  occurrences w (x :: words)
  = (if decide (x = w) then 1 else 0) + occurrences w words.
Proof.
  unfold occurrences. rewrite filter_cons.
  case_decide; simpl length; lia.
Qed.

Lemma occurrences_pos w words : w ∈ words -> 0 < occurrences w words.
Proof.
  intros Hin. unfold occurrences.
  assert (w ∈ filter (fun x => x = w) words) as Hf by by apply list_elem_of_filter.
  destruct (filter (fun x => x = w) words); [by apply elem_of_nil in Hf | simpl; lia].
Qed.

Lemma total_dict_set (c : pydict Z) w n :
  total (dict_set c w n) = total c - dict_get_default c w 0 + n.
Proof.
  unfold dict_get_default. induction c as [|[k v] c IH]; simpl; [lia|].
  case_decide; simpl; [lia|]. rewrite IH. lia.
Qed.

Lemma tally_fold words : forall c,
  NoDup c.*1 ->
  let r := fold_left tally words c in
  NoDup r.*1 /\
  (forall w, w ∈ r.*1 <-> w ∈ c.*1 \/ w ∈ words) /\
  (forall w, dict_get_default r w 0 = dict_get_default c w 0 + occurrences w words) /\
  total r = total c + Z.of_nat (length words).
Proof.
  induction words as [|x words IH]; intros c Hnd; simpl.
  - split_and!; [done| |intros; unfold occurrences; simpl; lia|lia].
    intros w. rewrite elem_of_nil. tauto.
  - destruct (IH (tally c x)) as (Hnd' & Hkeys & Hget & Htot).
    { by apply dict_set_nodup. }
    split_and!; [done| | |].
    + intros w. rewrite Hkeys. unfold tally. rewrite dict_set_keys, elem_of_cons. tauto.
    + intros w. rewrite Hget, occurrences_cons. unfold tally.
      case_decide as E.
      * subst. rewrite dict_get_default_set_eq. lia.
      * rewrite dict_get_default_set_ne by done. lia.
    + rewrite Htot. unfold tally. rewrite total_dict_set. lia.
Qed.

Lemma Counter_spec words :
  NoDup (Counter words).*1 /\
  (forall w, w ∈ (Counter words).*1 <-> w ∈ words) /\
  (forall w, w ∈ words -> dict_get (Counter words) w = Some (occurrences w words)) /\
  total (Counter words) = Z.of_nat (length words).
Proof.
  unfold Counter.
  destruct (tally_fold words []) as (Hnd & Hkeys & Hget & Htot); [constructor|].
  split_and!; [done| | |done].
  - intros w. rewrite Hkeys. simpl. rewrite elem_of_nil. tauto.
  - intros w Hw. specialize (Hget w). unfold dict_get_default in Hget. simpl in Hget.
    destruct (dict_get (fold_left tally words []) w) as [n|] eqn:Eg; [by rewrite Hget|].
    apply dict_get_None in Eg. exfalso. apply Eg, Hkeys. by right.
Qed.

Section WithDivision.

Context {F : Type} `{TrueDiv F}.

Lemma calculate_tf_map (doc_words : list string) :
  calculate_tf doc_words
  = (fun wc => (wc.1, truediv wc.2 (Z.of_nat (length doc_words))))
      <$> Counter doc_words.
Proof.
  unfold calculate_tf.
  rewrite (fold_dict_set_fresh (fun c => truediv c (Z.of_nat (length doc_words)))).
  - done.
  - simpl. apply Counter_spec.
Qed.

Lemma calculate_tf_keys (doc_words : list string) :
  (calculate_tf doc_words).*1 = (Counter doc_words).*1.
Proof.
  rewrite calculate_tf_map, <- list_fmap_compose. done.
Qed.

Lemma calculate_tf_get (doc_words : list string) w :
  w ∈ doc_words ->
  dict_get (calculate_tf doc_words) w
  = Some (truediv (occurrences w doc_words) (Z.of_nat (length doc_words))).
Proof.
  intros Hw. rewrite calculate_tf_map.
  rewrite (dict_get_fmap (fun c => truediv c (Z.of_nat (length doc_words)))).
  destruct (Counter_spec doc_words) as (_ & _ & Hget & _). by rewrite (Hget w Hw).
Qed.

End WithDivision.

Lemma sum_values_scaled (c : pydict Z) (n : Z) :
  (sum_values ((fun wc => (wc.1, truediv wc.2 n)) <$> c)
   == inject_Z (total c) / inject_Z n)%Q.
Proof.
  unfold sum_values. induction c as [|[w k] c IH].
  - change (0 == inject_Z 0 / inject_Z n)%Q. unfold Qdiv. ring.
  - change ((truediv k n
             + sum_list ((fun wc : string * Z => (wc.1, truediv wc.2 n)) <$> c).*2)
            == inject_Z (k + total c) / inject_Z n)%Q.
    rewrite IH. unfold truediv, Q_truediv. rewrite inject_Z_plus.
    unfold Qdiv. ring.
Qed.

Lemma sum_list_perm (l l' : list Q) : l ≡ₚ l' -> (sum_list l == sum_list l')%Q.
Proof.
  induction 1 as [|x l l' _ IH|x y l|l l' l'' _ IH1 _ IH2].
  - reflexivity.
  - change (x + sum_list l == x + sum_list l')%Q. by rewrite IH.
  - change (y + (x + sum_list l) == x + (y + sum_list l))%Q. ring.
  - by rewrite IH1.
Qed.

(** For a non-empty token list the frequencies that [calculate_tf] of
    indexing.py returns, one for each distinct term and each the count of
    the term divided by the number of tokens, sum to 1. *)
Lemma indexing_term_frequencies (doc_words : list string) :
  doc_words <> [] ->
  let tf := calculate_tf (F := Q) doc_words in
  (sum_values tf == 1)%Q /\
  NoDup tf.*1 /\
  (forall w, w ∈ tf.*1 <-> w ∈ doc_words) /\
  (forall w, w ∈ doc_words ->
     dict_get tf w
     = Some (inject_Z (occurrences w doc_words)
             / inject_Z (Z.of_nat (length doc_words)))%Q).
Proof.
  intros Hne tf. destruct (Counter_spec doc_words) as (Hnd & Hkeys & _ & Htot).
  split_and!.
  - unfold tf. rewrite calculate_tf_map, sum_values_scaled, Htot.
    apply Qmult_inv_r. destruct doc_words; [done|].
    unfold Qeq. simpl. lia.
  - unfold tf. by rewrite calculate_tf_keys.
  - intros w. unfold tf. by rewrite calculate_tf_keys.
  - intros w Hw. unfold tf. by rewrite calculate_tf_get.
Qed.

End CounterFacts.


(** ** indexing.py: inverse document frequencies *)

Section IdfFacts.

Import Indexing.

Lemma increment_spec (c : pydict Z) word :
  (NoDup c.*1 -> NoDup (increment c word).*1) /\
  (forall w, w ∈ (increment c word).*1 <-> w = word \/ w ∈ c.*1) /\
  (forall w, dict_get_default (increment c word) w 0
             = dict_get_default c w 0 + (if decide (w = word) then 1 else 0)).
Proof.
  unfold increment, defaultdict_getitem.
  destruct (dict_get c word) as [n|] eqn:Eg.
  - split_and!.
    + apply dict_set_nodup.
    + intros w. apply dict_set_keys.
    + intros w. case_decide as E.
      * subst. rewrite dict_get_default_set_eq. unfold dict_get_default. by rewrite Eg.
      * rewrite dict_get_default_set_ne by done. lia.
  - split_and!.
    + intros Hnd. by do 2 apply dict_set_nodup.
    + intros w. rewrite !dict_set_keys. tauto.
    + intros w. case_decide as E.
      * subst. rewrite dict_get_default_set_eq. unfold dict_get_default. by rewrite Eg.
      * rewrite !dict_get_default_set_ne by done. lia.
Qed.

Lemma increment_fold (l : list string) : forall c : pydict Z,
  NoDup l ->
  let r := fold_left increment l c in
  (NoDup c.*1 -> NoDup r.*1) /\
  (forall w, w ∈ r.*1 <-> w ∈ c.*1 \/ w ∈ l) /\
  (forall w, dict_get_default r w 0
             = dict_get_default c w 0 + (if decide (w ∈ l) then 1 else 0)).
Proof.
  induction l as [|x l IH]; intros c Hl; simpl.
  - split_and!; [done| |].
    + intros w. rewrite elem_of_nil. tauto.
    + intros w. lia.
  - apply NoDup_cons in Hl. destruct Hl as [Hx Hl].
    destruct (IH (increment c x) Hl) as (Hnd & Hkeys & Hget).
    destruct (increment_spec c x) as (Hnd1 & Hkeys1 & Hget1).
    split_and!.
    + auto.
    + intros w. rewrite Hkeys, Hkeys1, elem_of_cons. tauto.
    + intros w. rewrite Hget, Hget1.
      destruct (decide (w = x)) as [->|Hne].
      * rewrite (decide_False (P := x ∈ l)) by done.
        rewrite (decide_True (P := x ∈ x :: l)) by apply list_elem_of_here. lia.
      * destruct (decide (w ∈ l)) as [Hin|Hin].
        -- rewrite decide_True by by apply list_elem_of_further. lia.
        -- rewrite decide_False; [lia|]. rewrite elem_of_cons. tauto.
Qed.

Lemma count_document_spec (c : pydict Z) (doc_words : list string) :
  (NoDup c.*1 -> NoDup (count_document c doc_words).*1) /\
  (forall w, w ∈ (count_document c doc_words).*1 <-> w ∈ c.*1 \/ w ∈ doc_words) /\
  (forall w, dict_get_default (count_document c doc_words) w 0
             = dict_get_default c w 0 + (if decide (w ∈ doc_words) then 1 else 0)).
Proof.
  unfold count_document.
  destruct (increment_fold (elements (list_to_set doc_words : gset string)) c)
    as (Hnd & Hkeys & Hget); [apply NoDup_elements|].
  split_and!; [done| |].
  - intros w. rewrite Hkeys, elem_of_elements, elem_of_list_to_set. done.
  - intros w. rewrite Hget.
    destruct (decide (w ∈ doc_words)) as [Hin|Hin].
    + rewrite decide_True; [done|]. by rewrite elem_of_elements, elem_of_list_to_set.
    + rewrite decide_False; [done|]. by rewrite elem_of_elements, elem_of_list_to_set.
Qed.

Lemma document_frequency_cons w doc_words documents :
  document_frequency w (doc_words :: documents)
  = (if decide (w ∈ doc_words) then 1 else 0) + document_frequency w documents.
Proof.
  unfold document_frequency. rewrite filter_cons.
  case_decide; simpl length; lia.
Qed.

Lemma count_documents_spec (documents : list (list string)) : forall c : pydict Z,
  let r := fold_left count_document documents c in
  (NoDup c.*1 -> NoDup r.*1) /\
  (forall w, w ∈ r.*1 <->
     w ∈ c.*1 \/ exists doc_words, doc_words ∈ documents /\ w ∈ doc_words) /\
  (forall w, dict_get_default r w 0
             = dict_get_default c w 0 + document_frequency w documents).
Proof.
  induction documents as [|doc documents IH]; intros c; simpl.
  - split_and!; [done| |].
    + intros w. split; [auto|]. intros [?|(? & Hin & _)]; [done|].
      by apply elem_of_nil in Hin.
    + intros w. unfold document_frequency. simpl. lia.
  - destruct (IH (count_document c doc)) as (Hnd & Hkeys & Hget).
    destruct (count_document_spec c doc) as (Hnd1 & Hkeys1 & Hget1).
    split_and!.
    + auto.
    + intros w. rewrite Hkeys, Hkeys1. split.
      * intros [[?|?]|(d & Hd & Hw)]; [by left | right | right].
        -- exists doc. split; [apply list_elem_of_here | done].
        -- exists d. split; [by apply list_elem_of_further | done].
      * intros [?|(d & Hd & Hw)]; [by left; left|].
        apply elem_of_cons in Hd. destruct Hd as [->|Hd]; [by left; right|].
        right. by exists d.
    + intros w. rewrite Hget, Hget1, document_frequency_cons. lia.
Qed.

Section WithFloats.

Context {F : Type} `{FloatOps F}.

(** Every term of the corpus gets [idf_value] at the number of documents
    and at the number of documents that contain it. *)
Lemma calculate_idf_get (documents : list (list string)) term :
  (exists doc_words, doc_words ∈ documents /\ term ∈ doc_words) ->
  dict_get (calculate_idf documents) term
  = Some (idf_value (Z.of_nat (length documents)) (document_frequency term documents)).
Proof.
  intros Hterm. unfold calculate_idf.
  destruct (count_documents_spec documents []) as (Hnd & Hkeys & Hget).
  rewrite (fold_dict_set_fresh (fun n => idf_value (Z.of_nat (length documents)) n)).
  2:{ simpl. apply Hnd. constructor. }
  simpl.
  rewrite (dict_get_fmap (fun n => idf_value (Z.of_nat (length documents)) n)).
  specialize (Hget term). unfold dict_get_default in Hget. simpl in Hget.
  destruct (dict_get (fold_left count_document documents []) term) as [n|] eqn:Eg.
  - simpl. by rewrite Hget.
  - apply dict_get_None in Eg. exfalso. apply Eg, Hkeys. by right.
Qed.

Lemma calculate_idf_absent (documents : list (list string)) term :
  ~ (exists doc_words, doc_words ∈ documents /\ term ∈ doc_words) ->
  dict_get (calculate_idf documents) term = None.
Proof.
  intros Hterm. unfold calculate_idf.
  destruct (count_documents_spec documents []) as (Hnd & Hkeys & Hget).
  rewrite (fold_dict_set_fresh (fun n => idf_value (Z.of_nat (length documents)) n)).
  2:{ simpl. apply Hnd. constructor. }
  simpl.
  rewrite (dict_get_fmap (fun n => idf_value (Z.of_nat (length documents)) n)).
  destruct (dict_get (fold_left count_document documents []) term) as [n|] eqn:Eg;
    [|done].
  apply dict_get_elem in Eg. exfalso.
  assert (term ∈ (fold_left count_document documents []).*1) as Hin.
  { apply list_elem_of_fmap. by exists (term, n). }
  apply Hkeys in Hin. destruct Hin as [Hin|Hin]; [by apply elem_of_nil in Hin | done].
Qed.

End WithFloats.

(** C8. Over the reals [calculate_idf] gives every term of the corpus
    [ln(N / (1 + df))], [N] the number of documents and [df] the number of
    documents that contain the term; for a fixed positive [N] the value
    strictly decreases as [df] grows; and it is negative for a term that
    occurs in the only document of a corpus. *)
Theorem calculate_idf_formula :
  (forall (documents : list (list string)) term,
     (exists doc_words, doc_words ∈ documents /\ term ∈ doc_words) ->
     dict_get (calculate_idf (F := R) documents) term
     = Some (ln (IZR (Z.of_nat (length documents))
                 / IZR (1 + document_frequency term documents)))) /\
  (forall N df1 df2, 0 < N -> 0 <= df1 < df2 ->
     (idf_value (F := R) N df2 < idf_value (F := R) N df1)%R) /\
  (exists v, dict_get (calculate_idf (F := R) [["cat"%string]]) "cat"%string = Some v /\
     (v < 0)%R).
Proof.
  split_and!.
  - intros documents term Hterm. by rewrite calculate_idf_get.
  - intros N df1 df2 HN Hdf. unfold idf_value. simpl. unfold truediv, R_truediv.
    assert (0 < IZR N)%R as HNr by by apply IZR_lt.
    assert (0 < IZR (1 + df1))%R as H1 by (apply IZR_lt; lia).
    assert (0 < IZR (1 + df2))%R as H2 by (apply IZR_lt; lia).
    assert (IZR (1 + df1) < IZR (1 + df2))%R as Hlt by (apply IZR_lt; lia).
    apply ln_increasing.
    + apply Rdiv_lt_0_compat; done.
    + unfold Rdiv. apply Rmult_lt_compat_l; [done|].
      apply Rinv_lt_contravar; [|done]. by apply Rmult_lt_0_compat.
  - eexists. split.
    + rewrite calculate_idf_get.
      * reflexivity.
      * exists ["cat"%string]. split; apply list_elem_of_here.
    + unfold idf_value. simpl. unfold truediv, R_truediv.
      rewrite <- ln_1. apply ln_increasing.
      * apply Rdiv_lt_0_compat; apply IZR_lt; vm_compute; reflexivity.
      * change (document_frequency "cat" [["cat"%string]]) with 1.
        change (Z.of_nat 1) with 1. change (1 + 1) with 2. lra.
Qed.

End IdfFacts.

Lemma calculate_idf_formula_witness :
  dict_get (Indexing.calculate_idf (F := R) [["cat"; "mat"]; ["dog"]]%string) "dog"%string
  = Some (ln (IZR (Z.of_nat 2)
              / IZR (1 + Indexing.document_frequency "dog"
                                 [["cat"; "mat"]; ["dog"]]%string))).
Proof.
  apply (proj1 calculate_idf_formula [["cat"; "mat"]; ["dog"]]%string "dog"%string).
  exists ["dog"%string]. split.
  - apply list_elem_of_further, list_elem_of_here.
  - apply list_elem_of_here.
Defined.

(** ** indexing.py: rebuilding the index *)

Section RebuildFacts.

Context `{NLP} {F : Type} `{FloatOps F}.
Import Indexing.

(** The loop of [calculate_tfidf] when [tf] and [idf] bind every word. *)
Lemma calculate_tfidf_loop (tf idf : pydict F) (tfv idfv : string -> F)
    (words : list string) : forall acc : pydict F,
  (forall w, w ∈ words -> dict_get tf w = Some (tfv w)) ->
  (forall w, w ∈ words -> dict_get idf w = Some (idfv w)) ->
  exists r,
    for_each (fun tfidf word =>
                if dict_contains idf word then
                  t ← dict_getitem tf word;
                  i ← dict_getitem idf word;
                  Ok (dict_set tfidf word (fmul t i))
                else Ok tfidf) words acc = Ok r /\
    (NoDup acc.*1 -> NoDup r.*1) /\
    (forall t, dict_get r t
               = if decide (t ∈ words) then Some (fmul (tfv t) (idfv t))
                 else dict_get acc t).
Proof.
  induction words as [|x words IH]; intros acc Htf Hidf.
  - exists acc. split_and!; [done|done|]. intros t.
    rewrite decide_False; [done | apply not_elem_of_nil].
  - assert (x ∈ x :: words) as Hx by apply list_elem_of_here.
    destruct (IH (dict_set acc x (fmul (tfv x) (idfv x)))) as (r & Hrun & Hnd & Hget).
    { intros w Hw. apply Htf. by apply list_elem_of_further. }
    { intros w Hw. apply Hidf. by apply list_elem_of_further. }
    exists r. split_and!.
    + simpl. unfold dict_contains, dict_getitem.
      rewrite (Hidf x Hx), (Htf x Hx).
      rewrite bool_decide_eq_true_2 by by eexists. simpl. exact Hrun.
    + intros Hacc. by apply Hnd, dict_set_nodup.
    + intros t. rewrite Hget.
      destruct (decide (t ∈ words)) as [Hin|Hin].
      * rewrite decide_True; [done | by apply list_elem_of_further].
      * destruct (decide (t = x)) as [->|Hne].
        -- rewrite decide_True by done. apply dict_get_set_eq.
        -- rewrite decide_False.
           ++ by apply dict_get_set_ne.
           ++ rewrite elem_of_cons. tauto.
Qed.

(** The scores of a document of the corpus are those of the formulas. *)
Lemma calculate_tfidf_scores (corpus : list (list string)) (doc_words : list string) :
  doc_words ∈ corpus ->
  exists tfidf,
    calculate_tfidf doc_words (calculate_tf doc_words) (calculate_idf corpus)
    = Ok tfidf /\
    NoDup tfidf.*1 /\
    forall term, dict_get tfidf term = tfidf_score corpus doc_words term.
Proof.
  intros Hdoc. unfold calculate_tfidf.
  destruct (calculate_tfidf_loop (calculate_tf doc_words) (calculate_idf corpus)
              (fun w => truediv (occurrences w doc_words) (Z.of_nat (length doc_words)))
              (fun w => idf_value (Z.of_nat (length corpus)) (document_frequency w corpus))
              doc_words [])
    as (r & Hrun & Hnd & Hget).
  - intros w Hw. by apply calculate_tf_get.
  - intros w Hw. apply calculate_idf_get. by exists doc_words.
  - exists r. split; [done|]. split; [apply Hnd; constructor|].
    intros term. rewrite Hget. unfold tfidf_score. by case_decide.
Qed.

Lemma elem_of_important_terms threshold (tfidf : pydict F) term :
  NoDup tfidf.*1 ->
  term ∈ important_terms threshold tfidf <->
  exists score, dict_get tfidf term = Some score /\ fgt score threshold = true.
Proof.
  intros Hnd. unfold important_terms.
  rewrite elem_of_list_to_set, list_elem_of_fmap. split.
  - intros ([t s] & -> & Hin). apply list_elem_of_filter in Hin.
    destruct Hin as [Hgt Hin]. exists s. split; [|done]. by apply elem_dict_get.
  - intros (s & Hget & Hgt). exists (term, s). split; [done|].
    apply list_elem_of_filter. split; [done|]. by apply dict_get_elem.
Qed.

Lemma post_spec doc_id (idx : pydict (list string)) term t :
  dict_get_default (post doc_id idx term) t []
  = dict_get_default idx t [] ++ (if decide (t = term) then [doc_id] else []).
Proof.
  unfold post, defaultdict_getitem.
  destruct (dict_get idx term) as [posting|] eqn:Eg.
  - case_decide as E.
    + subst. rewrite dict_get_default_set_eq. unfold dict_get_default. by rewrite Eg.
    + rewrite dict_get_default_set_ne by done. by rewrite app_nil_r.
  - case_decide as E.
    + subst. rewrite dict_get_default_set_eq. unfold dict_get_default. by rewrite Eg.
    + rewrite !dict_get_default_set_ne by done. by rewrite app_nil_r.
Qed.

Lemma post_fold doc_id (terms : list string) : forall (idx : pydict (list string)) t,
  NoDup terms ->
  dict_get_default (fold_left (post doc_id) terms idx) t []
  = dict_get_default idx t [] ++ (if decide (t ∈ terms) then [doc_id] else []).
Proof.
  induction terms as [|x terms IH]; intros idx t Hnd; simpl.
  - by rewrite app_nil_r.
  - apply NoDup_cons in Hnd. destruct Hnd as [Hx Hnd].
    rewrite (IH _ _ Hnd), post_spec, <- app_assoc. f_equal.
    destruct (decide (t = x)) as [->|Hne].
    + rewrite (decide_False (P := x ∈ terms)) by done.
      by rewrite (decide_True (P := x ∈ x :: terms)) by apply list_elem_of_here.
    + simpl. destruct (decide (t ∈ terms)) as [Hin|Hin].
      * by rewrite decide_True by by apply list_elem_of_further.
      * rewrite decide_False; [done|]. rewrite elem_of_cons. tauto.
Qed.

(** The body of the second loop of [update_index] for one document. *)
Lemma index_document threshold (corpus : list (list string))
    (idx : pydict (list string)) (dc : string * string) :
  extract_nouns_and_entities dc.2 ∈ corpus ->
  exists idx',
    (tfidf ← calculate_tfidf (extract_nouns_and_entities dc.2)
               (calculate_tf (extract_nouns_and_entities dc.2)) (calculate_idf corpus);
     Ok (fold_left (post dc.1) (elements (important_terms threshold tfidf)) idx))
    = Ok idx' /\
    forall term,
      dict_get_default idx' term []
      = dict_get_default idx term []
        ++ (if significant threshold corpus (extract_nouns_and_entities dc.2) term
            then [dc.1] else []).
Proof.
  intros Hdoc.
  destruct (calculate_tfidf_scores corpus _ Hdoc) as (tfidf & -> & Hnd & Hget).
  eexists. split; [reflexivity|]. intros term.
  rewrite post_fold by apply NoDup_elements. f_equal.
  unfold significant. rewrite <- Hget.
  destruct (decide (term ∈ elements (important_terms threshold tfidf))) as [Hin|Hin];
    rewrite elem_of_elements, elem_of_important_terms in Hin by done.
  - destruct Hin as (s & -> & ->). done.
  - destruct (dict_get tfidf term) as [s|]; [|done].
    destruct (fgt s threshold) eqn:Egt; [|done].
    exfalso. apply Hin. by exists s.
Qed.

Lemma index_documents threshold (corpus : list (list string))
    (docs : pydict string) : forall idx : pydict (list string),
  (forall dc, dc ∈ docs -> extract_nouns_and_entities dc.2 ∈ corpus) ->
  exists idx',
    for_each (fun idx dc =>
                tfidf ← calculate_tfidf (extract_nouns_and_entities dc.2)
                          (calculate_tf (extract_nouns_and_entities dc.2))
                          (calculate_idf corpus);
                Ok (fold_left (post dc.1) (elements (important_terms threshold tfidf)) idx))
      docs idx = Ok idx' /\
    forall term,
      dict_get_default idx' term []
      = dict_get_default idx term []
        ++ (filter (fun dc => significant threshold corpus
                                (extract_nouns_and_entities dc.2) term = true) docs).*1.
Proof.
  induction docs as [|dc docs IH]; intros idx Hcorpus.
  - exists idx. split; [done|]. intros term. simpl. by rewrite app_nil_r.
  - destruct (index_document threshold corpus idx dc) as (idx1 & Hone & Hget1).
    { apply Hcorpus, list_elem_of_here. }
    destruct (IH idx1) as (idx' & Hrun & Hget).
    { intros dc' Hin. by apply Hcorpus, list_elem_of_further. }
    exists idx'. split.
    + simpl. simpl in Hone. rewrite Hone. simpl. exact Hrun.
    + intros term. rewrite Hget, Hget1, <- app_assoc. f_equal.
      rewrite filter_cons.
      destruct (significant threshold corpus (extract_nouns_and_entities dc.2) term);
        [rewrite decide_True by done | rewrite decide_False by done]; done.
Qed.

(** [update_index] of indexing.py returns; afterwards the posting list of
    every term is the list of the documents, in the order of the document
    store, in which the score of the term exceeds the threshold, and a
    second rebuild of the unchanged corpus gives the same index. *)
Lemma indexing_update_index (threshold : F) (e : SearchEngine) :
  exists e',
    update_index threshold e = Ok e' /\
    documents e' = documents e /\
    (forall term,
       dict_get_default (index e') term []
       = (filter (fun dc =>
                    significant threshold
                      ((fun dc => extract_nouns_and_entities dc.2) <$> documents e)
                      (extract_nouns_and_entities dc.2) term = true)
            (documents e)).*1) /\
    update_index threshold e' = Ok e'.
Proof.
  destruct (index_documents threshold
              ((fun dc => extract_nouns_and_entities dc.2) <$> documents e)
              (documents e) [])
    as (idx & Hrun & Hget).
  { intros dc Hin. apply list_elem_of_fmap. by exists dc. }
  exists {| index := idx; documents := documents e |}.
  assert (update_index threshold e = Ok {| index := idx; documents := documents e |})
    as Hup.
  { unfold update_index. rewrite Hrun. done. }
  split_and!; [done | done | | ].
  - intros term. simpl. by rewrite Hget.
  - rewrite <- Hup. reflexivity.
Qed.

End RebuildFacts.

(** ** The default-valued container *)

Section DefaultDictFacts.

Context `{PyHash} {V : Type}.
Implicit Types (d : CustomDefaultDict V) (k : key).

Lemma default_getitem_present depth d k v :
  wf (table d) -> to_map (table d) !! k = Some v ->
  default_getitem depth d k = Ok (v, d).
Proof.
  intros Hwf Hk. destruct depth; simpl; by rewrite (getitem_to_map _ k Hwf), Hk.
Qed.

(** A miss with a factory stores what the factory builds and returns it. *)
Lemma default_getitem_absent depth d k made :
  wf (table d) -> load_ok (table d) -> default_factory d = Some made ->
  to_map (table d) !! k = None ->
  exists t, default_getitem (S depth) d k
            = Ok (made, {| table := t; default_factory := default_factory d |}) /\
    wf t /\ load_ok t /\ to_map t = <[k := made]> (to_map (table d)).
Proof.
  intros Hwf Hload Hf Hk.
  destruct (setitem_spec depth (table d) k made Hwf Hload)
    as (t & Hset & Hwf' & Hl' & Hm' & _).
  exists t. split; [|done].
  simpl. rewrite (getitem_to_map _ k Hwf), Hk, Hf.
  simpl in Hset. simpl. rewrite Hset. simpl.
  apply default_getitem_present; simpl; [done|].
  by rewrite Hm', lookup_insert_eq.
Qed.

End DefaultDictFacts.

(** ** Indexing_App.py: the semantic phase *)

Section AppFacts.

Context `{PyHash} `{NLP}.
Import IndexingApp.

Implicit Types (idx : CustomDefaultDict (list key)).

(** Reading the postings of a term returns them and keeps every posting
    set, although a missing term is entered with an empty list. *)
Lemma postings_spec depth idx term :
  index_ok idx ->
  exists idx', postings (S depth) idx term = Ok (posting_set idx term, idx') /\
    index_ok idx' /\ (forall t, posting_set idx' t = posting_set idx t) /\
    is_Some (to_map (table idx') !! KStr term) /\
    index_grows idx idx'.
Proof.
  intros (Hwf & Hload & Hf). unfold postings, default_get, posting_set, index_grows.
  destruct (to_map (table idx) !! KStr term) as [posting|] eqn:Ek.
  - exists idx. rewrite (default_getitem_present (S depth) idx _ posting Hwf Ek).
    split_and!; [done | done | done | by rewrite Ek | done].
  - destruct (default_getitem_absent depth idx (KStr term) [] Hwf Hload Hf Ek)
      as (t & -> & Hwf' & Hl' & Hm').
    eexists. split; [reflexivity|]. split; [done|]. simpl. split_and!.
    + intros t0. rewrite Hm'.
      destruct (decide (t0 = term)) as [->|Hne].
      * by rewrite lookup_insert_eq, Ek.
      * rewrite lookup_insert_ne; [done|]. by intros [= ->].
    + by rewrite Hm', lookup_insert_eq.
    + intros k Hk. rewrite Hm'. destruct (decide (KStr term = k)) as [<-|Hne].
      * by rewrite lookup_insert_eq.
      * by rewrite lookup_insert_ne.
Qed.

Lemma index_grows_trans idx1 idx2 idx3 :
  index_grows idx1 idx2 -> index_grows idx2 idx3 -> index_grows idx1 idx3.
Proof. unfold index_grows. auto. Qed.

Lemma synonyms_loop depth idx0 (synonyms : list string) :
  forall (acc : gset key * CustomDefaultDict (list key)),
  index_ok acc.2 -> (forall t, posting_set acc.2 t = posting_set idx0 t) ->
  exists idx',
    for_each (fun acc synonym =>
                '(more, idx') ← postings (S depth) acc.2 synonym;
                Ok (acc.1 ∪ more, idx')) synonyms acc
    = Ok (acc.1 ∪ ⋃ (posting_set idx0 <$> synonyms), idx') /\
    index_ok idx' /\ (forall t, posting_set idx' t = posting_set idx0 t) /\
    index_grows acc.2 idx'.
Proof.
  induction synonyms as [|s synonyms IH]; intros [docs idx] Hok Hsame; simpl in *.
  - exists idx. rewrite (right_id_L ∅ (∪)). split_and!; try done. by intros k.
  - destruct (postings_spec depth idx s Hok) as (idx1 & -> & Hok1 & Hsame1 & _ & Hg1).
    simpl.
    destruct (IH (docs ∪ posting_set idx s, idx1))
      as (idx' & Hrun & Hok' & Hsame' & Hg').
    { done. }
    { intros t. simpl. by rewrite Hsame1. }
    exists idx'. simpl in Hrun. rewrite Hrun. split_and!; [|done|done|].
    + by rewrite Hsame, (assoc_L (∪)).
    + by apply (index_grows_trans idx idx1 idx').
Qed.

Lemma group_docs_spec depth idx noun synonyms :
  index_ok idx ->
  exists idx', group_docs (S depth) idx noun synonyms
               = Ok (group_set idx noun synonyms, idx') /\
    index_ok idx' /\ (forall t, posting_set idx' t = posting_set idx t) /\
    is_Some (to_map (table idx') !! KStr noun) /\
    index_grows idx idx'.
Proof.
  intros Hok. unfold group_docs.
  destruct (postings_spec depth idx noun Hok)
    as (idx1 & -> & Hok1 & Hsame1 & Hin1 & Hg1). simpl.
  destruct (synonyms_loop depth idx synonyms (posting_set idx noun, idx1) Hok1 Hsame1)
    as (idx' & Hrun & Hok' & Hsame' & Hg').
  exists idx'. rewrite Hrun. split_and!; [done | done | done | by apply Hg' |].
  by apply (index_grows_trans idx idx1 idx').
Qed.

Lemma group_set_same idx idx' noun synonyms :
  (forall t, posting_set idx' t = posting_set idx t) ->
  group_set idx' noun synonyms = group_set idx noun synonyms.
Proof.
  intros Hsame. unfold group_set. rewrite Hsame. f_equal. f_equal.
  apply list_fmap_ext. intros ? t _. apply Hsame.
Qed.

Lemma groups_loop depth idx0 (rest : pydict (list string)) :
  forall (acc : gset key * CustomDefaultDict (list key)),
  index_ok acc.2 -> (forall t, posting_set acc.2 t = posting_set idx0 t) ->
  exists found idx',
    for_each (fun acc ns =>
                '(current_docs, idx') ← group_docs (S depth) acc.2 ns.1 ns.2;
                Ok (acc.1 ∩ current_docs, idx')) rest acc
    = Ok (found, idx') /\
    index_ok idx' /\ (forall t, posting_set idx' t = posting_set idx0 t) /\
    (forall d, d ∈ found <->
       d ∈ acc.1 /\ forall noun synonyms, (noun, synonyms) ∈ rest ->
                     d ∈ group_set idx0 noun synonyms) /\
    index_grows acc.2 idx' /\
    (forall noun synonyms, (noun, synonyms) ∈ rest ->
       is_Some (to_map (table idx') !! KStr noun)).
Proof.
  induction rest as [|[noun synonyms] rest IH]; intros [docs idx] Hok Hsame; simpl in *.
  - exists docs, idx. split_and!; [done | done | done | | by intros k |].
    + intros d. split; [|tauto].
      intros Hd. split; [done|]. intros ? ? Hin. by apply elem_of_nil in Hin.
    + intros ? ? Hin. by apply elem_of_nil in Hin.
  - destruct (group_docs_spec depth idx noun synonyms Hok)
      as (idx1 & -> & Hok1 & Hsame1 & Hin1 & Hg1).
    simpl.
    destruct (IH (docs ∩ group_set idx noun synonyms, idx1))
      as (found & idx' & Hrun & Hok' & Hsame' & Hfound & Hg' & Hin').
    { done. }
    { intros t. simpl. by rewrite Hsame1. }
    exists found, idx'. simpl in Hrun. rewrite Hrun. split_and!; [done | done | done | | |].
    + intros d. rewrite Hfound. simpl. rewrite elem_of_intersection.
      rewrite (group_set_same idx0 idx noun synonyms Hsame). split.
      * intros [[Hd Hg] Hrest]. split; [done|]. intros n s Hin.
        apply elem_of_cons in Hin. destruct Hin as [[= -> ->]|Hin]; [done | by apply Hrest].
      * intros [Hd Hall]. split; [split; [done|] |].
        -- apply Hall, list_elem_of_here.
        -- intros n s Hin. by apply Hall, list_elem_of_further.
    + by apply (index_grows_trans idx idx1 idx').
    + intros n s Hin. apply elem_of_cons in Hin. destruct Hin as [[= -> ->]|Hin].
      * by apply Hg'.
      * by apply (Hin' n s).
Qed.

Lemma elem_of_expand_single noun t :
  t ∈ Indexing.expand_query_with_synonyms [noun] <->
  t = noun \/ t ∈ Indexing.get_synonyms noun.
Proof.
  unfold Indexing.expand_query_with_synonyms. simpl.
  rewrite elem_of_elements, !elem_of_union, elem_of_singleton, elem_of_empty.
  tauto.
Qed.

Lemma expand_nouns_fold (nouns : list string) : forall acc : pydict (list string),
  NoDup acc.*1 ->
  let r := fold_left (fun expanded noun =>
                        dict_set expanded noun
                          (Indexing.expand_query_with_synonyms [noun])) nouns acc in
  NoDup r.*1 /\
  forall n, dict_get r n
            = if decide (n ∈ nouns)
              then Some (Indexing.expand_query_with_synonyms [n])
              else dict_get acc n.
Proof.
  induction nouns as [|x nouns IH]; intros acc Hnd; simpl.
  - done.
  - destruct (IH (dict_set acc x (Indexing.expand_query_with_synonyms [x])))
      as (Hnd' & Hget); [by apply dict_set_nodup|].
    split; [done|]. intros n. rewrite Hget.
    destruct (decide (n ∈ nouns)) as [Hin|Hin].
    + by rewrite decide_True by by apply list_elem_of_further.
    + destruct (decide (n = x)) as [->|Hne].
      * rewrite decide_True by apply list_elem_of_here. apply dict_get_set_eq.
      * rewrite decide_False; [by apply dict_get_set_ne|].
        rewrite elem_of_cons. tauto.
Qed.

Lemma elem_of_expand_nouns nouns n syns :
  (n, syns) ∈ expand_nouns nouns <->
  n ∈ nouns /\ syns = Indexing.expand_query_with_synonyms [n].
Proof.
  destruct (expand_nouns_fold nouns []) as (Hnd & Hget); [constructor|].
  fold (expand_nouns nouns) in Hnd, Hget. split.
  - intros Hin. apply (elem_dict_get _ _ _ Hnd) in Hin. rewrite Hget in Hin.
    case_decide; [|done]. by injection Hin as <-.
  - intros [Hin ->]. apply dict_get_elem. rewrite Hget. by rewrite decide_True.
Qed.

Lemma elem_of_group_set idx noun d :
  d ∈ group_set idx noun (Indexing.expand_query_with_synonyms [noun]) <->
  exists t, (t = noun \/ t ∈ Indexing.get_synonyms noun) /\ d ∈ posting_set idx t.
Proof.
  unfold group_set. rewrite elem_of_union, elem_of_union_list. split.
  - intros [Hd|(X & HX & Hd)].
    + exists noun. auto.
    + apply list_elem_of_fmap in HX. destruct HX as (t & -> & Ht).
      exists t. split; [by apply elem_of_expand_single | done].
  - intros (t & Ht & Hd). right. exists (posting_set idx t). split; [|done].
    apply list_elem_of_fmap. exists t. split; [done|]. by apply elem_of_expand_single.
Qed.

(** The semantic phase of Indexing_App.py: the documents listed, for every
    noun of the query, under the noun or one of its synonyms; nothing when
    the query has no noun. *)
Lemma app_semantic_phase depth (e : SearchEngine) query :
  index_ok (index e) -> phrase_matches e query = ∅ ->
  exists found e',
    search_by_content (S depth) e query = Ok (found, e') /\
    documents e' = documents e /\
    (forall t, posting_set (index e') t = posting_set (index e) t) /\
    (forall d, d ∈ found <->
       Indexing.query_nouns query <> [] /\
       forall noun, noun ∈ Indexing.query_nouns query ->
         exists t, (t = noun \/ t ∈ Indexing.get_synonyms noun) /\
                   d ∈ posting_set (index e) t) /\
    index_grows (index e) (index e') /\
    (forall noun, noun ∈ Indexing.query_nouns query ->
       is_Some (to_map (table (index e')) !! KStr noun)).
Proof.
  intros Hok Hno. unfold search_by_content. rewrite Hno, decide_True by done.
  destruct (expand_nouns (Indexing.query_nouns query))
    as [|[first_noun synonyms] rest] eqn:Ex.
  - assert (Indexing.query_nouns query = []) as Hnil.
    { destruct (Indexing.query_nouns query) as [|n l]; [done|]. exfalso.
      assert ((n, Indexing.expand_query_with_synonyms [n]) ∈ expand_nouns (n :: l))
        as Hin.
      { apply elem_of_expand_nouns. split; [apply list_elem_of_here | done]. }
      rewrite Ex in Hin. by apply elem_of_nil in Hin. }
    exists ∅, e. split_and!; [done | done | done | | by intros k |].
    + intros d. split; [by intros ?%not_elem_of_empty|]. by intros [Hne _].
    + intros noun Hin. rewrite Hnil in Hin. by apply elem_of_nil in Hin.
  - destruct (group_docs_spec depth (index e) first_noun synonyms Hok)
      as (idx1 & -> & Hok1 & Hsame1 & Hin1 & Hg1). simpl.
    destruct (groups_loop depth (index e) rest (group_set (index e) first_noun synonyms, idx1)
                Hok1 Hsame1) as (found & idx' & Hrun & _ & Hsame' & Hfound & Hg' & Hin').
    simpl in Hrun, Hg'. rewrite Hrun. simpl.
    assert (forall noun, noun ∈ Indexing.query_nouns query ->
              (noun, Indexing.expand_query_with_synonyms [noun])
              ∈ (first_noun, synonyms) :: rest) as Hmem.
    { intros noun Hnoun. rewrite <- Ex. by apply elem_of_expand_nouns. }
    eexists found, _. split; [reflexivity|]. split_and!; [done | done | | | ].
    + intros d. rewrite Hfound. simpl. split.
      * intros [Hfirst Hrest]. split.
        { intros Hnil. rewrite Hnil in Ex. done. }
        intros noun Hnoun. apply elem_of_group_set.
        specialize (Hmem noun Hnoun). apply elem_of_cons in Hmem.
        destruct Hmem as [[= <- <-]|Hin]; [done | by apply Hrest].
      * intros [_ Hall].
        assert (forall n s, (n, s) ∈ expand_nouns (Indexing.query_nouns query) ->
                  d ∈ group_set (index e) n s) as Hgroups.
        { intros n s Hin. apply elem_of_expand_nouns in Hin. destruct Hin as [Hn ->].
          apply elem_of_group_set. by apply Hall. }
        rewrite Ex in Hgroups. split.
        -- apply Hgroups, list_elem_of_here.
        -- intros n s Hin. by apply Hgroups, list_elem_of_further.
    + simpl. by apply (index_grows_trans (index e) idx1 idx').
    + intros noun Hnoun. simpl. specialize (Hmem noun Hnoun).
      apply elem_of_cons in Hmem. destruct Hmem as [[= <- <-]|Hin].
      * by apply Hg'.
      * by apply (Hin' noun _ Hin).
Qed.

(** What a content query of Indexing_App.py does to the index when no
    document phrase-matches: every noun of the query is a term afterwards,
    so a noun the index did not list has been entered; no term leaves and
    every posting set stays. *)
Lemma search_by_content_index_effect depth (e : SearchEngine) query noun :
  index_ok (index e) -> phrase_matches e query = ∅ ->
  noun ∈ Indexing.query_nouns query ->
  __contains__ (table (index e)) (KStr noun) = Ok false ->
  exists found e',
    search_by_content (S depth) e query = Ok (found, e') /\
    __contains__ (table (index e')) (KStr noun) = Ok true /\
    index_grows (index e) (index e') /\
    (forall t, posting_set (index e') t = posting_set (index e) t) /\
    documents e' = documents e.
Proof.
  intros Hok Hno Hnoun Habsent.
  destruct (app_semantic_phase depth e query Hok Hno)
    as (found & e' & Hrun & Hdocs & Hsame & _ & Hgrows & Hin).
  exists found, e'. split_and!; try done.
  destruct (Hin noun Hnoun) as [posting Hp].
  assert (wf (table (index e'))) as Hwf'.
  { destruct Hok as (Hwf & Hload & Hf).
    unfold search_by_content in Hrun. rewrite Hno, decide_True in Hrun by done.
    destruct (expand_nouns (Indexing.query_nouns query)) as [|[n0 s0] rest];
      [by injection Hrun as _ <-|].
    destruct (group_docs_spec depth (index e) n0 s0 (conj Hwf (conj Hload Hf)))
      as (idx1 & Hg & Hok1 & Hsame1 & _).
    rewrite Hg in Hrun. simpl in Hrun.
    destruct (groups_loop depth (index e) rest (group_set (index e) n0 s0, idx1)
                Hok1 Hsame1) as (f0 & idx' & Hloop & (Hwf0 & _) & _).
    simpl in Hloop. rewrite Hloop in Hrun. simpl in Hrun. by injection Hrun as _ <-. }
  unfold __contains__. by rewrite (getitem_to_map _ _ Hwf'), Hp.
Qed.

End AppFacts.

(** ** The semantic phase of the two resolvers *)

Section SemanticFacts.

Context `{PyHash} `{NLP}.

Lemma noun_matching_loop (idx : pydict (list string)) (others : list string) :
  forall (acc : gset string) d,
  d ∈ fold_left (fun docs token =>
                   if dict_contains idx token
                   then docs ∩ list_to_set (dict_get_default idx token [])
                   else docs) others acc <->
  d ∈ acc /\ forall t, t ∈ others -> dict_contains idx t = true ->
              d ∈ (list_to_set (dict_get_default idx t []) : gset string).
Proof.
  induction others as [|x others IH]; intros acc d; simpl.
  - split; [|tauto]. intros Hd. split; [done|]. intros t Ht. by apply elem_of_nil in Ht.
  - rewrite IH. destruct (dict_contains idx x) eqn:Ex.
    + rewrite elem_of_intersection. split.
      * intros [[Hd Hx] Hrest]. split; [done|]. intros t Ht Hc.
        apply elem_of_cons in Ht. destruct Ht as [->|Ht]; [done | by apply Hrest].
      * intros [Hd Hall]. split; [split; [done|] |].
        -- apply Hall; [apply list_elem_of_here | done].
        -- intros t Ht. apply Hall. by apply list_elem_of_further.
    + split.
      * intros [Hd Hrest]. split; [done|]. intros t Ht Hc.
        apply elem_of_cons in Ht. destruct Ht as [->|Ht]; [congruence | by apply Hrest].
      * intros [Hd Hall]. split; [done|]. intros t Ht. apply Hall.
        by apply list_elem_of_further.
Qed.

Lemma elem_of_substring_matches (e : Indexing.SearchEngine) query d :
  d ∈ Indexing.substring_matches e query <->
  exists content, (d, content) ∈ Indexing.documents e /\
    forall token, token ∈ word_tokenize (lower query) ->
      str_in (lower token) (lower content) = true.
Proof.
  unfold Indexing.substring_matches, Indexing.contains_all.
  rewrite elem_of_list_to_set, list_elem_of_fmap. split.
  - intros ([id content] & -> & Hin). apply list_elem_of_filter in Hin.
    destruct Hin as [Hall Hin]. exists content. split; [done|].
    intros token Ht. simpl in Hall. rewrite forallb_forall in Hall.
    by apply Hall, list_elem_of_In.
  - intros (content & Hin & Hall). exists (d, content). split; [done|].
    apply list_elem_of_filter. split; [|done]. simpl. apply forallb_forall.
    intros token Ht. by apply Hall, list_elem_of_In.
Qed.


End SemanticFacts.

Lemma app_corpus_index_ok : IndexingApp.index_ok (H := int_hash) (IndexingApp.index app_corpus).
Proof.
  split; [|split].
  - apply wf_init. lia.
  - apply load_ok_init. lia.
  - reflexivity.
Qed.



(** C9 fails on Indexing_App.py. A content query for a noun that the
    index does not list returns no document and leaves the noun in the
    index with an empty posting list: [get] reaches the overriding
    [__getitem__], which stores what the factory builds. *)
Lemma search_by_content_enters_terms :
  exists e',
    IndexingApp.search_by_content (H := int_hash) (H0 := toy_nlp) 1 app_corpus "dog"
    = Ok (∅, e') /\
    IndexingApp.documents e' = IndexingApp.documents app_corpus /\
    keys (table (IndexingApp.index app_corpus)) = [] /\
    keys (table (IndexingApp.index e')) = [KStr "dog"] /\
    __len__ (table (IndexingApp.index e')) = 1 /\
    __getitem__ (H := int_hash) (table (IndexingApp.index app_corpus)) (KStr "dog")
    = Raise (KeyError (KStr "dog")) /\
    __getitem__ (H := int_hash) (table (IndexingApp.index e')) (KStr "dog") = Ok [].
Proof.
  eexists. split; [vm_compute; reflexivity|].
  repeat split; vm_compute; reflexivity.
Qed.

(** ** Strings *)

Section StringFacts.

Lemma append_cons a (s t : string) :
  String.append (String a s) t = String a (String.append s t).
Proof. reflexivity. Qed.

Lemma prefix_cons a b (needle hay : string) :
  String.prefix (String a needle) (String b hay)
  = (if ascii_dec a b then String.prefix needle hay else false).
Proof. reflexivity. Qed.

Lemma prefix_spec (needle hay : string) :
  String.prefix needle hay = true <-> exists post, hay = String.append needle post.
Proof.
  revert hay. induction needle as [|a needle IH]; intros hay.
  - split; [intros _; by exists hay | by destruct hay].
  - destruct hay as [|b hay].
    + split; [done | by intros (post & [=])].
    + rewrite prefix_cons. destruct (ascii_dec a b) as [->|Hne].
      * rewrite IH. split.
        -- intros (post & ->). by exists post.
        -- intros (post & Heq). rewrite append_cons in Heq.
           injection Heq as ->. by exists post.
      * split; [done|]. intros (post & Heq). rewrite append_cons in Heq.
        injection Heq as ? ?. by subst.
Qed.

(** [str_in] is Python's substring test. *)
Lemma str_in_spec (needle hay : string) :
  str_in needle hay = true <->
  exists pre post, hay = String.append pre (String.append needle post).
Proof.
  induction hay as [|b hay IH].
  - change (str_in needle EmptyString) with (String.prefix needle EmptyString || false).
    rewrite orb_false_r, prefix_spec. split.
    + intros (post & ->). by exists EmptyString, post.
    + intros ([|c pre] & post & Heq); [by exists post | done].
  - change (str_in needle (String b hay))
      with (String.prefix needle (String b hay) || str_in needle hay).
    rewrite orb_true_iff, prefix_spec, IH. split.
    + intros [(post & ->)|(pre & post & ->)].
      * by exists EmptyString, post.
      * by exists (String b pre), post.
    + intros ([|c pre] & post & Heq).
      * left. by exists post.
      * right. rewrite append_cons in Heq. injection Heq as -> ->.
        by exists pre, post.
Qed.

End StringFacts.

(** ** The custom containers against the built-in ones *)

Section RefineFacts.

Context `{PyHash} {V : Type}.
Implicit Types (t : CustomDictionary V) (d : list (string * V)).

Lemma entries_lookup_str d w :
  (list_to_map (key_of_entry <$> d) : gmap key V) !! KStr w = dict_get d w.
Proof.
  induction d as [|[w' v'] d IH]; simpl; [done|].
  case_decide as E.
  - subst. by rewrite lookup_insert_eq.
  - rewrite lookup_insert_ne; [done|]. by intros [= ->].
Qed.

Lemma entries_lookup_int d n :
  (list_to_map (key_of_entry <$> d) : gmap key V) !! KInt n = None.
Proof.
  induction d as [|[w' v'] d IH]; simpl; [done|]. by rewrite lookup_insert_ne.
Qed.

Lemma entries_set d w v :
  (list_to_map (key_of_entry <$> dict_set d w v) : gmap key V)
  = <[KStr w := v]> (list_to_map (key_of_entry <$> d)).
Proof.
  apply map_eq. intros [w'|n].
  - rewrite entries_lookup_str. destruct (decide (w = w')) as [->|Hne].
    + by rewrite dict_get_set_eq, lookup_insert_eq.
    + rewrite dict_get_set_ne by done.
      rewrite lookup_insert_ne; [by rewrite entries_lookup_str|]. by intros [= ->].
  - rewrite entries_lookup_int, lookup_insert_ne; [by rewrite entries_lookup_int|done].
Qed.

Lemma entries_nodup d : NoDup d.*1 -> NoDup (key_of_entry <$> d).*1.
Proof.
  intros Hnd. rewrite <- list_fmap_compose.
  replace (fst ∘ key_of_entry) with (KStr ∘ (fst : string * V -> string)) by done.
  rewrite list_fmap_compose. apply NoDup_fmap_2; [|done]. by intros ? ? [= ->].
Qed.

Lemma refines_init c : 0 < c -> refines (__init__ c : CustomDictionary V) [].
Proof.
  intros Hc. split_and!; [by apply wf_init | by apply load_ok_init | constructor |].
  apply to_map_init.
Qed.

Lemma refines_set depth t d w v :
  refines t d ->
  exists t', __setitem__ (S depth) t (KStr w) v = Ok t' /\ refines t' (dict_set d w v).
Proof.
  intros (Hwf & Hload & Hnd & Hm).
  destruct (setitem_spec depth t (KStr w) v Hwf Hload) as (t' & Hset & Hwf' & Hl' & Hm' & _).
  exists t'. split; [done|]. split_and!; [done | done | by apply dict_set_nodup |].
  by rewrite Hm', Hm, entries_set.
Qed.

Lemma refines_getitem t d w :
  refines t d -> __getitem__ t (KStr w) = dict_getitem d w.
Proof.
  intros (Hwf & _ & _ & Hm). rewrite (getitem_to_map t _ Hwf), Hm, entries_lookup_str.
  done.
Qed.

Lemma refines_contains t d w :
  refines t d -> __contains__ t (KStr w) = Ok (dict_contains d w).
Proof.
  intros Href. unfold __contains__, dict_contains.
  rewrite (refines_getitem t d w Href). unfold dict_getitem.
  destruct (dict_get d w).
  - by rewrite bool_decide_eq_true_2.
  - rewrite bool_decide_eq_false_2; [done|]. by intros [? ?].
Qed.

Lemma refines_items t d : refines t d -> items t ≡ₚ key_of_entry <$> d.
Proof.
  intros (Hwf & _ & Hnd & Hm). apply (list_to_map_inj (M := gmap key)).
  - apply (wf_nodup _ Hwf).
  - by apply entries_nodup.
  - exact Hm.
Qed.

(** A loop of [self[word] = f(x)] against the same loop on a dict. *)
Lemma refines_set_loop {A} depth (f : A -> V) (l : list (string * A)) : forall t d,
  refines t d ->
  exists t',
    for_each (fun tb wc => __setitem__ (S depth) tb (KStr wc.1) (f wc.2)) l t = Ok t' /\
    refines t' (fold_left (fun acc wc => dict_set acc wc.1 (f wc.2)) l d).
Proof.
  induction l as [|[w a] l IH]; intros t d Href.
  - by exists t.
  - destruct (refines_set depth t d w (f a) Href) as (t1 & Hset & Href1).
    rewrite (for_each_step _ (w, a) l t t1 Hset). apply IH, Href1.
Qed.

(** A miss or a hit of the default-valued container against
    [defaultdict.__getitem__]. *)
Lemma refines_default_getitem depth (dd : CustomDefaultDict V) d w made :
  refines (table dd) d -> default_factory dd = Some made ->
  exists t',
    default_getitem (S depth) dd (KStr w)
    = Ok ((defaultdict_getitem made d w).1,
          {| table := t'; default_factory := default_factory dd |}) /\
    refines t' (defaultdict_getitem made d w).2.
Proof.
  intros Href Hf. pose proof Href as (Hwf & Hload & Hnd & Hm).
  unfold defaultdict_getitem.
  destruct (dict_get d w) as [v|] eqn:Eg.
  - exists (table dd). split; [|done].
    rewrite (default_getitem_present (S depth) dd (KStr w) v Hwf).
    + by destruct dd.
    + by rewrite Hm, entries_lookup_str.
  - destruct (default_getitem_absent depth dd (KStr w) made Hwf Hload Hf)
      as (t' & Hget & Hwf' & Hl' & Hm').
    { by rewrite Hm, entries_lookup_str. }
    exists t'. split; [done|]. simpl.
    split_and!; [done | done | by apply dict_set_nodup |].
    by rewrite Hm', Hm, entries_set.
Qed.

End RefineFacts.

(** ** Indexing_App.py: the weighting over the custom containers *)

Section AppWeightFacts.

Context `{PyHash} {F : Type}.

Lemma app_calculate_tf_refines `{TrueDiv F} depth (doc_words : list string) :
  exists tf, IndexingApp.calculate_tf (S depth) doc_words = Ok tf /\
    refines tf (Indexing.calculate_tf doc_words).
Proof.
  unfold IndexingApp.calculate_tf, Indexing.calculate_tf.
  apply (refines_set_loop depth
           (fun c => truediv c (Z.of_nat (length doc_words)))).
  apply refines_init. lia.
Qed.

Lemma app_increment_refines depth (c : CustomDefaultDict Z) (d : pydict Z) w :
  refines (table c) d -> default_factory c = Some 0 ->
  exists c', IndexingApp.increment (S depth) c w = Ok c' /\
    default_factory c' = Some 0 /\
    refines (table c') (Indexing.increment d w).
Proof.
  intros Href Hf. unfold IndexingApp.increment, Indexing.increment.
  destruct (refines_default_getitem depth c d w 0 Href Hf) as (t1 & -> & Href1).
  destruct (defaultdict_getitem 0 d w) as [n d1]. simpl in Href1.
  destruct (refines_set depth t1 d1 w (n + 1) Href1) as (t2 & Hset & Href2).
  exists {| table := t2; default_factory := default_factory c |}.
  split; [|done].
  change (default_setitem (S depth)
            {| table := t1; default_factory := default_factory c |} (KStr w) (n + 1)
          = Ok {| table := t2; default_factory := default_factory c |}).
  unfold default_setitem.
  change (table {| table := t1; default_factory := default_factory c |}) with t1.
  by rewrite Hset.
Qed.

Lemma app_increment_loop depth (words : list string) :
  forall (c : CustomDefaultDict Z) (d : pydict Z),
  refines (table c) d -> default_factory c = Some 0 ->
  exists c', for_each (IndexingApp.increment (S depth)) words c = Ok c' /\
    default_factory c' = Some 0 /\
    refines (table c') (fold_left Indexing.increment words d).
Proof.
  induction words as [|w words IH]; intros c d Href Hf.
  - by exists c.
  - destruct (app_increment_refines depth c d w Href Hf) as (c1 & Hinc & Hf1 & Href1).
    rewrite (for_each_step _ w words c c1 Hinc). by apply IH.
Qed.

Lemma app_count_documents depth (documents : list (list string)) :
  forall (c : CustomDefaultDict Z) (d : pydict Z),
  refines (table c) d -> default_factory c = Some 0 ->
  exists c', for_each (IndexingApp.count_document (S depth)) documents c = Ok c' /\
    default_factory c' = Some 0 /\
    refines (table c') (fold_left Indexing.count_document documents d).
Proof.
  induction documents as [|doc documents IH]; intros c d Href Hf.
  - by exists c.
  - destruct (app_increment_loop depth
                (elements (list_to_set doc : gset string)) c d Href Hf)
      as (c1 & Hdoc & Hf1 & Href1).
    rewrite (for_each_step _ doc documents c c1 Hdoc). by apply IH.
Qed.

End AppWeightFacts.

Section KeyLoopFacts.

Context `{PyHash} {V : Type}.

(** A loop of [self[key] = f(x)] over entries with pairwise distinct keys
    binds every key, in whatever order the entries come. *)
Lemma set_loop_distinct {A} depth (f : A -> V) (l : list (key * A)) :
  forall t : CustomDictionary V,
  wf t -> load_ok t -> NoDup l.*1 ->
  exists t',
    for_each (fun tb kv => __setitem__ (S depth) tb kv.1 (f kv.2)) l t = Ok t' /\
    wf t' /\ load_ok t' /\
    to_map t' = list_to_map ((fun kv => (kv.1, f kv.2)) <$> l) ∪ to_map t.
Proof.
  induction l as [|[k a] l IH]; intros t Hwf Hload Hnd.
  - exists t. split_and!; [done..|]. simpl. by rewrite (left_id_L ∅ (∪)).
  - rewrite fmap_cons in Hnd. apply NoDup_cons in Hnd. destruct Hnd as [Hk Hnd].
    destruct (setitem_spec depth t k (f a) Hwf Hload)
      as (t1 & Hset & Hwf1 & Hl1 & Hm1 & _).
    destruct (IH t1 Hwf1 Hl1 Hnd) as (t' & Hrun & Hwf' & Hl' & Hm').
    exists t'. split_and!; [|done|done|].
    + by rewrite (for_each_step _ (k, a) l t t1 Hset).
    + rewrite Hm', Hm1. simpl.
      rewrite <- insert_union_r.
      * by rewrite insert_union_l.
      * apply not_elem_of_list_to_map. rewrite <- list_fmap_compose. done.
Qed.

End KeyLoopFacts.

Section AppIdfFacts.

Context `{PyHash} {F : Type} `{FloatOps F}.

Lemma indexing_calculate_idf_map (documents : list (list string)) :
  Indexing.calculate_idf documents
  = (fun wc => (wc.1, Indexing.idf_value (Z.of_nat (length documents)) wc.2))
      <$> fold_left Indexing.count_document documents [] /\
  NoDup (fold_left Indexing.count_document documents []).*1.
Proof.
  destruct (count_documents_spec documents []) as (Hnd & _ & _).
  split; [|apply Hnd; constructor].
  unfold Indexing.calculate_idf.
  rewrite (fold_dict_set_fresh
             (fun n => Indexing.idf_value (Z.of_nat (length documents)) n)); [done|].
  simpl. apply Hnd. constructor.
Qed.

Lemma app_calculate_idf_refines depth (documents : list (list string)) :
  exists idf, IndexingApp.calculate_idf (S depth) documents = Ok idf /\
    refines idf (Indexing.calculate_idf documents).
Proof.
  unfold IndexingApp.calculate_idf.
  destruct (app_count_documents depth documents (default_init (Some 0) 1024) [])
    as (counts & -> & _ & Href).
  { apply refines_init. lia. }
  { done. }
  destruct (indexing_calculate_idf_map documents) as [Hmap Hnd].
  set (dcounts := fold_left Indexing.count_document documents []) in *.
  pose proof (refines_items _ _ Href) as Hperm.
  pose proof Href as (Hwf & _ & _ & _).
  destruct (set_loop_distinct depth
              (fun n => Indexing.idf_value (Z.of_nat (length documents)) n)
              (items (table counts)) (__init__ 1024))
    as (idf & Hrun & Hwf' & Hl' & Hm').
  { apply wf_init. lia. }
  { apply load_ok_init. lia. }
  { apply (wf_nodup _ Hwf). }
  exists idf. split; [exact Hrun|]. split_and!; [done | done | |].
  - rewrite Hmap, <- list_fmap_compose. done.
  - rewrite Hm', to_map_init, (right_id_L ∅ (∪)), Hmap.
    rewrite <- (list_fmap_compose _ key_of_entry).
    etrans.
    + apply list_to_map_proper.
      * rewrite <- list_fmap_compose. apply (wf_nodup _ Hwf).
      * apply fmap_Permutation, Hperm.
    + by rewrite <- list_fmap_compose.
Qed.

(** The loop of [calculate_tfidf] against the loop of indexing.py. *)
Lemma app_calculate_tfidf_loop depth (tf idf : CustomDictionary F)
    (dtf didf : pydict F) (words : list string) :
  refines tf dtf -> refines idf didf ->
  forall (t : CustomDictionary F) (acc r : pydict F),
  refines t acc ->
  for_each (fun tfidf word =>
              if dict_contains didf word then
                a ← dict_getitem dtf word;
                b ← dict_getitem didf word;
                Ok (dict_set tfidf word (fmul a b))
              else Ok tfidf) words acc = Ok r ->
  exists t',
    for_each (fun tfidf word =>
                present ← __contains__ idf (KStr word);
                if (present : bool) then
                  a ← __getitem__ tf (KStr word);
                  b ← __getitem__ idf (KStr word);
                  __setitem__ (S depth) tfidf (KStr word) (fmul a b)
                else Ok tfidf) words t = Ok t' /\
    refines t' r.
Proof.
  intros Htf Hidf. induction words as [|w words IH]; intros t acc r Href Hrun.
  - injection Hrun as <-. by exists t.
  - simpl in Hrun.
    destruct (dict_contains didf w) eqn:Ec.
    + destruct (dict_getitem dtf w) as [a|] eqn:Ea; [|done].
      destruct (dict_getitem didf w) as [b|] eqn:Eb; [|done].
      simpl in Hrun.
      destruct (refines_set depth t acc w (fmul a b) Href) as (t1 & Hset & Href1).
      destruct (IH t1 _ r Href1 Hrun) as (t' & Hrun' & Href').
      exists t'. split; [|done].
      rewrite (for_each_step _ w words t t1); [done|].
      rewrite (refines_contains idf didf w Hidf), Ec.
      rewrite (refines_getitem tf dtf w Htf), Ea.
      rewrite (refines_getitem idf didf w Hidf), Eb. exact Hset.
    + simpl in Hrun. destruct (IH t acc r Href Hrun) as (t' & Hrun' & Href').
      exists t'. split; [|done].
      rewrite (for_each_step _ w words t t); [done|].
      by rewrite (refines_contains idf didf w Hidf), Ec.
Qed.

Lemma app_important_terms threshold (tfidf : CustomDictionary F) (d : pydict F) k :
  refines tfidf d ->
  k ∈ IndexingApp.important_terms threshold tfidf <->
  exists w, k = KStr w /\ w ∈ Indexing.important_terms threshold d.
Proof.
  intros Href. pose proof (refines_items _ _ Href) as Hperm.
  unfold IndexingApp.important_terms, Indexing.important_terms.
  rewrite elem_of_list_to_set, list_elem_of_fmap. split.
  - intros ([k' s] & -> & Hin). apply list_elem_of_filter in Hin.
    destruct Hin as [Hgt Hin]. rewrite Hperm in Hin.
    apply list_elem_of_fmap in Hin. destruct Hin as ([w s'] & [= -> ->] & Hin).
    exists w. split; [done|]. rewrite elem_of_list_to_set, list_elem_of_fmap.
    exists (w, s'). split; [done|]. by apply list_elem_of_filter.
  - intros (w & -> & Hin). rewrite elem_of_list_to_set, list_elem_of_fmap in Hin.
    destruct Hin as ([w' s] & -> & Hin). apply list_elem_of_filter in Hin.
    destruct Hin as [Hgt Hin]. exists (KStr w', s). split; [done|].
    apply list_elem_of_filter. split; [done|]. rewrite Hperm.
    apply list_elem_of_fmap. by exists (w', s).
Qed.

End AppIdfFacts.

(** ** Indexing_App.py: rebuilding the index *)

Section AppRebuildFacts.

Context `{PyHash}.

Lemma replace_value_present {V} (t : CustomDictionary V) k v :
  wf t -> is_Some (to_map t !! k) ->
  exists t', replace_value t k v = Ok t' /\ wf t' /\
    capacity t' = capacity t /\ size t' = size t /\
    to_map t' = <[k := v]> (to_map t).
Proof.
  intros Hwf Hk.
  destruct (setitem_present 0 t k v Hwf Hk) as (t' & Hset & Hrest).
  exists t'. split; [|done]. rewrite <- Hset, setitem_unfold.
  unfold replace_value. rewrite (_hash_home t k (wf_capacity _ Hwf)). simpl.
  destruct (py_index_home t k Hwf) as (bucket & Hb & -> & _). simpl.
  destruct Hk as [v0 Hv0]. rewrite (to_map_lookup t k bucket Hwf Hb) in Hv0.
  destruct (find_key k bucket) as [i|] eqn:Ef; [done|].
  apply find_key_None, bucket_get_None in Ef. congruence.
Qed.

Implicit Types (idx : CustomDefaultDict (list key)).

(** Appending a document to the posting list of a term. *)
Lemma app_post_spec depth doc_id idx term :
  IndexingApp.index_ok idx ->
  exists idx', IndexingApp.post (S depth) doc_id idx term = Ok idx' /\
    IndexingApp.index_ok idx' /\
    forall k, IndexingApp.posting_list idx' k
              = IndexingApp.posting_list idx k
                ++ (if decide (k = term) then [doc_id] else []).
Proof.
  intros (Hwf & Hload & Hf). unfold IndexingApp.post.
  assert (exists posting t1,
    default_getitem (S depth) idx term
    = Ok (posting, {| table := t1; default_factory := default_factory idx |}) /\
    wf t1 /\ load_ok t1 /\ to_map t1 !! term = Some posting /\
    posting = IndexingApp.posting_list idx term /\
    forall k, k <> term -> to_map t1 !! k = to_map (table idx) !! k)
    as (posting & t1 & -> & Hwf1 & Hl1 & Hp & Hpl & Hother).
  { unfold IndexingApp.posting_list.
    destruct (to_map (table idx) !! term) as [posting|] eqn:Ek.
    - exists posting, (table idx). split_and!; try done.
      rewrite (default_getitem_present (S depth) idx term posting Hwf Ek).
      by destruct idx.
    - destruct (default_getitem_absent depth idx term [] Hwf Hload Hf Ek)
        as (t1 & Hget & Hwf1 & Hl1 & Hm1).
      exists [], t1. split_and!; try done.
      + by rewrite Hm1, lookup_insert_eq.
      + intros k Hne. by rewrite Hm1, lookup_insert_ne. }
  destruct (replace_value_present t1 term (posting ++ [doc_id]) Hwf1)
    as (t2 & Hrep & Hwf2 & Hc2 & Hs2 & Hm2); [by eexists|].
  exists {| table := t2; default_factory := default_factory idx |}. split_and!.
  - simpl. simpl in Hrep. by rewrite Hrep.
  - split_and!; [done | unfold load_ok in *; simpl; lia | done].
  - intros k. unfold IndexingApp.posting_list at 1. simpl. rewrite Hm2.
    case_decide as E.
    + subst. by rewrite lookup_insert_eq.
    + rewrite lookup_insert_ne by done. rewrite (Hother k E), app_nil_r. done.
Qed.

Lemma app_post_fold depth doc_id (terms : list key) : forall idx,
  IndexingApp.index_ok idx -> NoDup terms ->
  exists idx', for_each (IndexingApp.post (S depth) doc_id) terms idx = Ok idx' /\
    IndexingApp.index_ok idx' /\
    forall k, IndexingApp.posting_list idx' k
              = IndexingApp.posting_list idx k
                ++ (if decide (k ∈ terms) then [doc_id] else []).
Proof.
  induction terms as [|x terms IH]; intros idx Hok Hnd.
  - exists idx. split_and!; [done..|]. intros k. simpl. by rewrite app_nil_r.
  - apply NoDup_cons in Hnd. destruct Hnd as [Hx Hnd].
    destruct (app_post_spec depth doc_id idx x Hok) as (idx1 & Hpost & Hok1 & Hget1).
    destruct (IH idx1 Hok1 Hnd) as (idx' & Hrun & Hok' & Hget).
    exists idx'. split_and!; [|done|].
    + by rewrite (for_each_step _ x terms idx idx1 Hpost).
    + intros k. rewrite Hget, Hget1, <- app_assoc. f_equal.
      destruct (decide (k = x)) as [->|Hne].
      * rewrite (decide_False (P := x ∈ terms)) by done.
        by rewrite (decide_True (P := x ∈ x :: terms)) by apply list_elem_of_here.
      * simpl. destruct (decide (k ∈ terms)) as [Hin|Hin].
        -- by rewrite decide_True by by apply list_elem_of_further.
        -- rewrite decide_False; [done|]. rewrite elem_of_cons. tauto.
Qed.

End AppRebuildFacts.

Section AppIndexFacts.

Context `{PyHash} `{NLP} {F : Type} `{FloatOps F}.

Implicit Types (idx : CustomDefaultDict (list key)).

Lemma app_index_document depth threshold (corpus : list (list string))
    (idf : CustomDictionary F) idx (dc : key * string) :
  refines idf (Indexing.calculate_idf corpus) ->
  Indexing.extract_nouns_and_entities dc.2 ∈ corpus ->
  IndexingApp.index_ok idx ->
  exists idx',
    IndexingApp.index_document (S depth) threshold idf idx dc = Ok idx' /\
    IndexingApp.index_ok idx' /\
    forall k, IndexingApp.posting_list idx' k
              = IndexingApp.posting_list idx k
                ++ (if IndexingApp.significant_key threshold corpus
                         (Indexing.extract_nouns_and_entities dc.2) k
                    then [dc.1] else []).
Proof.
  intros Hidf Hdoc Hok. unfold IndexingApp.index_document. cbv zeta.
  set (doc_words := Indexing.extract_nouns_and_entities dc.2) in *.
  destruct (app_calculate_tf_refines (F := F) depth doc_words) as (tf & -> & Htf).
  destruct (calculate_tfidf_scores corpus doc_words Hdoc) as (d & Hd & Hnd & Hget).
  destruct (app_calculate_tfidf_loop depth tf idf _ _ doc_words Htf Hidf
              (__init__ 1024) [] d) as (tfidf & Htfidf & Href).
  { apply refines_init. lia. }
  { exact Hd. }
  change (IndexingApp.calculate_tfidf (S depth) doc_words tf idf = Ok tfidf) in Htfidf.
  cbn [mbind result_bind bind]. rewrite Htfidf. cbn [mbind result_bind bind].
  destruct (app_post_fold depth dc.1
              (elements (IndexingApp.important_terms threshold tfidf)) idx Hok)
    as (idx' & Hrun & Hok' & Hpost); [apply NoDup_elements|].
  exists idx'. split_and!; [done | done |].
  intros k. rewrite Hpost. f_equal.
  assert (k ∈ elements (IndexingApp.important_terms threshold tfidf)
          <-> IndexingApp.significant_key threshold corpus doc_words k = true) as Hiff.
  { rewrite elem_of_elements, (app_important_terms threshold tfidf d k Href).
    unfold IndexingApp.significant_key, Indexing.significant. split.
    - intros (w & -> & Hw). apply (elem_of_important_terms _ _ _ Hnd) in Hw.
      destruct Hw as (s & Hs & Hgt). by rewrite <- Hget, Hs.
    - destruct k as [w|n]; [|done]. rewrite <- Hget.
      destruct (dict_get d w) as [s|] eqn:Es; [|done]. intros Hgt.
      exists w. split; [done|]. apply (elem_of_important_terms _ _ _ Hnd). by exists s. }
  destruct (IndexingApp.significant_key threshold corpus doc_words k).
  - rewrite decide_True; [done|]. by apply Hiff.
  - rewrite decide_False; [done|]. intros Hin. by apply Hiff in Hin.
Qed.

Lemma app_index_documents depth threshold (corpus : list (list string))
    (idf : CustomDictionary F) (docs : list (key * string)) : forall idx,
  refines idf (Indexing.calculate_idf corpus) ->
  (forall dc, dc ∈ docs -> Indexing.extract_nouns_and_entities dc.2 ∈ corpus) ->
  IndexingApp.index_ok idx ->
  exists idx',
    for_each (IndexingApp.index_document (S depth) threshold idf) docs idx = Ok idx' /\
    IndexingApp.index_ok idx' /\
    forall k, IndexingApp.posting_list idx' k
              = IndexingApp.posting_list idx k
                ++ (filter (fun dc =>
                              IndexingApp.significant_key threshold corpus
                                (Indexing.extract_nouns_and_entities dc.2) k = true)
                      docs).*1.
Proof.
  induction docs as [|dc docs IH]; intros idx Hidf Hcorpus Hok.
  - exists idx. split_and!; [done..|]. intros k. simpl. by rewrite app_nil_r.
  - destruct (app_index_document depth threshold corpus idf idx dc Hidf)
      as (idx1 & Hone & Hok1 & Hget1); [apply Hcorpus, list_elem_of_here | done |].
    destruct (IH idx1 Hidf) as (idx' & Hrun & Hok' & Hget); [|done|].
    { intros dc' Hin. by apply Hcorpus, list_elem_of_further. }
    exists idx'. split_and!; [|done|].
    + by rewrite (for_each_step _ dc docs idx idx1 Hone).
    + intros k. rewrite Hget, Hget1, <- app_assoc. f_equal.
      rewrite filter_cons.
      destruct (IndexingApp.significant_key threshold corpus
                  (Indexing.extract_nouns_and_entities dc.2) k);
        [rewrite decide_True by done | rewrite decide_False by done]; done.
Qed.

(** [update_index] of Indexing_App.py returns and leaves under every term
    the documents, in the order of [documents.items()], in which the score
    of the term exceeds the threshold. *)
Lemma app_update_index depth threshold (e : IndexingApp.SearchEngine) :
  IndexingApp.index_ok (IndexingApp.index e) ->
  exists e',
    IndexingApp.update_index (S depth) threshold e = Ok e' /\
    IndexingApp.documents e' = IndexingApp.documents e /\
    IndexingApp.index_ok (IndexingApp.index e') /\
    forall k,
      IndexingApp.posting_list (IndexingApp.index e') k
      = (filter (fun dc =>
                   IndexingApp.significant_key threshold
                     ((fun dc => Indexing.extract_nouns_and_entities dc.2)
                        <$> items (IndexingApp.documents e))
                     (Indexing.extract_nouns_and_entities dc.2) k = true)
           (items (IndexingApp.documents e))).*1.
Proof.
  intros (Hwf & Hload & Hf). unfold IndexingApp.update_index. cbv zeta.
  set (docs := items (IndexingApp.documents e)).
  set (corpus := (fun dc => Indexing.extract_nouns_and_entities dc.2) <$> docs).
  destruct (app_calculate_idf_refines depth corpus) as (idf & -> & Hidf).
  cbn [mbind result_bind bind].
  destruct (clear_spec _ Hwf) as (Hwfc & Hlc & Hmc).
  destruct (app_index_documents depth threshold corpus idf docs
              (default_clear (IndexingApp.index e)) Hidf)
    as (idx & Hrun & Hok & Hget).
  { intros dc Hin. apply list_elem_of_fmap. by exists dc. }
  { by split_and!. }
  rewrite Hrun. cbn [mbind result_bind bind].
  eexists. split; [reflexivity|]. split_and!; [done | done |].
  intros k. simpl. rewrite Hget.
  unfold IndexingApp.posting_list at 1. simpl. by rewrite Hmc, lookup_empty.
Qed.

End AppIndexFacts.

(** ** Term frequencies and the rebuilt index, in both files *)

Section BothFiles.

Context `{PyHash}.


Context `{NLP} {F : Type} `{FloatOps F}.

(** C3. In both files [update_index] returns, and afterwards the posting
    list of every term is the list of the documents, in the order of the
    document store, in which the score of the term ([tf * idf] by the
    weighting formulas) exceeds the threshold; a second rebuild of the
    unchanged corpus gives the same posting lists. *)
Theorem update_index_postings (threshold : F) :
  (forall e : Indexing.SearchEngine,
     exists e',
       Indexing.update_index threshold e = Ok e' /\
       Indexing.documents e' = Indexing.documents e /\
       (forall term,
          dict_get_default (Indexing.index e') term []
          = (filter (fun dc =>
                       Indexing.significant threshold
                         ((fun dc => Indexing.extract_nouns_and_entities dc.2)
                            <$> Indexing.documents e)
                         (Indexing.extract_nouns_and_entities dc.2) term = true)
               (Indexing.documents e)).*1) /\
       Indexing.update_index threshold e' = Ok e') /\
  (forall depth (e : IndexingApp.SearchEngine),
     IndexingApp.index_ok (IndexingApp.index e) ->
     exists e',
       IndexingApp.update_index (S depth) threshold e = Ok e' /\
       IndexingApp.documents e' = IndexingApp.documents e /\
       (forall term,
          IndexingApp.posting_list (IndexingApp.index e') (KStr term)
          = (filter (fun dc =>
                       Indexing.significant threshold
                         ((fun dc => Indexing.extract_nouns_and_entities dc.2)
                            <$> items (IndexingApp.documents e))
                         (Indexing.extract_nouns_and_entities dc.2) term = true)
               (items (IndexingApp.documents e))).*1) /\
       exists e'',
         IndexingApp.update_index (S depth) threshold e' = Ok e'' /\
         forall k, IndexingApp.posting_list (IndexingApp.index e'') k
                   = IndexingApp.posting_list (IndexingApp.index e') k).
Proof.
  split; [apply indexing_update_index|].
  intros depth e Hok.
  destruct (app_update_index depth threshold e Hok) as (e' & Hrun & Hdocs & Hok' & Hget).
  destruct (app_update_index depth threshold e' Hok') as (e'' & Hrun' & _ & _ & Hget').
  exists e'. split_and!; [done | done | |].
  - intros term. apply (Hget (KStr term)).
  - exists e''. split; [done|]. intros k. by rewrite Hget', Hget, Hdocs.
Qed.

End BothFiles.


Lemma update_index_postings_witness :
  exists e',
    IndexingApp.update_index (H := int_hash) (H0 := toy_nlp) (F := R) 1 (1 / 100)%R
      app_corpus = Ok e' /\
    IndexingApp.documents e' = IndexingApp.documents app_corpus.
Proof.
  destruct (proj2 (update_index_postings (H := int_hash) (H0 := toy_nlp) (F := R)
                     (1 / 100)%R) 0%nat app_corpus app_corpus_index_ok)
    as (e' & Hrun & Hdocs & _).
  exists e'. split; [exact Hrun | exact Hdocs].
Defined.

(** ** The index of the three one-word documents *)

Lemma ln_three_halves : (1 / 10 < ln (3 / 2))%R.
Proof.
  assert (ln (2 / 3) < - (1 / 3))%R as Hlt.
  { rewrite <- (ln_exp (- (1 / 3))). apply ln_increasing; [lra|].
    pose proof (exp_ineq1 (- (1 / 3))%R) as Hexp. lra. }
  replace (3 / 2)%R with (/ (2 / 3))%R by lra.
  rewrite ln_Rinv by lra. lra.
Qed.

(** A rebuild with the threshold of indexing.py lists every document of
    [thesaurus_corpus] under its one word, as the index of
    [thesaurus_corpus] does. *)
Lemma thesaurus_corpus_rebuilt :
  exists e',
    Indexing.update_index (H := toy_nlp) (F := R) (1 / 10)%R
      {| Indexing.index := []; Indexing.documents := Indexing.documents thesaurus_corpus |}
    = Ok e' /\
    forall term,
      dict_get_default (Indexing.index e') term []
      = dict_get_default (Indexing.index thesaurus_corpus) term [].
Proof.
  destruct (indexing_update_index (H := toy_nlp) (F := R) (1 / 10)%R
              {| Indexing.index := [];
                 Indexing.documents := Indexing.documents thesaurus_corpus |})
    as (e' & Hrun & _ & Hget & _).
  exists e'. split; [exact Hrun|]. intros term. rewrite Hget. clear Hget Hrun.
  assert (forall w : string,
            w ∈ ["cat"; "kitty"; "dog"]%string ->
            Indexing.significant (H0 := R_float) (1 / 10)%R
              [["cat"]; ["kitty"]; ["dog"]]%string [w] term
            = bool_decide (term = w)) as Hsig.
  { intros w Hw. unfold Indexing.significant, Indexing.tfidf_score.
    destruct (decide (term ∈ [w])) as [Hin|Hin].
    - apply list_elem_of_singleton in Hin. subst term.
      rewrite bool_decide_eq_true_2 by done.
      assert (Indexing.document_frequency w [["cat"]; ["kitty"]; ["dog"]]%string = 1)
        as ->.
      { set_unfold in Hw. destruct Hw as [->|[->|[->|[]]]]; reflexivity. }
      assert (Indexing.occurrences w [w] = 1) as ->.
      { unfold Indexing.occurrences. rewrite filter_cons, decide_True by done.
        reflexivity. }
      unfold Indexing.idf_value. simpl. unfold truediv, R_truediv.
      change (Z.of_nat 1) with 1. change (1 + 1) with 2.
      change (IZR (Z.of_nat 3)) with 3%R.
      destruct (Rlt_dec (1 / 10) (1 / 1 * ln (3 / 2))) as [?|Hn]; [done|].
      exfalso. apply Hn. pose proof ln_three_halves. lra.
    - rewrite bool_decide_eq_false_2; [done|]. intros ->. apply Hin.
      apply list_elem_of_here. }
  unfold thesaurus_corpus. cbn [Indexing.documents Indexing.index].
  change ((fun dc : string * string =>
             Indexing.extract_nouns_and_entities (H := toy_nlp) dc.2)
            <$> [("d1", "cat"); ("d2", "kitty"); ("d3", "dog")]%string)
    with [["cat"]; ["kitty"]; ["dog"]]%string.
  rewrite !filter_cons, filter_nil.
  change (Indexing.extract_nouns_and_entities (H := toy_nlp) ("d1", "cat")%string.2)
    with ["cat"%string].
  change (Indexing.extract_nouns_and_entities (H := toy_nlp) ("d2", "kitty")%string.2)
    with ["kitty"%string].
  change (Indexing.extract_nouns_and_entities (H := toy_nlp) ("d3", "dog")%string.2)
    with ["dog"%string].
  rewrite !Hsig by (set_unfold; tauto).
  unfold dict_get_default. simpl.
  repeat case_decide; repeat case_bool_decide; simplify_eq; done.
Qed.

(** ** CustomeDictionary.py: the listing, the length and the capacity *)

Section ContainerFacts.

Context `{PyHash} {V : Type}.
Implicit Types (d : CustomDictionary V) (k : key) (v : V)
  (bucket : list (key * V)) (bs : list (list (key * V))).

(** A container reached from a fresh one keeps the representation
    invariant and stays below the load threshold. *)
Lemma reached (c : Z) (n : nat) (ops : list (op V)) d :
  0 < c -> run n ops (__init__ c) = Ok d -> wf d /\ load_ok d.
Proof.
  intros Hc Hrun.
  destruct (run_sound n ops _ d (wf_init c Hc) (load_ok_init c Hc) Hrun) as (? & ? & _).
  done.
Qed.

Lemma elem_of_items d k v : wf d -> (k, v) ∈ items d <-> to_map d !! k = Some v.
Proof.
  intros Hwf. unfold to_map. apply elem_of_list_to_map, (wf_nodup _ Hwf).
Qed.

Lemma not_elem_of_keys d k : k ∉ keys d <-> to_map d !! k = None.
Proof. unfold to_map, keys. apply not_elem_of_list_to_map. Qed.

Lemma elem_of_keys d k : k ∈ keys d <-> is_Some (to_map d !! k).
Proof.
  rewrite <- not_eq_None_Some, <- not_elem_of_keys.
  destruct (decide (k ∈ keys d)); tauto.
Qed.

Lemma lookup_agrees_with_listing d k v :
  wf d -> (k, v) ∈ items d -> __getitem__ d k = Ok v.
Proof.
  intros Hwf Hin. apply (elem_of_items d k v Hwf) in Hin.
  by rewrite (getitem_to_map d k Hwf), Hin.
Qed.

(** X1. In a container reached from a fresh one, [d[k]] returns [v]
    exactly when [(k, v)] is listed by [items()] and raises KeyError for a
    key outside [keys()]; [k in d] is membership in [keys()]; and
    [get(k, default)] returns the listed value, or [default] for a key
    outside [keys()], without raising. *)
Theorem lookup_agrees_with_items (c : Z) (n : nat) (ops : list (op V)) d :
  0 < c -> run n ops (__init__ c) = Ok d ->
  (forall k v, __getitem__ d k = Ok v <-> (k, v) ∈ items d) /\
  (forall k, k ∉ keys d -> __getitem__ d k = Raise (KeyError k)) /\
  (forall k, __contains__ d k = Ok (bool_decide (k ∈ keys d))) /\
  (forall k v default, get d k default = Ok v <->
     (k, v) ∈ items d \/ ((k ∉ keys d) /\ v = default)).
Proof.
  intros Hc Hrun. destruct (reached c n ops d Hc Hrun) as [Hwf _].
  split_and!.
  - intros k v. rewrite (getitem_to_map d k Hwf), (elem_of_items d k v Hwf).
    destruct (to_map d !! k); split; congruence.
  - intros k Hk. apply not_elem_of_keys in Hk.
    by rewrite (getitem_to_map d k Hwf), Hk.
  - intros k. unfold __contains__. rewrite (getitem_to_map d k Hwf).
    destruct (to_map d !! k) as [v|] eqn:Ek.
    + rewrite bool_decide_eq_true_2; [done|]. apply elem_of_keys. by rewrite Ek.
    + rewrite bool_decide_eq_false_2; [done|]. by apply not_elem_of_keys.
  - intros k v default. unfold get. rewrite (getitem_to_map d k Hwf).
    rewrite (elem_of_items d k v Hwf), not_elem_of_keys.
    destruct (to_map d !! k) as [v0|] eqn:Ek; split.
    + intros [= ->]. by left.
    + intros [[= ->]|[? _]]; done.
    + intros [= ->]. by right.
    + intros [?|[_ ->]]; done.
Qed.

Lemma concat_middle bs (j : nat) bucket :
  bs !! j = Some bucket ->
  concat bs = concat (take j bs) ++ bucket ++ concat (drop (S j) bs).
Proof.
  intros Hj. rewrite <- (take_drop_middle bs j bucket Hj) at 1.
  by rewrite concat_app, concat_cons.
Qed.

Lemma concat_insert_middle bs (j : nat) bucket' :
  (j < length bs)%nat ->
  concat (<[j := bucket']> bs) = concat (take j bs) ++ bucket' ++ concat (drop (S j) bs).
Proof.
  intros Hj. rewrite insert_take_drop by done. by rewrite concat_app, concat_cons.
Qed.

(** The keys of a bucket list do not change when a bucket is replaced by
    one with the same keys. *)
Lemma keys_store_same bs (j : nat) bucket bucket' :
  bs !! j = Some bucket -> bucket'.*1 = bucket.*1 ->
  (concat (<[j := bucket']> bs)).*1 = (concat bs).*1.
Proof.
  intros Hj Heq. rewrite (concat_middle bs j bucket Hj).
  rewrite concat_insert_middle by (by eapply lookup_lt_Some).
  by rewrite !fmap_app, Heq.
Qed.

(** [__setitem__] on a key that is present, the resulting container
    written out. *)
Lemma setitem_present_buckets depth d k v b1 v0 b2 :
  wf d -> buckets d !! slot (capacity d) k = Some (b1 ++ (k, v0) :: b2) ->
  k ∉ b1.*1 ->
  __setitem__ depth d k v
  = Ok {| capacity := capacity d; size := size d;
          buckets := <[slot (capacity d) k := b1 ++ (k, v) :: b2]> (buckets d) |}.
Proof.
  intros Hwf Hb Hk1.
  destruct (py_index_home d k Hwf) as (bucket & Hb' & Hpy & Hn).
  assert (bucket = b1 ++ (k, v0) :: b2) as -> by congruence.
  assert (find_key k (b1 ++ (k, v0) :: b2) = Some (length b1)) as Ef.
  { clear -Hk1. induction b1 as [|[k' v'] b1 IH]; simpl.
    - by rewrite decide_True.
    - rewrite fmap_cons, not_elem_of_cons in Hk1. destruct Hk1 as [Hne Hk1].
      rewrite decide_False by done. by rewrite (IH Hk1). }
  rewrite setitem_unfold, (_hash_home d k (wf_capacity _ Hwf)). simpl.
  rewrite Hpy. simpl. rewrite Ef. unfold store_bucket. rewrite Hn.
  by rewrite insert_app_r_alt, Nat.sub_diag by lia.
Qed.

(** The bucket of a key that is present, split around its entry. *)
Lemma bucket_of_present d k :
  wf d -> k ∈ keys d ->
  exists b1 v0 b2,
    buckets d !! slot (capacity d) k = Some (b1 ++ (k, v0) :: b2) /\ k ∉ b1.*1.
Proof.
  intros Hwf Hk. apply elem_of_keys in Hk. destruct Hk as [v0 Hv0].
  destruct (py_index_home d k Hwf) as (bucket & Hb & _ & _).
  rewrite (to_map_lookup d k bucket Hwf Hb) in Hv0.
  destruct (find_key k bucket) as [i|] eqn:Ef.
  2:{ apply find_key_None, bucket_get_None in Ef. congruence. }
  destruct (find_key_Some k bucket i Ef) as (b1 & v1 & b2 & -> & _ & Hk1).
  by exists b1, v1, b2.
Qed.

(** X2. Assigning to a key that is present returns at every depth, even
    one that allows no resize, and changes the value only: [keys()] lists
    the same keys in the same order, and the length and the capacity are
    kept. *)
Theorem overwrite_keeps_the_listing (c : Z) (n m : nat) (ops : list (op V)) d k v :
  0 < c -> run n ops (__init__ c) = Ok d -> k ∈ keys d ->
  exists d', __setitem__ m d k v = Ok d' /\
    keys d' = keys d /\ __len__ d' = __len__ d /\ capacity d' = capacity d /\
    __getitem__ d' k = Ok v /\
    forall k', k' <> k -> __getitem__ d' k' = __getitem__ d k'.
Proof.
  intros Hc Hrun Hk. destruct (reached c n ops d Hc Hrun) as [Hwf _].
  destruct (bucket_of_present d k Hwf Hk) as (b1 & v0 & b2 & Hb & Hk1).
  destruct (setitem_present m d k v Hwf) as (d' & Hset & Hwf' & Hcap & Hsize & Hm).
  { by apply elem_of_keys. }
  exists d'. split; [done|].
  rewrite (setitem_present_buckets m d k v b1 v0 b2 Hwf Hb Hk1) in Hset.
  injection Hset as <-. split_and!; [|done|done| |].
  - unfold keys, items. simpl.
    apply (keys_store_same _ _ (b1 ++ (k, v0) :: b2)); [done|].
    by rewrite !fmap_app, !fmap_cons.
  - by rewrite (getitem_to_map _ k Hwf'), Hm, lookup_insert_eq.
  - intros k' Hne.
    rewrite (getitem_to_map _ k' Hwf'), (getitem_to_map d k' Hwf), Hm.
    by rewrite lookup_insert_ne.
Qed.

(** X3. Assigning to a key that is absent returns at every depth that
    allows one resize; the length grows by one, [items()] lists the new
    entry and the entries it listed before, and the capacity is kept or
    doubled. *)
Theorem insert_adds_one_entry (c : Z) (n m : nat) (ops : list (op V)) d k v :
  0 < c -> run n ops (__init__ c) = Ok d -> k ∉ keys d ->
  exists d', __setitem__ (S m) d k v = Ok d' /\
    __len__ d' = __len__ d + 1 /\
    items d' ≡ₚ (k, v) :: items d /\
    (capacity d' = capacity d \/ capacity d' = 2 * capacity d).
Proof.
  intros Hc Hrun Hk. destruct (reached c n ops d Hc Hrun) as [Hwf Hload].
  destruct (setitem_spec m d k v Hwf Hload) as (d' & Hset & Hwf' & _ & Hm & Hcap).
  exists d'. split; [done|].
  assert (items d' ≡ₚ (k, v) :: items d) as Hperm.
  { apply (list_to_map_inj (M := gmap key)).
    - apply (wf_nodup _ Hwf').
    - rewrite fmap_cons. apply NoDup_cons. split; [done | apply (wf_nodup _ Hwf)].
    - exact Hm. }
  split_and!; [|done|].
  - unfold __len__. rewrite (wf_size _ Hwf'), (wf_size _ Hwf), Hperm. simpl length. lia.
  - rewrite Hcap. case_decide; auto.
Qed.

Lemma filter_other_keys (l : list (key * V)) k :
  k ∉ l.*1 -> filter (fun kv => kv.1 <> k) l = l.
Proof.
  induction l as [|[k' v'] l IH]; [done|]. rewrite fmap_cons, not_elem_of_cons.
  intros [Hne Hl]. rewrite filter_cons. rewrite decide_True.
  - by rewrite IH.
  - simpl in *. congruence.
Qed.

(** [__delitem__] on a key that is present, the resulting container
    written out. *)
Lemma delitem_present_buckets d k b1 v0 b2 :
  wf d -> buckets d !! slot (capacity d) k = Some (b1 ++ (k, v0) :: b2) ->
  k ∉ b1.*1 ->
  __delitem__ d k
  = Ok {| capacity := capacity d; size := size d - 1;
          buckets := <[slot (capacity d) k := b1 ++ b2]> (buckets d) |}.
Proof.
  intros Hwf Hb Hk1.
  destruct (py_index_home d k Hwf) as (bucket & Hb' & Hpy & Hn).
  assert (bucket = b1 ++ (k, v0) :: b2) as -> by congruence.
  assert (find_key k (b1 ++ (k, v0) :: b2) = Some (length b1)) as Ef.
  { clear -Hk1. induction b1 as [|[k' v'] b1 IH]; simpl.
    - by rewrite decide_True.
    - rewrite fmap_cons, not_elem_of_cons in Hk1. destruct Hk1 as [Hne Hk1].
      rewrite decide_False by done. by rewrite (IH Hk1). }
  unfold __delitem__. rewrite (_hash_home d k (wf_capacity _ Hwf)). simpl.
  rewrite Hpy. simpl. rewrite Ef. unfold store_bucket. rewrite Hn.
  by rewrite delete_middle.
Qed.

(** X4. Deleting a key that is present removes its entry and nothing
    else: [items()] lists the other entries in the order they had, the
    length drops by one, and the capacity and the number of buckets stay.
    Deleting a key that is absent raises KeyError. *)
Theorem delete_removes_one_entry (c : Z) (n : nat) (ops : list (op V)) d k :
  0 < c -> run n ops (__init__ c) = Ok d ->
  (k ∈ keys d ->
   exists d', __delitem__ d k = Ok d' /\
     items d' = filter (fun kv => kv.1 <> k) (items d) /\
     __len__ d' = __len__ d - 1 /\
     capacity d' = capacity d /\
     length (buckets d') = length (buckets d)) /\
  (k ∉ keys d -> __delitem__ d k = Raise (KeyError k)).
Proof.
  intros Hc Hrun. destruct (reached c n ops d Hc Hrun) as [Hwf _]. split.
  - intros Hk.
    destruct (bucket_of_present d k Hwf Hk) as (b1 & v0 & b2 & Hb & Hk1).
    rewrite (delitem_present_buckets d k b1 v0 b2 Hwf Hb Hk1).
    eexists. split; [reflexivity|]. simpl. split_and!; [|done|done|].
    + unfold items. simpl.
      pose proof (wf_nodup _ Hwf) as Hnd. unfold keys, items in Hnd.
      rewrite (concat_middle _ _ _ Hb) in Hnd |- *.
      rewrite concat_insert_middle by (by eapply lookup_lt_Some).
      set (l1 := concat (take (slot (capacity d) k) (buckets d))) in *.
      set (l2 := concat (drop (S (slot (capacity d) k)) (buckets d))) in *.
      rewrite <- !app_assoc in Hnd |- *. simpl in Hnd |- *.
      rewrite !fmap_app, fmap_cons in Hnd.
      apply NoDup_app in Hnd. destruct Hnd as (_ & Hd0 & Hnd).
      apply NoDup_app in Hnd. destruct Hnd as (_ & _ & Hnd).
      apply NoDup_cons in Hnd. destruct Hnd as [Hk2 _]. simpl in Hk2.
      rewrite fmap_app, not_elem_of_app in Hk2. destruct Hk2 as [Hk2 Hk3].
      rewrite !filter_app, filter_cons, decide_False by (simpl; tauto).
      rewrite !filter_other_keys; [by rewrite <- !app_assoc | done..|].
      intros Hin. apply (Hd0 k Hin). rewrite elem_of_app, elem_of_cons. tauto.
    + by rewrite length_insert.
  - intros Hk. apply not_elem_of_keys in Hk. by apply delitem_absent.
Qed.

(** X5. [clear] keeps the capacity and the number of buckets that the
    container had grown to and empties it: nothing is listed, the length
    is 0 and every lookup raises KeyError. *)
Theorem clear_empties_and_keeps_the_capacity (c : Z) (n : nat) (ops : list (op V)) d :
  0 < c -> run n ops (__init__ c) = Ok d ->
  items (clear d) = [] /\ __len__ (clear d) = 0 /\
  capacity (clear d) = capacity d /\
  length (buckets (clear d)) = length (buckets d) /\
  (forall k, __getitem__ (clear d) k = Raise (KeyError k)) /\
  (forall k default, get (clear d) k default = Ok default).
Proof.
  intros Hc Hrun. destruct (reached c n ops d Hc Hrun) as [Hwf _].
  destruct (clear_spec d Hwf) as (Hwfc & _ & Hmc).
  assert (items (clear d) = []) as Hitems.
  { pose proof (wf_size _ Hwfc) as Hs. simpl in Hs.
    destruct (items (clear d)); [done | simpl in Hs; lia]. }
  split_and!; [done | done | done | | |].
  - simpl. unfold fresh_buckets. by rewrite length_replicate, (wf_length _ Hwf).
  - intros k. by rewrite (getitem_to_map _ k Hwfc), Hmc, lookup_empty.
  - intros k default. unfold get.
    by rewrite (getitem_to_map _ k Hwfc), Hmc, lookup_empty.
Qed.

End ContainerFacts.

Section ContainerMore.

Context `{PyHash} {V : Type}.
Implicit Types (d : CustomDictionary V) (k : key) (v : V)
  (bucket : list (key * V)) (bs : list (list (key * V))).

Lemma apply_op_capacity (n : nat) d (o : op V) d' :
  wf d -> load_ok d -> apply_op n d o = Ok d' ->
  capacity d' = capacity d \/ capacity d' = 2 * capacity d.
Proof.
  intros Hwf Hload Hop. apply (apply_op_depth_le n (S n)) in Hop; [|lia].
  destruct o as [k v|k| |]; unfold apply_op in Hop.
  - destruct (setitem_spec n d k v Hwf Hload) as (d'' & Hset & _ & _ & _ & Hcap).
    assert (d'' = d') as -> by congruence. rewrite Hcap. case_decide; auto.
  - destruct (to_map d !! k) as [v0|] eqn:Ek.
    + destruct (delitem_present d k Hwf) as (d'' & Hdel & _ & Hcap & _); [by eexists|].
      rewrite Hdel in Hop. injection Hop as <-. auto.
    + rewrite (delitem_absent d k Hwf Ek) in Hop. injection Hop as <-. auto.
  - injection Hop as <-. auto.
  - destruct (resize_spec (S n) d Hwf) as (d'' & Hrs & _ & _ & Hcap & _).
    { unfold load_ok in Hload. pose proof (wf_capacity _ Hwf). lia. }
    assert (d'' = d') as -> by congruence. auto.
Qed.

Lemma run_capacity (n : nat) (ops : list (op V)) : forall d0 d,
  wf d0 -> load_ok d0 -> run n ops d0 = Ok d ->
  exists j : nat, (j <= length ops)%nat /\ capacity d = capacity d0 * 2 ^ Z.of_nat j.
Proof.
  unfold run. induction ops as [|o ops IH]; intros d0 d Hwf Hload Hrun; simpl in Hrun.
  - injection Hrun as <-. exists 0%nat. split; [done|]. simpl. lia.
  - destruct (apply_op n d0 o) as [d1|e] eqn:Eo; [|done]. simpl in Hrun.
    destruct (apply_op_sound n d0 o d1 Hwf Hload Eo) as (Hwf1 & Hl1 & _).
    destruct (IH d1 d Hwf1 Hl1 Hrun) as (j & Hj & Hcap).
    destruct (apply_op_capacity n d0 o d1 Hwf Hload Eo) as [Hc1|Hc1].
    + exists j. split; [simpl; lia|]. by rewrite Hcap, Hc1.
    + exists (S j). split; [simpl; lia|]. rewrite Hcap, Hc1.
      rewrite Nat2Z.inj_succ, Z.pow_succ_r by lia. lia.
Qed.

(** X6. The capacity of a container never shrinks: after any operations on
    a container created with capacity [c] it is [c] doubled at most once for
    every operation, the bucket list has that many buckets, [del] keeps it,
    and a direct [_resize] doubles it at every depth and keeps the length
    and the listed entries. *)
Theorem capacity_only_doubles (c : Z) (n : nat) (ops : list (op V)) d :
  0 < c -> run n ops (__init__ c) = Ok d ->
  (exists j : nat, (j <= length ops)%nat /\ capacity d = c * 2 ^ Z.of_nat j) /\
  length (buckets d) = Z.to_nat (capacity d) /\
  (forall k d', __delitem__ d k = Ok d' -> capacity d' = capacity d) /\
  (forall m, exists d', _resize m d = Ok d' /\
     capacity d' = 2 * capacity d /\ __len__ d' = __len__ d /\
     items d' ≡ₚ items d).
Proof.
  intros Hc Hrun. destruct (reached c n ops d Hc Hrun) as [Hwf Hload].
  split_and!.
  - apply (run_capacity n ops (__init__ c) d); [by apply wf_init | by apply load_ok_init | done].
  - apply (wf_length _ Hwf).
  - intros k d' Hdel. destruct (to_map d !! k) as [v0|] eqn:Ek.
    + destruct (delitem_present d k Hwf) as (d'' & Hd & _ & Hcap & _); [by eexists|].
      congruence.
    + rewrite (delitem_absent d k Hwf Ek) in Hdel. done.
  - intros m. destruct (resize_spec m d Hwf) as (d' & Hrs & Hwf' & _ & Hcap & Hsize & Hm).
    { unfold load_ok in Hload. pose proof (wf_capacity _ Hwf). lia. }
    exists d'. split_and!; [done | done | done |].
    apply (list_to_map_inj (M := gmap key)).
    + apply (wf_nodup _ Hwf').
    + apply (wf_nodup _ Hwf).
    + exact Hm.
Qed.

(** X7. A container created with a capacity that is not positive has no
    bucket: it is empty, and [set], [d[k]], [del], [get] and [in] all
    raise, ZeroDivisionError at capacity 0 for every key but the empty
    string and IndexError otherwise; [get] and [in], which catch KeyError
    only, raise as well. *)
Theorem no_buckets_no_service (c : Z) (depth : nat) k v (default : V) :
  c <= 0 ->
  let d := __init__ c : CustomDictionary V in
  let e := if (c =? 0) && negb (bool_decide (k = KStr EmptyString))
           then ZeroDivisionError else IndexError in
  __len__ d = 0 /\ items d = [] /\
  __setitem__ depth d k v = Raise e /\
  __getitem__ d k = Raise e /\
  __delitem__ d k = Raise e /\
  get d k default = Raise e /\
  __contains__ d k = Raise e.
Proof.
  intros Hc d e.
  assert (buckets d = []) as Hb.
  { unfold d, __init__, fresh_buckets. simpl. by replace (Z.to_nat c) with 0%nat by lia. }
  assert (_hash d k = Raise e \/ (exists index, _hash d k = Ok index) /\ e = IndexError)
    as Hhash.
  { unfold e, _hash. change (capacity d) with c. destruct k as [s|z].
    - destruct s as [|a s]; simpl.
      + right. rewrite andb_false_r. split; [by exists 0 | done].
      + destruct (c =? 0); simpl; [by left | right; split; [by eexists | done]].
    - destruct (c =? 0); simpl; [by left | right; split; [by eexists | done]]. }
  assert (__getitem__ d k = Raise e) as Hget.
  { unfold __getitem__. destruct Hhash as [->|[[index ->] ->]]; [done|].
    cbn beta. rewrite Hb. simpl. by rewrite ?py_index_nil. }
  split_and!.
  - done.
  - unfold items. by rewrite Hb.
  - rewrite setitem_unfold. destruct Hhash as [->|[[index ->] ->]]; [done|].
    cbn beta. rewrite Hb. simpl. by rewrite ?py_index_nil.
  - done.
  - unfold __delitem__. destruct Hhash as [->|[[index ->] ->]]; [done|].
    cbn beta. rewrite Hb. simpl. by rewrite ?py_index_nil.
  - unfold get. rewrite Hget. unfold e.
    by destruct ((c =? 0) && negb (bool_decide (k = KStr EmptyString))).
  - unfold __contains__. rewrite Hget. unfold e.
    by destruct ((c =? 0) && negb (bool_decide (k = KStr EmptyString))).
Qed.

Lemma rolling_polynomial (m h : Z) (chars : list ascii) :
  m <> 0 ->
  rolling m (h mod m) chars
  = (h * 31 ^ Z.of_nat (length chars) + polynomial chars) mod m.
Proof.
  intros Hm. revert h. induction chars as [|c rest IH]; intros h; simpl rolling.
  - simpl. f_equal. lia.
  - rewrite IH. simpl polynomial. simpl length.
    rewrite Nat2Z.inj_succ, Z.pow_succ_r by lia.
    set (P := 31 ^ Z.of_nat (length rest)). set (q := polynomial rest).
    replace ((h `mod` m * 31 + ord c) * P + q)
      with (h `mod` m * (31 * P) + (ord c * P + q)) by ring.
    replace (h * (31 * P) + (ord c * P + q))
      with (h * (31 * P) + (ord c * P + q)) by ring.
    rewrite <- (Z.add_mod_idemp_l (h `mod` m * (31 * P))) by done.
    rewrite Z.mul_mod_idemp_l, Z.add_mod_idemp_l by done. done.
Qed.

(** X8. For a capacity other than 0 the hash of a string is the value of
    the polynomial [ord(c_1) * 31^(n-1) + ... + ord(c_n)] reduced modulo
    the capacity: reducing after every character, as the loop does, gives
    the residue of the whole sum; and for a positive capacity the hash of
    every key is an index into the bucket list. *)
Theorem hash_is_the_polynomial_residue d :
  capacity d <> 0 ->
  (forall s, _hash d (KStr s)
             = Ok (polynomial (list_ascii_of_string s) mod capacity d)) /\
  (0 < capacity d ->
   forall k, exists index, _hash d k = Ok index /\ 0 <= index < capacity d).
Proof.
  intros Hc. split.
  - intros s. unfold _hash.
    destruct (list_ascii_of_string s) as [|a rest] eqn:Es.
    + simpl. by rewrite Z.mod_0_l.
    + destruct (capacity d =? 0) eqn:E; [lia|]. f_equal.
      rewrite <- (Z.mod_0_l (capacity d)) at 1 by done.
      rewrite rolling_polynomial by done. f_equal.
  - intros Hpos k. exists (home (capacity d) k). split.
    + by apply _hash_home.
    + by apply home_range.
Qed.

(** X9. Assigning to a key that is absent and deleting it again restores
    the container: the length, the listed entries and every lookup are as
    before, and when the assignment did not resize the container is the
    very same, bucket by bucket. *)
Theorem set_then_delete_restores (c : Z) (n m : nat) (ops : list (op V)) d k v :
  0 < c -> run n ops (__init__ c) = Ok d -> k ∉ keys d ->
  exists d1 d2,
    __setitem__ (S m) d k v = Ok d1 /\ __delitem__ d1 k = Ok d2 /\
    __len__ d2 = __len__ d /\ items d2 ≡ₚ items d /\
    (forall k', __getitem__ d2 k' = __getitem__ d k') /\
    (capacity d1 = capacity d -> d2 = d).
Proof.
  intros Hc Hrun Hk. destruct (reached c n ops d Hc Hrun) as [Hwf Hload].
  pose proof Hk as Hnone. apply not_elem_of_keys in Hnone.
  destruct (setitem_spec m d k v Hwf Hload) as (d1 & Hset & Hwf1 & _ & Hm1 & Hcap1).
  destruct (delitem_present d1 k Hwf1) as (d2 & Hdel & Hwf2 & _ & _ & Hm2).
  { by rewrite Hm1, lookup_insert_eq. }
  assert (to_map d2 = to_map d) as Hm.
  { rewrite Hm2, Hm1, delete_insert_eq. by apply delete_id. }
  assert (items d2 ≡ₚ items d) as Hperm.
  { apply (list_to_map_inj (M := gmap key));
      [apply (wf_nodup _ Hwf2) | apply (wf_nodup _ Hwf) | exact Hm]. }
  exists d1, d2. split_and!; [done | done | | done | |].
  - unfold __len__. by rewrite (wf_size _ Hwf2), (wf_size _ Hwf), Hperm.
  - intros k'. by rewrite (getitem_to_map d2 k' Hwf2), (getitem_to_map d k' Hwf), Hm.
  - intros Hsame.
    destruct (setitem_absent (S m) d k v Hwf Hnone) as (bucket & Hb & Hset').
    rewrite Hset in Hset'. case_bool_decide as Hreach.
    { exfalso. rewrite decide_True in Hcap1 by done.
      pose proof (wf_capacity _ Hwf). lia. }
    injection Hset' as ->.
    assert (k ∉ bucket.*1) as Hkb.
    { rewrite (to_map_lookup d k bucket Hwf Hb) in Hnone. by apply bucket_get_None. }
    assert (buckets (appended d k v bucket)
            = <[slot (capacity d) k := bucket ++ [(k, v)]]> (buckets d)) as Hbs.
    { unfold appended, store_bucket. simpl. by rewrite (norm_index_slot d k Hwf). }
    rewrite (delitem_present_buckets (appended d k v bucket) k bucket v [] Hwf1) in Hdel.
    + rewrite Hbs in Hdel. simpl in Hdel. rewrite app_nil_r in Hdel.
      rewrite list_insert_insert_eq, list_insert_id in Hdel by done.
      injection Hdel as <-. destruct d as [cap sz bs]. simpl. f_equal. lia.
    + rewrite Hbs. change (capacity (appended d k v bucket)) with (capacity d).
      apply list_lookup_insert_eq. by eapply lookup_lt_Some.
    + done.
Qed.

End ContainerMore.

(** ** CustomeDictionary.py: the default-valued container *)

Section DefaultFacts.

Context `{PyHash} {V : Type}.
Implicit Types (t : CustomDictionary V) (k : key) (v : V).

(** A miss without a factory raises and stores nothing; a miss with a
    factory stores one entry. *)
Lemma default_getitem_no_factory depth (d : CustomDefaultDict V) k :
  wf (table d) -> k ∉ keys (table d) -> default_factory d = None ->
  default_getitem depth d k = Raise (KeyError k).
Proof.
  intros Hwf Hk Hf. apply not_elem_of_keys in Hk.
  destruct depth; simpl; by rewrite (getitem_to_map _ k Hwf), Hk, Hf.
Qed.

Lemma default_getitem_factory depth (d : CustomDefaultDict V) k made :
  wf (table d) -> load_ok (table d) -> k ∉ keys (table d) ->
  default_factory d = Some made ->
  exists t', default_getitem (S depth) d k
             = Ok (made, {| table := t'; default_factory := default_factory d |}) /\
    wf t' /\ items t' ≡ₚ (k, made) :: items (table d).
Proof.
  intros Hwf Hload Hk Hf. pose proof Hk as Hnone. apply not_elem_of_keys in Hnone.
  destruct (default_getitem_absent depth d k made Hwf Hload Hf Hnone)
    as (t' & Hget & Hwf' & _ & Hm').
  exists t'. split_and!; [done | done |].
  apply (list_to_map_inj (M := gmap key)).
  - apply (wf_nodup _ Hwf').
  - rewrite fmap_cons. apply NoDup_cons. split; [done | apply (wf_nodup _ Hwf)].
  - exact Hm'.
Qed.

(** X10. [d[k]] on a CustomDefaultDict whose table was reached from a
    fresh one: a key that is present gives its value and leaves the
    container as it is; a key that is absent raises KeyError when there is
    no factory, and otherwise is stored with the value the factory builds,
    which is returned, the length growing by one. *)
Theorem default_getitem_stores_the_default
    (c : Z) (n m : nat) (ops : list (op V)) t (factory : option V) k :
  0 < c -> run n ops (__init__ c) = Ok t ->
  let d := {| table := t; default_factory := factory |} in
  (forall v, (k, v) ∈ items t -> default_getitem m d k = Ok (v, d)) /\
  (k ∉ keys t -> factory = None -> default_getitem m d k = Raise (KeyError k)) /\
  (forall made, k ∉ keys t -> factory = Some made ->
     exists t', default_getitem (S m) d k
                = Ok (made, {| table := t'; default_factory := factory |}) /\
       __getitem__ t' k = Ok made /\
       __len__ t' = __len__ t + 1 /\
       items t' ≡ₚ (k, made) :: items t).
Proof.
  intros Hc Hrun d. destruct (reached c n ops t Hc Hrun) as [Hwf Hload].
  split_and!.
  - intros v Hin. apply default_getitem_present; [done|]. by apply elem_of_items.
  - intros Hk Hf. by apply default_getitem_no_factory.
  - intros made Hk Hf.
    destruct (default_getitem_factory m d k made Hwf Hload Hk Hf)
      as (t' & Hget & Hwf' & Hperm).
    exists t'. split; [done|]. split_and!; [| |done].
    + apply (lookup_agrees_with_listing t' k made Hwf').
      rewrite Hperm. apply list_elem_of_here.
    + unfold __len__. rewrite (wf_size _ Hwf'), (wf_size _ Hwf), Hperm.
      simpl length. lia.
Qed.

(** X11. On a CustomDefaultDict with a factory the inherited [get] and
    [in] go through the overriding [__getitem__]: for a key that is absent
    [get(k, default)] returns what the factory builds, not [default], [k in
    d] is True, and either call leaves the key stored. Without a factory
    they answer [default] and False and store nothing. *)
Theorem default_factory_defeats_get_and_in
    (c : Z) (n m : nat) (ops : list (op V)) t k (default : V) :
  0 < c -> run n ops (__init__ c) = Ok t -> k ∉ keys t ->
  (forall made,
     let d := {| table := t; default_factory := Some made |} in
     exists t',
       default_get (S m) d k default
       = Ok (made, {| table := t'; default_factory := Some made |}) /\
       default_contains (S m) d k
       = Ok (true, {| table := t'; default_factory := Some made |}) /\
       k ∈ keys t' /\ __len__ t' = __len__ t + 1) /\
  (let d := {| table := t; default_factory := None |} in
   default_get m d k default = Ok (default, d) /\
   default_contains m d k = Ok (false, d)).
Proof.
  intros Hc Hrun Hk. destruct (reached c n ops t Hc Hrun) as [Hwf Hload]. split.
  - intros made d.
    destruct (default_getitem_factory m d k made Hwf Hload Hk eq_refl)
      as (t' & Hget & Hwf' & Hperm).
    exists t'. unfold default_get, default_contains. rewrite Hget.
    split_and!; [done | done | |].
    + unfold keys. rewrite Hperm, fmap_cons. apply list_elem_of_here.
    + unfold __len__. rewrite (wf_size _ Hwf'), (wf_size _ Hwf), Hperm.
      simpl length. lia.
  - intros d. unfold default_get, default_contains.
    by rewrite (default_getitem_no_factory m d k Hwf Hk eq_refl).
Qed.

End DefaultFacts.

(** Membership in a list that evaluates to a literal. *)
Ltac by_evaluation := apply (bool_decide_unpack _); vm_compute; exact I.

Lemma lookup_agrees_with_items_witness :
  exists d, run (H := int_hash) 1 scenario_ops (__init__ 4) = Ok d /\
    forall k, __contains__ (H := int_hash) d k = Ok (bool_decide (k ∈ keys d)).
Proof.
  eexists. split; [vm_compute; reflexivity|].
  refine (proj1 (proj2 (proj2
            (lookup_agrees_with_items (H := int_hash) 4 1 scenario_ops _ _ _)))).
  - lia.
  - vm_compute. reflexivity.
Defined.

Lemma overwrite_keeps_the_listing_witness :
  exists d, run (H := int_hash) 1 scenario_ops (__init__ 4) = Ok d /\
    exists d', __setitem__ (H := int_hash) 0 d (KStr "a") 5 = Ok d' /\
      keys d' = keys d /\ __getitem__ (H := int_hash) d' (KStr "a") = Ok 5.
Proof.
  eexists. split; [vm_compute; reflexivity|].
  match goal with
  | |- context [__setitem__ 0 ?d _ _] =>
      destruct (overwrite_keeps_the_listing (H := int_hash) 4 1 0 scenario_ops d
                  (KStr "a") 5) as (d' & Hset & Hkeys & _ & _ & Hget & _)
  end.
  - lia.
  - vm_compute. reflexivity.
  - by_evaluation.
  - exists d'. split; [exact Hset|]. split; [exact Hkeys | exact Hget].
Defined.

Lemma insert_adds_one_entry_witness :
  exists d, run (H := int_hash) 1 scenario_ops (__init__ 4) = Ok d /\
    exists d', __setitem__ (H := int_hash) 1 d (KStr "z") 9 = Ok d' /\
      __len__ d' = __len__ d + 1.
Proof.
  eexists. split; [vm_compute; reflexivity|].
  match goal with
  | |- context [__setitem__ 1 ?d _ _] =>
      destruct (insert_adds_one_entry (H := int_hash) 4 1 0 scenario_ops d
                  (KStr "z") 9) as (d' & Hset & Hlen & _)
  end.
  - lia.
  - vm_compute. reflexivity.
  - by_evaluation.
  - exists d'. split; [exact Hset | exact Hlen].
Defined.

Lemma delete_removes_one_entry_witness :
  exists d, run (H := int_hash) 1 scenario_ops (__init__ 4) = Ok d /\
    __delitem__ (H := int_hash) d (KStr "b") = Raise (KeyError (KStr "b")) /\
    exists d', __delitem__ (H := int_hash) d (KStr "a") = Ok d' /\
      items d' = filter (fun kv => kv.1 <> KStr "a") (items d).
Proof.
  eexists. split; [vm_compute; reflexivity|].
  match goal with
  | |- context [__delitem__ ?d (KStr "b")] =>
      destruct (delete_removes_one_entry (H := int_hash) 4 1 scenario_ops d (KStr "b"))
        as [_ Habsent];
      [lia | vm_compute; reflexivity |];
      destruct (delete_removes_one_entry (H := int_hash) 4 1 scenario_ops d (KStr "a"))
        as [Hpresent _];
      [lia | vm_compute; reflexivity |]
  end.
  split.
  - apply Habsent. by_evaluation.
  - destruct Hpresent as (d' & Hdel & Hitems & _); [by_evaluation|].
    exists d'. split; [exact Hdel | exact Hitems].
Defined.

Lemma clear_empties_and_keeps_the_capacity_witness :
  exists d, run (H := int_hash) 1 scenario_ops (__init__ 4) = Ok d /\
    capacity (clear d) = 8 /\
    __getitem__ (H := int_hash) (clear d) (KStr "a") = Raise (KeyError (KStr "a")).
Proof.
  eexists. split; [vm_compute; reflexivity|].
  match goal with
  | |- context [clear ?d] =>
      destruct (clear_empties_and_keeps_the_capacity (H := int_hash) 4 1 scenario_ops d)
        as (_ & _ & Hcap & _ & Hget & _)
  end.
  - lia.
  - vm_compute. reflexivity.
  - split; [rewrite Hcap; reflexivity | apply Hget].
Defined.

Lemma capacity_only_doubles_witness :
  exists d, run (H := int_hash) 1 scenario_ops (__init__ 4) = Ok d /\
    (exists j : nat, (j <= 4)%nat /\ capacity d = 4 * 2 ^ Z.of_nat j) /\
    exists d', _resize (H := int_hash) 0 d = Ok d' /\ capacity d' = 2 * capacity d.
Proof.
  eexists. split; [vm_compute; reflexivity|].
  match goal with
  | |- context [_resize 0 ?d] =>
      destruct (capacity_only_doubles (H := int_hash) 4 1 scenario_ops d)
        as (Hpow & _ & _ & Hresize)
  end.
  - lia.
  - vm_compute. reflexivity.
  - split; [exact Hpow|]. destruct (Hresize 0%nat) as (d' & Hrs & Hcap & _).
    exists d'. split; [exact Hrs | exact Hcap].
Defined.

Lemma no_buckets_no_service_witness :
  get (H := int_hash) (__init__ 0) (KStr "ab") 9 = Raise ZeroDivisionError /\
  __contains__ (H := int_hash) (__init__ (-3) : CustomDictionary Z) (KInt 5)
  = Raise IndexError.
Proof.
  split.
  - refine (proj1 (proj2 (proj2 (proj2 (proj2 (proj2
              (no_buckets_no_service (H := int_hash) 0 0 (KStr "ab") 1 9 _))))))).
    lia.
  - refine (proj2 (proj2 (proj2 (proj2 (proj2 (proj2
              (no_buckets_no_service (H := int_hash) (-3) 0 (KInt 5) 1 9 _))))))).
    lia.
Defined.

Lemma hash_is_the_polynomial_residue_witness :
  _hash (H := int_hash) (__init__ 1024 : CustomDictionary Z) (KStr "ab")
  = Ok ((97 * 31 + 98) mod 1024).
Proof.
  refine (proj1 (hash_is_the_polynomial_residue (H := int_hash)
                   (__init__ 1024 : CustomDictionary Z) _) "ab"%string).
  simpl. lia.
Defined.

Lemma set_then_delete_restores_witness :
  exists d, run (H := int_hash) 1 scenario_ops (__init__ 4) = Ok d /\
    exists d1 d2,
      __setitem__ (H := int_hash) 1 d (KStr "z") 9 = Ok d1 /\
      __delitem__ (H := int_hash) d1 (KStr "z") = Ok d2 /\
      (capacity d1 = capacity d -> d2 = d).
Proof.
  eexists. split; [vm_compute; reflexivity|].
  match goal with
  | |- context [__setitem__ 1 ?d _ _] =>
      destruct (set_then_delete_restores (H := int_hash) 4 1 0 scenario_ops d
                  (KStr "z") 9) as (d1 & d2 & Hset & Hdel & _ & _ & _ & Hsame)
  end.
  - lia.
  - vm_compute. reflexivity.
  - by_evaluation.
  - exists d1, d2. split; [exact Hset|]. split; [exact Hdel | exact Hsame].
Defined.

Lemma default_getitem_stores_the_default_witness :
  exists t, run (H := int_hash) 1 scenario_ops (__init__ 4) = Ok t /\
    default_getitem (H := int_hash) 0 {| table := t; default_factory := None |} (KStr "b")
    = Raise (KeyError (KStr "b")) /\
    exists t', default_getitem (H := int_hash) 1
                 {| table := t; default_factory := Some 0 |} (KStr "b")
               = Ok (0, {| table := t'; default_factory := Some 0 |}) /\
      __len__ t' = __len__ t + 1.
Proof.
  eexists. split; [vm_compute; reflexivity|].
  match goal with
  | |- context [{| table := ?t; default_factory := None |}] =>
      destruct (default_getitem_stores_the_default (H := int_hash) 4 1 0 scenario_ops t
                  None (KStr "b")) as (_ & Hnone & _);
      [lia | vm_compute; reflexivity |];
      destruct (default_getitem_stores_the_default (H := int_hash) 4 1 0 scenario_ops t
                  (Some 0) (KStr "b")) as (_ & _ & Hsome);
      [lia | vm_compute; reflexivity |]
  end.
  split.
  - apply Hnone; [by_evaluation | reflexivity].
  - destruct (Hsome 0) as (t' & Hget & _ & Hlen & _); [by_evaluation | reflexivity |].
    exists t'. split; [exact Hget | exact Hlen].
Defined.

Lemma default_factory_defeats_get_and_in_witness :
  exists t, run (H := int_hash) 1 scenario_ops (__init__ 4) = Ok t /\
    exists t',
      default_get (H := int_hash) 1 {| table := t; default_factory := Some 0 |}
        (KStr "b") 7
      = Ok (0, {| table := t'; default_factory := Some 0 |}) /\
      default_contains (H := int_hash) 1 {| table := t; default_factory := Some 0 |}
        (KStr "b")
      = Ok (true, {| table := t'; default_factory := Some 0 |}).
Proof.
  eexists. split; [vm_compute; reflexivity|].
  match goal with
  | |- context [{| table := ?t; default_factory := _ |}] =>
      destruct (default_factory_defeats_get_and_in (H := int_hash) 4 1 0 scenario_ops t
                  (KStr "b") 7) as [Hsome _]
  end.
  - lia.
  - vm_compute. reflexivity.
  - by_evaluation.
  - destruct (Hsome 0) as (t' & Hget & Hin & _).
    exists t'. split; [exact Hget | exact Hin].
Defined.

(** ** Both files: titles, and finding a document that was added *)

Section TitleFacts.

Lemma lower_char_idem (c : ascii) : lower_char (lower_char c) = lower_char c.
Proof.
  destruct c as [b0 b1 b2 b3 b4 b5 b6 b7].
  destruct b0, b1, b2, b3, b4, b5, b6, b7; reflexivity.
Qed.

Lemma lower_idem (s : string) : lower (lower s) = lower s.
Proof.
  induction s as [|c s IH]; [done|]. simpl. by rewrite lower_char_idem, IH.
Qed.

Lemma str_in_nil (hay : string) : str_in EmptyString hay = true.
Proof. apply str_in_spec. by exists EmptyString, hay. Qed.

Lemma append_nil_r (s : string) : s +:+ EmptyString = s.
Proof. induction s as [|c s IH]; [done|]. rewrite append_cons. by f_equal. Qed.

Lemma str_in_refl (s : string) : str_in s s = true.
Proof.
  apply str_in_spec. exists EmptyString, EmptyString.
  change (s = s +:+ EmptyString). by rewrite append_nil_r.
Qed.

(** X12. [search_by_title] returns, in the order of the document store, the
    titles whose lower-cased form contains the lower-cased query as a
    substring; the case of the query does not matter and the empty query
    returns every title. In Indexing_App.py the store is the custom
    container and its order that of [keys()]. *)
Theorem search_by_title_finds_substrings :
  (forall (e : Indexing.SearchEngine) query,
     (forall doc_id, doc_id ∈ Indexing.search_by_title e query <->
        doc_id ∈ (Indexing.documents e).*1 /\
        exists pre post, lower doc_id = pre +:+ lower query +:+ post) /\
     Indexing.search_by_title e query `sublist_of` (Indexing.documents e).*1 /\
     Indexing.search_by_title e EmptyString = (Indexing.documents e).*1 /\
     Indexing.search_by_title e (lower query) = Indexing.search_by_title e query) /\
  (forall (e : IndexingApp.SearchEngine) query,
     (forall title, KStr title ∈ IndexingApp.search_by_title e query <->
        KStr title ∈ keys (IndexingApp.documents e) /\
        exists pre post, lower title = pre +:+ lower query +:+ post) /\
     IndexingApp.search_by_title e query `sublist_of` keys (IndexingApp.documents e) /\
     IndexingApp.search_by_title e (lower query) = IndexingApp.search_by_title e query).
Proof.
  split.
  - intros e query. unfold Indexing.search_by_title. split_and!.
    + intros doc_id. rewrite list_elem_of_filter, str_in_spec. tauto.
    + apply sublist_filter.
    + induction (Indexing.documents e).*1 as [|t l IH]; [done|].
      rewrite filter_cons, decide_True by apply str_in_nil. by rewrite IH.
    + by rewrite lower_idem.
  - intros e query. unfold IndexingApp.search_by_title. split_and!.
    + intros title. rewrite list_elem_of_filter. simpl. rewrite str_in_spec. tauto.
    + apply sublist_filter.
    + unfold IndexingApp.title_matches. by rewrite lower_idem.
Qed.

End TitleFacts.

Section AddedDocument.

Context `{PyHash} `{NLP} {F : Type} `{FloatOps F}.

Lemma phrase_match_refl (content : string) : Indexing.phrase_match content content = true.
Proof. apply phrase_match_iff. exists [], []. by rewrite app_nil_r. Qed.

Lemma dict_set_titles {A} (d : pydict A) k v :
  (dict_set d k v).*1 = if decide (k ∈ d.*1) then d.*1 else d.*1 ++ [k].
Proof.
  induction d as [|[k' v'] d IH].
  - case_decide as Hin; [by apply elem_of_nil in Hin | done].
  - cbn [dict_set]. destruct (decide (k' = k)) as [->|Hne]; rewrite !fmap_cons; cbn [fst].
    + by rewrite decide_True by apply list_elem_of_here.
    + rewrite IH. destruct (decide (k ∈ d.*1)) as [Hin|Hin].
      * by rewrite decide_True by by apply list_elem_of_further.
      * rewrite decide_False; [done|]. rewrite elem_of_cons. intros [->|?]; done.
Qed.

(** X13. A document that was added is found by its title and by its own
    content. In indexing.py [add_document] stores the content under the
    title, a new title going to the end of the listing and a known title
    keeping its place, and rebuilds the index. In Indexing_App.py it stores
    the document and leaves the index as it is, and the document is found
    all the same, by the phrase phase. *)
Theorem added_document_is_found (title content : string) :
  (forall (threshold : F) (e : Indexing.SearchEngine),
     exists e', Indexing.add_document threshold e title content = Ok e' /\
       dict_get (Indexing.documents e') title = Some content /\
       (Indexing.documents e').*1
       = (if decide (title ∈ (Indexing.documents e).*1)
          then (Indexing.documents e).*1
          else (Indexing.documents e).*1 ++ [title]) /\
       title ∈ Indexing.search_by_title e' title /\
       exists found, Indexing.search_by_content e' content = Ok found /\
         title ∈ found) /\
  (forall (c : Z) (n m : nat) (ops : list (op string)) docs idx,
     0 < c -> run n ops (__init__ c) = Ok docs ->
     exists e',
       IndexingApp.add_document (S m) {| IndexingApp.index := idx;
                                         IndexingApp.documents := docs |} title content
       = Ok e' /\
       IndexingApp.index e' = idx /\
       __getitem__ (IndexingApp.documents e') (KStr title) = Ok content /\
       KStr title ∈ IndexingApp.search_by_title e' title /\
       forall depth, exists found,
         IndexingApp.search_by_content depth e' content = Ok (found, e') /\
         KStr title ∈ found).
Proof.
  split.
  - intros threshold e. unfold Indexing.add_document.
    destruct (indexing_update_index threshold
                {| Indexing.index := Indexing.index e;
                   Indexing.documents := dict_set (Indexing.documents e) title content |})
      as (e' & Hrun & Hdocs & _).
    simpl in Hdocs. exists e'. split; [done|]. rewrite Hdocs.
    assert ((title, content) ∈ dict_set (Indexing.documents e) title content) as Hin.
    { apply dict_get_elem, dict_get_set_eq. }
    split_and!.
    + apply dict_get_set_eq.
    + apply dict_set_titles.
    + unfold Indexing.search_by_title. rewrite Hdocs. apply list_elem_of_filter.
      split; [apply str_in_refl|]. apply list_elem_of_fmap. by exists (title, content).
    + assert (title ∈ Indexing.phrase_matches e' content) as Hpm.
      { apply elem_of_phrase_matches. exists content. rewrite Hdocs.
        split; [done | apply phrase_match_refl]. }
      exists (Indexing.phrase_matches e' content). split; [|done].
      unfold Indexing.search_by_content. rewrite decide_False; [done|].
      intros Hempty. rewrite Hempty in Hpm. by apply not_elem_of_empty in Hpm.
  - intros c n m ops docs idx Hc Hrun.
    destruct (reached c n ops docs Hc Hrun) as [Hwf Hload].
    destruct (setitem_spec m docs (KStr title) content Hwf Hload)
      as (docs' & Hset & Hwf' & _ & Hm' & _).
    exists {| IndexingApp.index := idx; IndexingApp.documents := docs' |}.
    assert ((KStr title, content) ∈ items docs') as Hin.
    { apply (elem_of_items docs' _ _ Hwf'). by rewrite Hm', lookup_insert_eq. }
    split_and!.
    + unfold IndexingApp.add_document. cbn [IndexingApp.documents IndexingApp.index].
      by rewrite Hset.
    + done.
    + simpl. by rewrite (getitem_to_map docs' _ Hwf'), Hm', lookup_insert_eq.
    + unfold IndexingApp.search_by_title. apply list_elem_of_filter. simpl.
      split; [apply str_in_refl|]. unfold keys. apply list_elem_of_fmap.
      by exists (KStr title, content).
    + intros depth.
      set (e' := {| IndexingApp.index := idx; IndexingApp.documents := docs' |}).
      assert (KStr title ∈ IndexingApp.phrase_matches e' content) as Hpm.
      { unfold IndexingApp.phrase_matches. rewrite elem_of_list_to_set.
        apply list_elem_of_fmap. exists (KStr title, content). split; [done|].
        apply list_elem_of_filter. split; [apply phrase_match_refl | done]. }
      exists (IndexingApp.phrase_matches e' content). split; [|done].
      unfold IndexingApp.search_by_content. rewrite decide_False; [done|].
      intros Hempty. rewrite Hempty in Hpm. by apply not_elem_of_empty in Hpm.
Qed.

End AddedDocument.

Lemma added_document_is_found_witness :
  exists e',
    IndexingApp.add_document (H := int_hash) 1
      {| IndexingApp.index := default_init (Some []) 1024;
         IndexingApp.documents := __init__ 1024 |} "d1" "cat mat"
    = Ok e' /\
    KStr "d1" ∈ IndexingApp.search_by_title e' "d1".
Proof.
  destruct (proj2 (added_document_is_found (H := int_hash) (H0 := toy_nlp) (F := R)
                     "d1" "cat mat")
              1024 1%nat 0%nat [] (__init__ 1024) (default_init (Some []) 1024))
    as (e' & Hadd & _ & _ & Htitle & _).
  - lia.
  - reflexivity.
  - exists e'. split; [exact Hadd | exact Htitle].
Defined.

(** ** indexing.py: the scores of one document *)

Section ScoreFacts.

Context {F : Type} `{FloatOps F}.
Import Indexing.

(** The score that the loop of [calculate_tfidf] stores for a word. *)
Lemma calculate_tfidf_run (tf idf : pydict F) (words : list string) :
  forall acc : pydict F,
  (forall w, w ∈ words -> dict_contains idf w = true -> is_Some (dict_get tf w)) ->
  exists r,
    for_each (fun tfidf word =>
                if dict_contains idf word then
                  t ← dict_getitem tf word;
                  i ← dict_getitem idf word;
                  Ok (dict_set tfidf word (fmul t i))
                else Ok tfidf) words acc = Ok r /\
    (NoDup acc.*1 -> NoDup r.*1) /\
    forall w, dict_get r w
              = match dict_get tf w, dict_get idf w with
                | Some t, Some i => if decide (w ∈ words) then Some (fmul t i)
                                    else dict_get acc w
                | _, _ => dict_get acc w
                end.
Proof.
  induction words as [|x words IH]; intros acc Htf.
  - exists acc. split_and!; [done | done |]. intros w.
    by destruct (dict_get tf w), (dict_get idf w).
  - assert (x ∈ x :: words) as Hx by apply list_elem_of_here.
    assert (forall w, w ∈ words -> dict_contains idf w = true -> is_Some (dict_get tf w))
      as Htf' by (intros w Hw; apply Htf; by apply list_elem_of_further).
    simpl. unfold dict_contains at 1.
    destruct (dict_get idf x) as [i|] eqn:Ei.
    + rewrite bool_decide_eq_true_2 by by eexists.
      destruct (Htf x Hx) as [t Et].
      { unfold dict_contains. rewrite Ei. apply bool_decide_eq_true_2. by eexists. }
      unfold dict_getitem. rewrite Et, Ei. simpl.
      destruct (IH (dict_set acc x (fmul t i)) Htf') as (r & Hrun & Hnd & Hget).
      exists r. split_and!; [done | by intros; apply Hnd, dict_set_nodup |].
      intros w. rewrite Hget.
      destruct (dict_get tf w) as [t'|] eqn:Et'; destruct (dict_get idf w) as [i'|] eqn:Ei';
        try (rewrite dict_get_set_ne; [done | congruence]).
      destruct (decide (w ∈ words)) as [Hin|Hin].
      * by rewrite decide_True by by apply list_elem_of_further.
      * destruct (decide (w = x)) as [->|Hne].
        -- rewrite decide_True by done. rewrite dict_get_set_eq. congruence.
        -- rewrite decide_False by (rewrite elem_of_cons; tauto).
           by rewrite dict_get_set_ne.
    + rewrite bool_decide_eq_false_2 by (by intros [? ?]). simpl.
      destruct (IH acc Htf') as (r & Hrun & Hnd & Hget).
      exists r. split_and!; [done | done |]. intros w. rewrite Hget.
      destruct (dict_get tf w) as [t'|] eqn:Et'; destruct (dict_get idf w) as [i'|] eqn:Ei';
        try done.
      destruct (decide (w ∈ words)) as [Hin|Hin].
      * by rewrite decide_True by by apply list_elem_of_further.
      * rewrite decide_False; [done|]. rewrite elem_of_cons. intros [->|?]; congruence.
Qed.

(** X14. [calculate_tfidf] scores the words of the document that [idf]
    knows and skips the others. It returns when [tf] has a frequency for
    every such word, as the [tf] that [calculate_tf] builds from the same
    words always has; at the first word that [idf] knows and [tf] does not
    it raises KeyError for that word. *)
Theorem calculate_tfidf_needs_the_frequencies (doc_words : list string) (tf idf : pydict F) :
  ((forall w, w ∈ doc_words -> dict_contains idf w = true -> is_Some (dict_get tf w)) ->
   exists tfidf, calculate_tfidf doc_words tf idf = Ok tfidf /\
     NoDup tfidf.*1 /\
     forall w, dict_get tfidf w
               = match dict_get tf w, dict_get idf w with
                 | Some t, Some i => if decide (w ∈ doc_words) then Some (fmul t i)
                                     else None
                 | _, _ => None
                 end) /\
  (forall pre w post, doc_words = pre ++ w :: post ->
     (forall x, x ∈ pre -> dict_contains idf x = true -> is_Some (dict_get tf x)) ->
     dict_contains idf w = true -> dict_get tf w = None ->
     calculate_tfidf doc_words tf idf = Raise (KeyError (KStr w))) /\
  (exists tfidf, calculate_tfidf doc_words (calculate_tf doc_words) idf = Ok tfidf).
Proof.
  split_and!.
  - intros Htf. destruct (calculate_tfidf_run tf idf doc_words [] Htf) as (r & Hrun & Hnd & Hget).
    exists r. split_and!; [done | apply Hnd; constructor |].
    intros w. rewrite Hget. simpl. by destruct (dict_get tf w), (dict_get idf w).
  - intros pre w post -> Hpre Hidf Htf. unfold calculate_tfidf.
    generalize ([] : pydict F). induction pre as [|x pre IH]; intros acc.
    + simpl. unfold dict_getitem. by rewrite Hidf, Htf.
    + simpl. destruct (dict_contains idf x) eqn:Ex.
      * destruct (Hpre x) as [t Et]; [apply list_elem_of_here | done |].
        unfold dict_contains in Ex. apply bool_decide_eq_true in Ex.
        destruct Ex as [i Ei]. unfold dict_getitem at 1 2. rewrite Et, Ei. simpl.
        apply IH. intros y Hy. apply Hpre. by apply list_elem_of_further.
      * simpl. apply IH. intros y Hy. apply Hpre. by apply list_elem_of_further.
  - destruct (calculate_tfidf_run (calculate_tf doc_words) idf doc_words [])
      as (r & Hrun & _).
    + intros w Hw _. rewrite calculate_tf_get by done. by eexists.
    + by exists r.
Qed.

End ScoreFacts.

Lemma calculate_tfidf_needs_the_frequencies_witness :
  Indexing.calculate_tfidf (F := R) ["cat"; "mat"]%string [("cat", 1%R)]
    [("cat", 2%R); ("mat", 3%R)]
  = Raise (KeyError (KStr "mat")).
Proof.
  apply (proj1 (proj2 (calculate_tfidf_needs_the_frequencies (F := R)
                         ["cat"; "mat"]%string [("cat", 1%R)]
                         [("cat", 2%R); ("mat", 3%R)]))
           ["cat"%string] "mat"%string []).
  - reflexivity.
  - intros x Hx _. apply list_elem_of_singleton in Hx. subst x. by eexists.
  - reflexivity.
  - reflexivity.
Defined.

(** ** Both files: terms that most documents share *)

Section CommonTerms.

Context `{PyHash} `{NLP}.

Lemma filter_none {A} (P : A -> Prop) `{forall x, Decision (P x)} (l : list A) :
  (forall x, x ∈ l -> ~ P x) -> filter P l = [].
Proof.
  induction l as [|x l IH]; intros Hall; [done|].
  rewrite filter_cons, decide_False by apply Hall, list_elem_of_here.
  apply IH. intros y Hy. by apply Hall, list_elem_of_further.
Qed.

Lemma ln_at_most_one (x : R) : (x <= 1)%R -> (ln x <= 0)%R.
Proof.
  intros Hx. destruct (Rlt_dec 0 x) as [Hpos|Hneg].
  - rewrite <- ln_1. destruct (Req_dec x 1) as [->|Hne]; [lra|].
    left. apply ln_increasing; lra.
  - unfold ln. destruct (Rlt_dec 0 x); [done | lra].
Qed.

(** Over the reals the score of a term that all documents but at most one
    contain is not positive. *)
Lemma common_term_not_significant (threshold : R) (corpus : list (list string))
    (doc_words : list string) (term : string) :
  (0 <= threshold)%R ->
  Z.of_nat (length corpus) <= 1 + Indexing.document_frequency term corpus ->
  Indexing.significant threshold corpus doc_words term = false.
Proof.
  intros Hthr Hdf. unfold Indexing.significant, Indexing.tfidf_score.
  case_decide as Hin; [|done]. simpl.
  destruct (Rlt_dec threshold _) as [Hlt|]; [|done]. exfalso.
  unfold Indexing.idf_value, truediv in Hlt. simpl in Hlt. unfold R_truediv in Hlt.
  set (occ := Indexing.occurrences term doc_words) in *.
  set (df := Indexing.document_frequency term corpus) in *.
  assert (0 <= IZR occ / IZR (Z.of_nat (length doc_words)))%R as Htf.
  { apply Rle_mult_inv_pos.
    - apply IZR_le. unfold occ, Indexing.occurrences. lia.
    - apply IZR_lt. destruct doc_words; [by apply elem_of_nil in Hin | simpl; lia]. }
  assert (ln (IZR (Z.of_nat (length corpus)) / IZR (1 + df)) <= 0)%R as Hidf.
  { apply ln_at_most_one.
    assert (0 < IZR (1 + df))%R as Hpos.
    { apply IZR_lt. unfold df, Indexing.document_frequency. lia. }
    apply (Rmult_le_reg_r (IZR (1 + df))); [done|].
    unfold Rdiv. rewrite Rmult_assoc, Rinv_l, Rmult_1_r, Rmult_1_l by lra.
    by apply IZR_le. }
  nra.
Qed.

Lemma document_frequency_pos term (doc_words : list string) corpus :
  doc_words ∈ corpus -> term ∈ doc_words -> 1 <= Indexing.document_frequency term corpus.
Proof.
  intros Hdoc Hterm. unfold Indexing.document_frequency.
  assert (doc_words ∈ filter (fun ws => term ∈ ws) corpus) as Hin
    by by apply list_elem_of_filter.
  destruct (filter (fun ws => term ∈ ws) corpus); [by apply elem_of_nil in Hin|].
  simpl. lia.
Qed.

(** In a corpus of at most two documents no term is significant. *)
Lemma small_corpus_not_significant (threshold : R) (corpus : list (list string))
    (doc_words : list string) (term : string) :
  (0 <= threshold)%R -> (length corpus <= 2)%nat -> doc_words ∈ corpus ->
  Indexing.significant threshold corpus doc_words term = false.
Proof.
  intros Hthr Hlen Hdoc. destruct (decide (term ∈ doc_words)) as [Hin|Hin].
  - apply common_term_not_significant; [done|].
    pose proof (document_frequency_pos term doc_words corpus Hdoc Hin). lia.
  - unfold Indexing.significant, Indexing.tfidf_score. by rewrite decide_False.
Qed.

(** X15. Over the reals and for a threshold that is not negative, as 0.1
    and 0.01 are, a rebuild never lists a term that all documents but at
    most one contain: its idf [ln(N / (1 + df))] is not positive. So the
    rebuilt index of a corpus of one or two documents lists nothing, in
    both files. *)
Theorem common_terms_are_never_indexed (threshold : R) :
  (0 <= threshold)%R ->
  (forall e : Indexing.SearchEngine,
     exists e', Indexing.update_index threshold e = Ok e' /\
       (forall term,
          Z.of_nat (length (Indexing.documents e))
          <= 1 + Indexing.document_frequency term
                   ((fun dc => Indexing.extract_nouns_and_entities dc.2)
                      <$> Indexing.documents e) ->
          dict_get_default (Indexing.index e') term [] = []) /\
       ((length (Indexing.documents e) <= 2)%nat ->
        forall term, dict_get_default (Indexing.index e') term [] = [])) /\
  (forall depth (e : IndexingApp.SearchEngine),
     IndexingApp.index_ok (IndexingApp.index e) ->
     exists e', IndexingApp.update_index (S depth) threshold e = Ok e' /\
       (forall term,
          Z.of_nat (length (items (IndexingApp.documents e)))
          <= 1 + Indexing.document_frequency term
                   ((fun dc => Indexing.extract_nouns_and_entities dc.2)
                      <$> items (IndexingApp.documents e)) ->
          IndexingApp.posting_list (IndexingApp.index e') (KStr term) = []) /\
       ((length (items (IndexingApp.documents e)) <= 2)%nat ->
        forall k, IndexingApp.posting_list (IndexingApp.index e') k = [])).
Proof.
  intros Hthr. split.
  - intros e. destruct (indexing_update_index threshold e) as (e' & Hrun & _ & Hget & _).
    exists e'. split; [done|]. split.
    + intros term Hdf. rewrite Hget, filter_none; [done|].
      intros dc _. rewrite common_term_not_significant; [done | done |].
      by rewrite length_fmap.
    + intros Hlen term. rewrite Hget, filter_none; [done|].
      intros dc Hdc. rewrite small_corpus_not_significant; [done | done | |].
      * by rewrite length_fmap.
      * apply list_elem_of_fmap. by exists dc.
  - intros depth e Hok.
    destruct (app_update_index depth threshold e Hok) as (e' & Hrun & _ & _ & Hget).
    exists e'. split; [done|]. split.
    + intros term Hdf. rewrite Hget, filter_none; [done|].
      intros dc _. simpl. rewrite common_term_not_significant; [done | done |].
      by rewrite length_fmap.
    + intros Hlen k. rewrite Hget, filter_none; [done|].
      intros dc Hdc. destruct k as [term|z]; simpl; [|done].
      rewrite small_corpus_not_significant; [done | done | |].
      * by rewrite length_fmap.
      * apply list_elem_of_fmap. by exists dc.
Qed.

End CommonTerms.

Lemma common_terms_are_never_indexed_witness :
  exists e', Indexing.update_index (H := toy_nlp) (F := R) (1 / 10)%R toy_corpus = Ok e' /\
    forall term, dict_get_default (Indexing.index e') term [] = [].
Proof.
  assert (0 <= 1 / 10)%R as Hthr by lra.
  destruct (proj1 (common_terms_are_never_indexed (H := int_hash) (H0 := toy_nlp)
                     (1 / 10)%R Hthr) toy_corpus)
    as (e' & Hrun & _ & Hsmall).
  exists e'. split; [exact Hrun|]. apply Hsmall. simpl. lia.
Defined.

(** ** Both files: phrase matching as an order on texts *)

Section PhraseOrder.

Context `{NLP}.

(** X16. [phrase_match] is reflexive and transitive, does not depend on
    the case of either text, and never holds for a query with more tokens
    than the content. *)
Theorem phrase_match_is_a_preorder :
  (forall content, Indexing.phrase_match content content = true) /\
  (forall a b c, Indexing.phrase_match a b = true -> Indexing.phrase_match b c = true ->
     Indexing.phrase_match a c = true) /\
  (forall content query,
     Indexing.phrase_match (lower content) (lower query)
     = Indexing.phrase_match content query) /\
  (forall content query,
     (length (word_tokenize (lower content)) < length (word_tokenize (lower query)))%nat ->
     Indexing.phrase_match content query = false).
Proof.
  split_and!.
  - apply phrase_match_refl.
  - intros a b c Hab Hbc. apply phrase_match_iff in Hab, Hbc. apply phrase_match_iff.
    destruct Hab as (p1 & q1 & ->). destruct Hbc as (p2 & q2 & ->).
    exists (p1 ++ p2), (q2 ++ q1). by rewrite <- !app_assoc.
  - intros content query. unfold Indexing.phrase_match. by rewrite !lower_idem.
  - intros content query Hlen.
    destruct (Indexing.phrase_match content query) eqn:E; [|done].
    apply phrase_match_iff in E. destruct E as (pre & post & E).
    rewrite E, !length_app in Hlen. lia.
Qed.

End PhraseOrder.

Lemma phrase_match_is_a_preorder_witness :
  Indexing.phrase_match (H := toy_nlp) "The cat sat on the mat" "the mat" = true.
Proof.
  apply (proj1 (proj2 (phrase_match_is_a_preorder (H := toy_nlp)))
           "The cat sat on the mat" "on the mat" "the mat")%string;
    vm_compute; reflexivity.
Defined.

(** ** Both files: the expansion of a query *)

Section Expansion.

Context `{NLP}.

Lemma synonyms_fold (tokens : list string) : forall (acc : gset string) t,
  t ∈ fold_left (fun acc word => acc ∪ Indexing.get_synonyms word) tokens acc <->
  t ∈ acc \/ exists w, w ∈ tokens /\ t ∈ Indexing.get_synonyms w.
Proof.
  induction tokens as [|x tokens IH]; intros acc t; simpl.
  - split; [auto|]. intros [?|(w & Hw & _)]; [done|]. by apply elem_of_nil in Hw.
  - rewrite IH, elem_of_union. split.
    + intros [[?|?]|(w & Hw & Ht)]; [by left | right | right].
      * exists x. split; [apply list_elem_of_here | done].
      * exists w. split; [by apply list_elem_of_further | done].
    + intros [?|(w & Hw & Ht)]; [by left; left|].
      apply elem_of_cons in Hw. destruct Hw as [->|Hw]; [by left; right|].
      right. by exists w.
Qed.

(** X17. [expand_query_with_synonyms] returns, without repetition, the
    tokens of the query as they were given and the lower-cased names of the
    lemmas of every synset of every token, and nothing else. *)
Theorem expanded_query_members (query_tokens : list string) :
  NoDup (Indexing.expand_query_with_synonyms query_tokens) /\
  (forall t, t ∈ Indexing.expand_query_with_synonyms query_tokens <->
     t ∈ query_tokens \/
     exists w syn name, w ∈ query_tokens /\ syn ∈ synsets w /\ name ∈ syn /\
       t = lower name).
Proof.
  assert (forall t, t ∈ Indexing.expand_query_with_synonyms query_tokens <->
            t ∈ query_tokens \/
            exists w syn name, w ∈ query_tokens /\ syn ∈ synsets w /\ name ∈ syn /\
              t = lower name) as Hmem.
  { intros t. unfold Indexing.expand_query_with_synonyms.
    rewrite elem_of_elements, synonyms_fold, elem_of_list_to_set.
    apply or_iff_compat_l. unfold Indexing.get_synonyms. split.
    - intros (w & Hw & Ht). rewrite elem_of_list_to_set, list_elem_of_fmap in Ht.
      destruct Ht as (name & -> & Hname).
      apply list_elem_of_In, in_concat in Hname. destruct Hname as (syn & Hsyn & Hname).
      apply list_elem_of_In in Hsyn, Hname. by exists w, syn, name.
    - intros (w & syn & name & Hw & Hsyn & Hname & ->). exists w. split; [done|].
      rewrite elem_of_list_to_set, list_elem_of_fmap. exists name. split; [done|].
      apply list_elem_of_In, in_concat. exists syn.
      split; by apply list_elem_of_In. }
  split; [apply NoDup_elements | exact Hmem].
Qed.

End Expansion.

(** ** Both files: a content query returns stored documents *)

Section StoredResults.

Context `{PyHash} `{NLP} {F : Type} `{FloatOps F}.

(** The loop of indexing.py that filters the noun matches by the other
    tokens of the query. *)
Lemma filter_loop (docs : pydict string) (tokens : list string) (ids : list string) :
  forall acc : gset string,
  (forall d, d ∈ ids -> d ∈ docs.*1) ->
  exists found,
    for_each (fun matching doc_id =>
                content ← dict_getitem docs doc_id;
                if Indexing.contains_all tokens (lower content)
                then Ok (matching ∪ {[doc_id]})
                else Ok matching) ids acc = Ok found /\
    forall d, d ∈ found -> d ∈ acc \/ d ∈ ids.
Proof.
  induction ids as [|x ids IH]; intros acc Hids.
  - exists acc. split; [done | auto].
  - assert (exists content, dict_get docs x = Some content) as [content Hx].
    { destruct (dict_get docs x) as [content|] eqn:Ex; [by eexists|].
      apply dict_get_None in Ex. destruct Ex. apply Hids, list_elem_of_here. }
    assert (forall d, d ∈ ids -> d ∈ docs.*1) as Hids'
      by (intros d Hd; by apply Hids, list_elem_of_further).
    simpl. unfold dict_getitem at 1. rewrite Hx. simpl.
    destruct (Indexing.contains_all tokens (lower content)).
    + destruct (IH (acc ∪ {[x]}) Hids') as (found & Hrun & Hsub).
      exists found. split; [done|]. intros d Hd. apply Hsub in Hd.
      rewrite elem_of_union, elem_of_singleton in Hd. rewrite elem_of_cons. tauto.
    + destruct (IH acc Hids') as (found & Hrun & Hsub).
      exists found. split; [done|]. intros d Hd. apply Hsub in Hd.
      rewrite elem_of_cons. tauto.
Qed.

Lemma noun_matching_posted (idx : pydict (list string)) (tokens : list string) d :
  d ∈ Indexing.noun_matching idx tokens ->
  exists term, d ∈ dict_get_default idx term [].
Proof.
  destruct tokens as [|first others]; simpl.
  - by intros ?%not_elem_of_empty.
  - intros Hd. apply noun_matching_loop in Hd. destruct Hd as [Hd _].
    exists first. by apply elem_of_list_to_set in Hd.
Qed.

(** X18. In indexing.py a content query on an index whose posting lists
    name stored documents only returns, for every query, and returns stored
    titles only; the lookup [self.documents[doc_id]] of the filtering loop
    cannot raise KeyError. The index that [update_index] builds, and so the
    one [add_document] leaves, is such an index. *)
Theorem search_by_content_returns_stored_titles :
  (forall (e : Indexing.SearchEngine) query,
     (forall term d, d ∈ dict_get_default (Indexing.index e) term [] ->
        d ∈ (Indexing.documents e).*1) ->
     exists found, Indexing.search_by_content e query = Ok found /\
       forall d, d ∈ found -> d ∈ (Indexing.documents e).*1) /\
  (forall (threshold : F) (e e' : Indexing.SearchEngine),
     Indexing.update_index threshold e = Ok e' ->
     forall term d, d ∈ dict_get_default (Indexing.index e') term [] ->
       d ∈ (Indexing.documents e').*1).
Proof.
  split.
  - intros e query Hidx. unfold Indexing.search_by_content.
    case_decide as Hphrase.
    2:{ eexists. split; [reflexivity|]. intros d Hd.
        apply elem_of_phrase_matches in Hd. destruct Hd as (content & Hin & _).
        apply list_elem_of_fmap. by exists (d, content). }
    case_decide as Hnouns.
    { eexists. split; [reflexivity|]. intros d Hd.
      apply elem_of_substring_matches in Hd. destruct Hd as (content & Hin & _).
      apply list_elem_of_fmap. by exists (d, content). }
    assert (forall d, d ∈ Indexing.noun_matching (Indexing.index e)
                            (Indexing.expanded_noun_tokens query) ->
                      d ∈ (Indexing.documents e).*1) as Hstored.
    { intros d Hd. apply noun_matching_posted in Hd. destruct Hd as [term Hd].
      by apply (Hidx term). }
    destruct (filter (fun wp => Indexing.is_noun_tag wp.2 = false)
                (pos_tag (word_tokenize (lower query)))).*1 as [|token tokens] eqn:Et.
    + eexists. split; [reflexivity | exact Hstored].
    + destruct (filter_loop (Indexing.documents e) (token :: tokens)
                  (elements (Indexing.noun_matching (Indexing.index e)
                               (Indexing.expanded_noun_tokens query))) ∅)
        as (found & Hrun & Hsub).
      { intros d Hd. apply Hstored. by apply elem_of_elements. }
      exists found. split; [exact Hrun|]. intros d Hd. apply Hsub in Hd.
      destruct Hd as [Hd|Hd]; [by apply not_elem_of_empty in Hd|].
      apply Hstored. by apply elem_of_elements.
  - intros threshold e e' Hrun term d Hd.
    destruct (indexing_update_index threshold e) as (e'' & Hrun' & Hdocs & Hget & _).
    assert (e'' = e') as -> by congruence.
    rewrite Hget in Hd. rewrite Hdocs.
    apply list_elem_of_fmap in Hd. destruct Hd as (dc & -> & Hdc).
    apply list_elem_of_filter in Hdc. destruct Hdc as [_ Hdc].
    apply list_elem_of_fmap. by exists dc.
Qed.

(** X19. In Indexing_App.py a content query on an index whose posting
    lists name stored documents only returns stored documents only, so that
    the lookup [search_engine.documents[result]] of the result page finds
    every one of them; the query leaves the documents and the posting lists
    as they are. The index that [update_index] builds is such an index. *)
Theorem app_search_returns_stored_documents
    (c : Z) (n : nat) (ops : list (op string)) (e : IndexingApp.SearchEngine) :
  0 < c -> run n ops (__init__ c) = Ok (IndexingApp.documents e) ->
  IndexingApp.index_ok (IndexingApp.index e) ->
  (forall depth threshold, exists e',
     IndexingApp.update_index (F := F) (S depth) threshold e = Ok e' /\
     IndexingApp.documents e' = IndexingApp.documents e /\
     IndexingApp.index_ok (IndexingApp.index e') /\
     forall term d, d ∈ IndexingApp.posting_set (IndexingApp.index e') term ->
       d ∈ keys (IndexingApp.documents e')) /\
  ((forall term d, d ∈ IndexingApp.posting_set (IndexingApp.index e) term ->
      d ∈ keys (IndexingApp.documents e)) ->
   forall depth query, exists found e',
     IndexingApp.search_by_content (S depth) e query = Ok (found, e') /\
     IndexingApp.documents e' = IndexingApp.documents e /\
     (forall term, IndexingApp.posting_set (IndexingApp.index e') term
                   = IndexingApp.posting_set (IndexingApp.index e) term) /\
     forall d, d ∈ found ->
       exists content, __getitem__ (IndexingApp.documents e') d = Ok content).
Proof.
  intros Hc Hrun Hok. destruct (reached c n ops _ Hc Hrun) as [Hwf _]. split.
  - intros depth threshold.
    destruct (app_update_index depth threshold e Hok) as (e' & Hup & Hdocs & Hok' & Hget).
    exists e'. split_and!; [done | done | done |].
    intros term d Hd. unfold IndexingApp.posting_set in Hd.
    specialize (Hget (KStr term)). unfold IndexingApp.posting_list in Hget.
    destruct (to_map (table (IndexingApp.index e')) !! KStr term) as [posting|];
      [|by apply not_elem_of_empty in Hd].
    simpl in Hget. rewrite Hget in Hd. apply elem_of_list_to_set in Hd.
    apply list_elem_of_fmap in Hd. destruct Hd as (dc & -> & Hdc).
    apply list_elem_of_filter in Hdc. destruct Hdc as [_ Hdc].
    rewrite Hdocs. unfold keys. apply list_elem_of_fmap. by exists dc.
  - intros Hidx depth query.
    assert (forall d, d ∈ keys (IndexingApp.documents e) ->
              exists content, __getitem__ (IndexingApp.documents e) d = Ok content)
      as Hlookup.
    { intros d Hd. apply elem_of_keys in Hd. destruct Hd as [content Hd].
      exists content. by rewrite (getitem_to_map _ d Hwf), Hd. }
    destruct (decide (IndexingApp.phrase_matches e query = ∅)) as [Hno|Hsome].
    + destruct (app_semantic_phase depth e query Hok Hno)
        as (found & e' & Hsearch & Hdocs & Hsame & Hfound & _).
      exists found, e'. split_and!; [done | done | done |].
      intros d Hd. rewrite Hdocs. apply Hlookup.
      apply Hfound in Hd. destruct Hd as [Hne Hall].
      destruct (Indexing.query_nouns query) as [|noun nouns]; [done|].
      destruct (Hall noun) as (t & _ & Ht); [apply list_elem_of_here|].
      by apply (Hidx t).
    + exists (IndexingApp.phrase_matches e query), e. split_and!; [|done|done|].
      * unfold IndexingApp.search_by_content. by rewrite decide_False.
      * intros d Hd. apply Hlookup. unfold IndexingApp.phrase_matches in Hd.
        apply elem_of_list_to_set, list_elem_of_fmap in Hd.
        destruct Hd as (dc & -> & Hdc). apply list_elem_of_filter in Hdc.
        destruct Hdc as [_ Hdc]. unfold keys. apply list_elem_of_fmap. by exists dc.
Qed.

End StoredResults.

(** An index that names a document the store does not hold makes the
    filtering loop of indexing.py raise KeyError. *)
Example stale_posting_raises :
  Indexing.search_by_content (H := toy_nlp)
    {| Indexing.index := [("cat", ["gone"])]%string;
       Indexing.documents := [("d1", "dog")]%string |} "big cat"
  = Raise (KeyError (KStr "gone")).
Proof. vm_compute. reflexivity. Qed.

Lemma search_by_content_returns_stored_titles_witness :
  exists found,
    Indexing.search_by_content (H := toy_nlp) thesaurus_corpus "big cat" = Ok found /\
    forall d, d ∈ found -> d ∈ (Indexing.documents thesaurus_corpus).*1.
Proof.
  apply (proj1 (search_by_content_returns_stored_titles (H0 := toy_nlp) (F := R))
           thesaurus_corpus "big cat"%string).
  intros term d. unfold thesaurus_corpus, dict_get_default. simpl.
  repeat case_decide; set_solver.
Defined.

Lemma app_search_returns_stored_documents_witness :
  exists found e',
    IndexingApp.search_by_content (H := int_hash) (H0 := toy_nlp) 1 app_corpus "cat mat"
    = Ok (found, e') /\
    forall d, d ∈ found ->
      exists content, __getitem__ (H := int_hash) (IndexingApp.documents e') d = Ok content.
Proof.
  destruct (proj2 (app_search_returns_stored_documents (H := int_hash) (H0 := toy_nlp)
                     (F := R) 1024 1 [OpSet (KStr "d1") "cat mat"%string] app_corpus
                     ltac:(lia) ltac:(vm_compute; reflexivity) app_corpus_index_ok))
    with (depth := 0%nat) (query := "cat mat"%string)
    as (found & e' & Hrun & _ & _ & Hfound).
  - intros term d Hd. vm_compute in Hd. discriminate Hd.
  - exists found, e'. split; [exact Hrun | exact Hfound].
Defined.

(** ** Indexing_App.py: base forms and variants *)

Section VariantFacts.

Import Variants.

Lemma chars_app (s t : string) :
  list_ascii_of_string (s +:+ t) = list_ascii_of_string s ++ list_ascii_of_string t.
Proof. induction s as [|c s IH]; [done|]. rewrite append_cons. simpl. by rewrite IH. Qed.

Lemma chars_inj (s t : string) : list_ascii_of_string s = list_ascii_of_string t -> s = t.
Proof.
  intros Heq. rewrite <- (string_of_list_ascii_of_string s), Heq.
  apply string_of_list_ascii_of_string.
Qed.

Lemma of_chars_app (k l : list ascii) :
  string_of_list_ascii (k ++ l) = string_of_list_ascii k +:+ string_of_list_ascii l.
Proof.
  apply chars_inj. by rewrite chars_app, !list_ascii_of_string_of_list_ascii.
Qed.

Lemma length_chars (s : string) : length (list_ascii_of_string s) = String.length s.
Proof. induction s as [|c s IH]; [done|]. simpl. by rewrite IH. Qed.

Lemma append_assoc (s t u : string) : (s +:+ t) +:+ u = s +:+ (t +:+ u).
Proof. apply chars_inj. by rewrite !chars_app, app_assoc. Qed.

Lemma lower_app (s t : string) : lower (s +:+ t) = lower s +:+ lower t.
Proof. induction s as [|c s IH]; [done|]. rewrite append_cons. simpl. by rewrite IH. Qed.

Lemma lower_length (s : string) : String.length (lower s) = String.length s.
Proof. induction s as [|c s IH]; [done|]. simpl. by rewrite IH. Qed.

Lemma append_length (s t : string) :
  String.length (s +:+ t) = (String.length s + String.length t)%nat.
Proof. by rewrite <- !length_chars, chars_app, length_app. Qed.

Lemma endswith_spec (s suffix : string) :
  endswith s suffix = true <-> exists p, s = p +:+ suffix.
Proof.
  unfold endswith. rewrite bool_decide_eq_true. split.
  - intros [k Hk]. exists (string_of_list_ascii k). apply chars_inj.
    by rewrite chars_app, list_ascii_of_string_of_list_ascii.
  - intros [p ->]. exists (list_ascii_of_string p). apply chars_app.
Qed.

Lemma drop_last_app (n : nat) (p suffix : string) :
  n = String.length suffix -> drop_last n (p +:+ suffix) = p.
Proof.
  intros ->. unfold drop_last. rewrite chars_app, length_app, <- length_chars.
  replace (length (list_ascii_of_string p) + length (list_ascii_of_string suffix)
           - length (list_ascii_of_string suffix))%nat
    with (length (list_ascii_of_string p)) by lia.
  rewrite take_app_length. apply string_of_list_ascii_of_string.
Qed.

(** A string that ends with [suffix] ends with every ending of [suffix]. *)
Lemma endswith_trans (s suffix ending : string) :
  endswith s suffix = true -> endswith suffix ending = true -> endswith s ending = true.
Proof.
  unfold endswith. rewrite !bool_decide_eq_true. intros Hs He. by etrans.
Qed.

(** Two endings of the same length are the same ending. *)
Lemma endswith_same_length (s e1 e2 : string) :
  endswith s e1 = true -> endswith s e2 = true ->
  String.length e1 = String.length e2 -> e1 = e2.
Proof.
  unfold endswith. rewrite !bool_decide_eq_true, <- !length_chars.
  intros [k1 H1] [k2 H2] Hlen. apply chars_inj.
  rewrite H1 in H2. apply app_inj_2 in H2; [by destruct H2 | done].
Qed.

Lemma endswith_snoc (s suffix : string) (c : ascii) :
  endswith (s +:+ String c EmptyString) (suffix +:+ String c EmptyString)
  = endswith s suffix.
Proof.
  unfold endswith. rewrite !chars_app. simpl. apply bool_decide_ext. split.
  - apply suffix_snoc_inv_2.
  - apply suffix_snoc.
Qed.

Lemma endswith_other_last (s suffix : string) (c c' : ascii) :
  c <> c' ->
  endswith (s +:+ String c EmptyString) (suffix +:+ String c' EmptyString) = false.
Proof.
  intros Hne. unfold endswith. rewrite !chars_app. simpl.
  apply bool_decide_eq_false. intros Hs. apply suffix_snoc_inv_1 in Hs. congruence.
Qed.


(** X21. The plural variants lead back to the word. For a lower-case stem,
    the variants of [stem + y] are that word and [stem + ies], and the
    base form of [stem + ies] is [stem + y]; and for a stem that ends in
    none of [s], [e], [y], the variant [stem + s] has the stem as its base
    form. The forms are assumed to be outside the table of irregular
    forms. *)
Theorem plural_variants_lead_back (stem : string) (irregular_forms : pydict string) :
  lower stem = stem ->
  (dict_get irregular_forms (stem +:+ "ies") = None ->
   get_word_variants (stem +:+ "y") = {[ stem +:+ "y" ]} ∪ {[ stem +:+ "ies" ]} /\
   get_base_form (stem +:+ "ies") irregular_forms = stem +:+ "y") /\
  (endswith stem "s" = false -> endswith stem "e" = false ->
   endswith stem "y" = false ->
   dict_get irregular_forms (stem +:+ "s") = None ->
   stem +:+ "s" ∈ get_word_variants stem /\
   get_base_form (stem +:+ "s") irregular_forms = stem).
Proof.
  intros Hlow. split.
  - intros Hreg. split.
    + unfold get_word_variants. rewrite lower_app, Hlow.
      change (lower "y") with "y"%string.
      assert (endswith (stem +:+ "y") "y" = true) as ->
        by (apply endswith_spec; by exists stem).
      by rewrite (drop_last_app 1 stem "y") by done.
    + unfold get_base_form. rewrite lower_app, Hlow.
      change (lower "ies") with "ies"%string. rewrite Hreg.
      assert (endswith (stem +:+ "ies") "ies" = true) as ->
        by (apply endswith_spec; by exists stem).
      by rewrite (drop_last_app 3 stem "ies") by done.
  - intros Hs He Hy Hreg. split.
    + unfold get_word_variants. rewrite Hlow, Hy, Hs, He. set_solver.
    + unfold get_base_form. rewrite lower_app, Hlow.
      change (lower "s") with "s"%string. rewrite Hreg.
      assert (endswith (stem +:+ "s") "es" = false) as E2.
      { change "es"%string with ("e" +:+ "s")%string. by rewrite endswith_snoc. }
      assert (endswith (stem +:+ "s") "ies" = false) as ->.
      { destruct (endswith (stem +:+ "s") "ies") eqn:E3; [|done].
        by rewrite (endswith_trans _ "ies" "es" E3) in E2. }
      rewrite E2.
      assert (endswith (stem +:+ "s") "s" = true) as ->
        by (apply endswith_spec; by exists stem).
      assert (endswith (stem +:+ "s") "ss" = false) as ->.
      { change "ss"%string with ("s" +:+ "s")%string. by rewrite endswith_snoc. }
      simpl. by rewrite (drop_last_app 1 stem "s") by done.
Qed.

Lemma isupper_lower_char (c : ascii) : isupper (lower_char c) = false.
Proof.
  destruct c as [b0 b1 b2 b3 b4 b5 b6 b7].
  destruct b0, b1, b2, b3, b4, b5, b6, b7; reflexivity.
Qed.


Lemma variants_fold (tokens : list string) : forall (acc : gset string) t,
  t ∈ fold_left (fun acc token => acc ∪ get_word_variants token) tokens acc <->
  t ∈ acc \/ exists w, w ∈ tokens /\ t ∈ get_word_variants w.
Proof.
  induction tokens as [|x tokens IH]; intros acc t; simpl.
  - split; [auto|]. intros [?|(w & Hw & _)]; [done|]. by apply elem_of_nil in Hw.
  - rewrite IH, elem_of_union. split.
    + intros [[?|?]|(w & Hw & Ht)]; [by left | right | right].
      * exists x. split; [apply list_elem_of_here | done].
      * exists w. split; [by apply list_elem_of_further | done].
    + intros [?|(w & Hw & Ht)]; [by left; left|].
      apply elem_of_cons in Hw. destruct Hw as [->|Hw]; [by left; right|].
      right. by exists w.
Qed.

(** X23. The variants of a word are the lower-cased word and at most two
    more strings: [ies] for a final [y], the word without a final [s], a
    further [s] after a final [e], and [s] and [es] otherwise; the second
    test for a final [y] is never reached. [expand_query_with_variants]
    returns, without repetition, the variants of its tokens and nothing
    else, so a token comes back lower-cased. *)
Theorem variants_of_a_query (query_tokens : list string) :
  (forall word,
     get_word_variants word
     = (let w := lower word in
        if endswith w "y" then {[ w; drop_last 1 w +:+ "ies" ]}
        else if endswith w "s" then {[ w; drop_last 1 w ]}
        else if endswith w "e" then {[ w; w +:+ "s" ]}
        else {[ w; w +:+ "s"; w +:+ "es" ]})) /\
  NoDup (expand_query_with_variants query_tokens) /\
  (forall t, t ∈ expand_query_with_variants query_tokens <->
     exists w, w ∈ query_tokens /\ t ∈ get_word_variants w) /\
  (forall w, w ∈ query_tokens -> lower w ∈ expand_query_with_variants query_tokens).
Proof.
  assert (forall t, t ∈ expand_query_with_variants query_tokens <->
            exists w, w ∈ query_tokens /\ t ∈ get_word_variants w) as Hmem.
  { intros t. unfold expand_query_with_variants.
    rewrite elem_of_elements, variants_fold. split; [|auto].
    intros [Ht|?]; [by apply not_elem_of_empty in Ht | done]. }
  split_and!.
  - intros word. unfold get_word_variants. cbv zeta.
    destruct (endswith (lower word) "y") eqn:Ey; [set_solver|].
    destruct (endswith (lower word) "s"); [set_solver|].
    destruct (endswith (lower word) "e"); set_solver.
  - unfold expand_query_with_variants. apply NoDup_elements.
  - exact Hmem.
  - intros w Hw. apply Hmem. exists w. split; [done|].
    unfold get_word_variants.
    destruct (endswith (lower w) "y"); [set_solver|].
    destruct (endswith (lower w) "s"); [set_solver|].
    destruct (endswith (lower w) "e"); set_solver.
Qed.

End VariantFacts.


Lemma plural_variants_lead_back_witness :
  Variants.get_base_form "cities" Variants.load_base_forms = "city"%string /\
  Variants.get_base_form "cats" Variants.load_base_forms = "cat"%string.
Proof.
  split.
  - apply (proj1 (plural_variants_lead_back "cit" Variants.load_base_forms eq_refl)).
    reflexivity.
  - apply (proj2 (plural_variants_lead_back "cat" Variants.load_base_forms eq_refl));
      vm_compute; reflexivity.
Defined.

Lemma variants_of_a_query_witness :
  "horse"%string ∈ Variants.expand_query_with_variants ["cat"; "Horse"]%string.
Proof.
  apply (proj2 (proj2 (proj2 (variants_of_a_query ["cat"; "Horse"]%string)))
           "Horse"%string).
  apply list_elem_of_further, list_elem_of_here.
Defined.

(** ** indexing.py and Indexing_App.py: reading a text from the console *)

Section ConsoleFacts.

Import Console.

Lemma lstrip_nil (chars : list ascii) :
  lstrip chars = [] <-> Forall (fun ch => isspace ch = true) chars.
Proof.
  induction chars as [|ch chars IH]; simpl.
  - split; [constructor | done].
  - destruct (isspace ch) eqn:E.
    + rewrite IH. split; [by constructor|]. by intros [_ ?]%Forall_cons.
    + split; [done|]. intros [? _]%Forall_cons. congruence.
Qed.

Lemma lstrip_head (chars : list ascii) ch rest :
  lstrip chars = ch :: rest -> isspace ch = false.
Proof.
  induction chars as [|ch' chars IH]; simpl; [done|].
  destruct (isspace ch') eqn:E; [done|]. by intros [= <- _].
Qed.

Lemma strip_blank (line : string) :
  strip line = EmptyString <->
  Forall (fun ch => isspace ch = true) (list_ascii_of_string line).
Proof.
  unfold strip. set (chars := list_ascii_of_string line).
  assert (forall l, string_of_list_ascii l = EmptyString <-> l = []) as Hnil
    by (intros [|? ?]; done).
  rewrite Hnil. split.
  - intros Hrev. apply (f_equal reverse) in Hrev. rewrite reverse_involutive in Hrev.
    change (reverse []) with ([] : list ascii) in Hrev.
    apply lstrip_nil, Forall_reverse in Hrev. rewrite reverse_involutive in Hrev.
    apply lstrip_nil. destruct (lstrip chars) as [|ch rest] eqn:E; [done|].
    apply lstrip_head in E. apply Forall_cons in Hrev. destruct Hrev. congruence.
  - intros Hall. apply lstrip_nil in Hall. rewrite Hall. done.
Qed.

Lemma read_lines_blank (lines : list string) blank rest : forall acc,
  Forall (fun line => strip line <> EmptyString) lines ->
  strip blank = EmptyString ->
  read_lines acc (lines ++ blank :: rest) = Some (acc ++ lines, rest).
Proof.
  induction lines as [|line lines IH]; intros acc Hlines Hblank; simpl.
  - rewrite decide_True by done. by rewrite app_nil_r.
  - apply Forall_cons in Hlines. destruct Hlines as [Hline Hlines].
    rewrite decide_False by done. rewrite IH by done. by rewrite <- app_assoc.
Qed.

Lemma read_lines_eof (input : list string) : forall acc,
  Forall (fun line => strip line <> EmptyString) input -> read_lines acc input = None.
Proof.
  induction input as [|line input IH]; intros acc Hall; simpl; [done|].
  apply Forall_cons in Hall. destruct Hall as [Hline Hall].
  rewrite decide_False by done. by apply IH.
Qed.

(** X24. [get_multiline_input] prints the prompt and one line of
    instruction, then reads lines up to the first one that consists of
    white space only: it returns the lines before that one joined by
    newlines, leaves the lines after it unread, and prints nothing more.
    When the input ends before such a line it raises EOFError. *)
Theorem get_multiline_input_reads_up_to_a_blank_line (prompt : string) (c : console) :
  (forall lines blank rest,
     pending c = lines ++ blank :: rest ->
     Forall (fun line => strip line <> EmptyString) lines ->
     Forall (fun ch => isspace ch = true) (list_ascii_of_string blank) ->
     get_multiline_input prompt c
     = Some (String.concat newline lines,
             {| pending := rest;
                printed := printed c
                           ++ [prompt; "(Enter an empty line to finish)"%string] |})) /\
  ((forall line, line ∈ pending c ->
      exists ch, ch ∈ list_ascii_of_string line /\ isspace ch = false) ->
   get_multiline_input prompt c = None).
Proof.
  split.
  - intros lines blank rest Hpending Hlines Hblank. unfold get_multiline_input.
    simpl. rewrite Hpending, (read_lines_blank lines blank rest []); [|done|].
    + simpl. by rewrite <- app_assoc.
    + by apply strip_blank.
  - intros Hall. unfold get_multiline_input. simpl.
    rewrite read_lines_eof; [done|]. apply Forall_forall. intros line Hline.
    rewrite strip_blank. intros Hblank. destruct (Hall line Hline) as (ch & Hch & Hns).
    rewrite Forall_forall in Hblank. specialize (Hblank ch Hch). congruence.
Qed.

End ConsoleFacts.

Lemma get_multiline_input_reads_up_to_a_blank_line_witness :
  Console.get_multiline_input "title"
    {| Console.pending := ["a"; "b c"; "  "; "d"]%string; Console.printed := [] |}
  = Some (String.concat Console.newline ["a"; "b c"]%string,
          {| Console.pending := ["d"%string];
             Console.printed := ["title"; "(Enter an empty line to finish)"]%string |}).
Proof.
  apply (proj1 (get_multiline_input_reads_up_to_a_blank_line "title"
                  {| Console.pending := ["a"; "b c"; "  "; "d"]%string;
                     Console.printed := [] |})
           ["a"; "b c"]%string "  "%string ["d"%string]).
  - reflexivity.
  - repeat constructor; vm_compute; discriminate.
  - repeat constructor.
Defined.

(** ** indexing.py: the filter on the noun matches *)

Section FilterStage.

Context `{NLP}.

Lemma filter_loop_members (docs : pydict string) (tokens : list string)
    (ids : list string) : forall acc : gset string,
  (forall d, d ∈ ids -> d ∈ docs.*1) ->
  exists found,
    for_each (fun matching doc_id =>
                content ← dict_getitem docs doc_id;
                if Indexing.contains_all tokens (lower content)
                then Ok (matching ∪ {[doc_id]})
                else Ok matching) ids acc = Ok found /\
    forall d, d ∈ found <->
      d ∈ acc \/
      (d ∈ ids /\ exists content, dict_get docs d = Some content /\
         Indexing.contains_all tokens (lower content) = true).
Proof.
  induction ids as [|x ids IH]; intros acc Hids.
  - exists acc. split; [done|]. intros d. split; [auto|].
    intros [?|[Hd _]]; [done | by apply elem_of_nil in Hd].
  - assert (exists content, dict_get docs x = Some content) as [content Hx].
    { destruct (dict_get docs x) as [content|] eqn:Ex; [by eexists|].
      apply dict_get_None in Ex. destruct Ex. apply Hids, list_elem_of_here. }
    assert (forall d, d ∈ ids -> d ∈ docs.*1) as Hids'
      by (intros d Hd; by apply Hids, list_elem_of_further).
    simpl. unfold dict_getitem at 1. rewrite Hx. simpl.
    destruct (Indexing.contains_all tokens (lower content)) eqn:Ec.
    + destruct (IH (acc ∪ {[x]}) Hids') as (found & Hrun & Hmem).
      exists found. split; [done|]. intros d.
      rewrite Hmem, elem_of_union, elem_of_singleton, elem_of_cons. split.
      * intros [[? | ->] | [? ?]]; [by left | right | right].
        -- split; [by left|]. by exists content.
        -- split; [by right | done].
      * intros [? | [[-> | ?] ?]]; [by left; left | by left; right | by right].
    + destruct (IH acc Hids') as (found & Hrun & Hmem).
      exists found. split; [done|]. intros d. rewrite Hmem, elem_of_cons. split.
      * intros [?|[? ?]]; [by left | right]. split; [by right | done].
      * intros [? | [[-> | ?] Hc]]; [by left | | by right].
        destruct Hc as (content' & Hget & Hc). congruence.
Qed.


End FilterStage.


(** ** Indexing_App.py: the weights over the custom containers *)

Section AppWeights.

Context `{PyHash} {F : Type} `{FloatOps F}.

Lemma refines_keys {V} (t : CustomDictionary V) (d : pydict V) k :
  refines t d -> k ∈ keys t <-> exists w, k = KStr w /\ w ∈ d.*1.
Proof.
  intros Href. unfold keys. rewrite (refines_items t d Href), <- list_fmap_compose.
  rewrite !list_elem_of_fmap. split.
  - intros ([w v] & -> & Hin). exists w. split; [done|]. apply list_elem_of_fmap.
    by exists (w, v).
  - intros (w & -> & Hin). apply list_elem_of_fmap in Hin.
    destruct Hin as ([w' v] & -> & Hin). by exists (w', v).
Qed.

(** X26. The weighting of Indexing_App.py returns over the custom
    containers what the formulas give: [calculate_idf] binds the terms of
    the corpus, each to [log(N / (1 + df))], and no other key; and for a
    document of the corpus [calculate_tf] and [calculate_tfidf] return and
    bind the words of the document, each to its frequency times its idf,
    and no other key. *)
Theorem app_weights_follow_the_formulas (depth : nat) (corpus : list (list string)) :
  exists idf, IndexingApp.calculate_idf (S depth) corpus = Ok idf /\
    (forall term, (exists doc_words, doc_words ∈ corpus /\ term ∈ doc_words) ->
       __getitem__ idf (KStr term)
       = Ok (Indexing.idf_value (Z.of_nat (length corpus))
               (Indexing.document_frequency term corpus))) /\
    (forall k, k ∈ keys idf <->
       exists term doc_words, k = KStr term /\ doc_words ∈ corpus /\ term ∈ doc_words) /\
    forall doc_words, doc_words ∈ corpus ->
      exists tf tfidf,
        IndexingApp.calculate_tf (S depth) doc_words = Ok tf /\
        IndexingApp.calculate_tfidf (S depth) doc_words tf idf = Ok tfidf /\
        (forall term, term ∈ doc_words ->
           __getitem__ tfidf (KStr term)
           = Ok (fmul (truediv (Indexing.occurrences term doc_words)
                         (Z.of_nat (length doc_words)))
                   (Indexing.idf_value (Z.of_nat (length corpus))
                      (Indexing.document_frequency term corpus)))) /\
        (forall k, k ∈ keys tfidf <-> exists term, k = KStr term /\ term ∈ doc_words).
Proof.
  destruct (app_calculate_idf_refines depth corpus) as (idf & Hidf & Href).
  exists idf. split; [exact Hidf|].
  assert (forall term, term ∈ (Indexing.calculate_idf corpus).*1 <->
            exists doc_words, doc_words ∈ corpus /\ term ∈ doc_words) as Hterms.
  { intros term. destruct (indexing_calculate_idf_map (F := F) corpus) as [-> _].
    rewrite <- list_fmap_compose.
    destruct (count_documents_spec corpus []) as (_ & Hkeys & _).
    change (term ∈ (fold_left Indexing.count_document corpus []).*1 <->
            exists doc_words, doc_words ∈ corpus /\ term ∈ doc_words).
    rewrite Hkeys. split; [|auto].
    intros [Hin|?]; [by apply elem_of_nil in Hin | done]. }
  split_and!.
  - intros term Hterm. rewrite (refines_getitem idf _ term Href). unfold dict_getitem.
    by rewrite calculate_idf_get.
  - intros k. rewrite (refines_keys idf _ k Href). split.
    + intros (w & -> & Hw). apply Hterms in Hw. destruct Hw as (doc_words & ? & ?).
      by exists w, doc_words.
    + intros (w & doc_words & -> & ? & ?). exists w. split; [done|].
      apply Hterms. by exists doc_words.
  - intros doc_words Hdoc.
    destruct (app_calculate_tf_refines (F := F) depth doc_words) as (tf & Htf & Hreftf).
    destruct (calculate_tfidf_scores (F := F) corpus doc_words Hdoc)
      as (d & Hd & Hnd & Hget).
    destruct (app_calculate_tfidf_loop depth tf idf _ _ doc_words Hreftf Href
                (__init__ 1024) [] d) as (tfidf & Htfidf & Hreftfidf).
    { apply refines_init. lia. }
    { exact Hd. }
    exists tf, tfidf. split_and!; [done | exact Htfidf | |].
    + intros term Hterm. rewrite (refines_getitem tfidf d term Hreftfidf).
      unfold dict_getitem. rewrite Hget. unfold Indexing.tfidf_score.
      by rewrite decide_True.
    + intros k. rewrite (refines_keys tfidf d k Hreftfidf).
      assert (forall w, w ∈ d.*1 <-> w ∈ doc_words) as Hwords.
      { intros w. destruct (dict_get d w) as [s|] eqn:Es.
        - split.
          + intros _. rewrite Hget in Es. unfold Indexing.tfidf_score in Es.
            by case_decide.
          + intros _. apply dict_get_elem in Es. apply list_elem_of_fmap.
            by exists (w, s).
        - split.
          + intros Hin. by apply dict_get_None in Es.
          + intros Hin. rewrite Hget in Es. unfold Indexing.tfidf_score in Es.
            by rewrite decide_True in Es. }
      split.
      * intros (w & -> & Hw). exists w. split; [done | by apply Hwords].
      * intros (w & -> & Hw). exists w. split; [done | by apply Hwords].
Qed.

End AppWeights.

Lemma app_weights_follow_the_formulas_witness :
  exists idf,
    IndexingApp.calculate_idf (H := int_hash) (F := R) 1 [["cat"; "mat"]; ["dog"]]%string
    = Ok idf /\
    __getitem__ (H := int_hash) idf (KStr "dog")
    = Ok (Indexing.idf_value (Z.of_nat 2)
            (Indexing.document_frequency "dog" [["cat"; "mat"]; ["dog"]]%string)).
Proof.
  destruct (app_weights_follow_the_formulas (H := int_hash) (F := R) 0
              [["cat"; "mat"]; ["dog"]]%string) as (idf & Hrun & Hget & _).
  exists idf. split; [exact Hrun|]. apply Hget.
  exists ["dog"%string]. split.
  - apply list_elem_of_further, list_elem_of_here.
  - apply list_elem_of_here.
Defined.

(** ** Indexing_App.py: documents that were added and not indexed *)

Section Unindexed.

Context `{PyHash} `{NLP}.

(** X27. In Indexing_App.py, as long as [update_index] has not run the
    index is the empty one of [__init__], because [add_document] leaves it
    alone; a content query then finds the documents that phrase-match it
    and, when none does, nothing at all, whatever nouns it has. *)
Theorem unindexed_documents_match_by_phrase_only
    (docs : CustomDictionary string) (initial_capacity : Z) (depth : nat)
    (query : string) :
  0 < initial_capacity ->
  let e := {| IndexingApp.index := default_init (Some []) initial_capacity;
              IndexingApp.documents := docs |} in
  exists found e',
    IndexingApp.search_by_content (S depth) e query = Ok (found, e') /\
    found = IndexingApp.phrase_matches e query /\
    IndexingApp.documents e' = docs.
Proof.
  intros Hc e.
  assert (IndexingApp.index_ok (IndexingApp.index e)) as Hok.
  { split_and!; [by apply wf_init | by apply load_ok_init | done]. }
  destruct (decide (IndexingApp.phrase_matches e query = ∅)) as [Hno|Hsome].
  - destruct (app_semantic_phase depth e query Hok Hno)
      as (found & e' & Hrun & Hdocs & _ & Hfound & _).
    exists found, e'. split_and!; [done | | done].
    rewrite Hno. apply set_eq. intros d. rewrite Hfound. split.
    + intros [Hne Hall]. destruct (Indexing.query_nouns query) as [|noun nouns]; [done|].
      destruct (Hall noun) as (t & _ & Ht); [apply list_elem_of_here|].
      unfold IndexingApp.posting_set in Ht. simpl in Ht.
      by rewrite to_map_init, lookup_empty in Ht.
    + by intros ?%not_elem_of_empty.
  - exists (IndexingApp.phrase_matches e query), e. split_and!; [|done|done].
    unfold IndexingApp.search_by_content. by rewrite decide_False.
Qed.

End Unindexed.

Lemma unindexed_documents_match_by_phrase_only_witness :
  exists e',
    IndexingApp.search_by_content (H := int_hash) (H0 := toy_nlp) 1 app_corpus "mat cat"
    = Ok (∅, e').
Proof.
  destruct (unindexed_documents_match_by_phrase_only (H := int_hash) (H0 := toy_nlp)
              (IndexingApp.documents app_corpus) 1024 0 "mat cat")
    as (found & e' & Hrun & Hfound & _).
  - lia.
  - exists e'. rewrite Hfound in Hrun. exact Hrun.
Defined.

(** ** Both files: an engine without documents *)

Section EmptyCorpus.

Context `{PyHash} `{NLP} {F : Type} `{FloatOps F}.

(** X28. On an engine without documents nothing raises and nothing is
    found: in indexing.py a rebuild leaves an empty index, every title
    search returns the empty list and every content search the empty set,
    whatever the index held before the rebuild; in Indexing_App.py the same
    holds for the engine that [__init__] creates, before and after a
    rebuild. *)
Theorem empty_corpus_finds_nothing (threshold : F) (query : string) :
  (forall idx : pydict (list string),
     let e := {| Indexing.index := idx; Indexing.documents := [] |} in
     Indexing.update_index threshold e
     = Ok {| Indexing.index := []; Indexing.documents := [] |} /\
     Indexing.search_by_title e query = [] /\
     Indexing.search_by_content
       {| Indexing.index := []; Indexing.documents := [] |} query = Ok ∅) /\
  (forall depth,
     IndexingApp.search_by_title IndexingApp.new_engine query = [] /\
     (exists e', IndexingApp.search_by_content (S depth) IndexingApp.new_engine query
                 = Ok (∅, e') /\
        IndexingApp.documents e' = IndexingApp.documents IndexingApp.new_engine) /\
     exists e', IndexingApp.update_index (S depth) threshold IndexingApp.new_engine
                = Ok e' /\
       IndexingApp.documents e' = IndexingApp.documents IndexingApp.new_engine /\
       (forall k, IndexingApp.posting_list (IndexingApp.index e') k = []) /\
       exists e'', IndexingApp.search_by_content (S depth) e' query = Ok (∅, e'')).
Proof.
  assert (0 < 1024) as Hc by lia.
  assert (items (__init__ 1024 : CustomDictionary string) = []) as Hitems
    by (vm_compute; reflexivity).
  assert (forall e : IndexingApp.SearchEngine,
            IndexingApp.documents e = __init__ 1024 ->
            IndexingApp.index_ok (IndexingApp.index e) ->
            (forall k, IndexingApp.posting_list (IndexingApp.index e) k = []) ->
            forall depth, exists e',
              IndexingApp.search_by_content (S depth) e query = Ok (∅, e') /\
              IndexingApp.documents e' = IndexingApp.documents e) as Hsearch.
  { intros e Hdocs Hok Hlists depth.
    assert (IndexingApp.phrase_matches e query = ∅) as Hno.
    { unfold IndexingApp.phrase_matches. by rewrite Hdocs, Hitems. }
    destruct (app_semantic_phase depth e query Hok Hno)
      as (found & e' & Hrun & Hdocs' & _ & Hfound & _).
    assert (found = ∅) as ->; [|by exists e'].
    apply set_eq. intros d. rewrite Hfound. split; [|by intros ?%not_elem_of_empty].
    intros [Hne Hall]. destruct (Indexing.query_nouns query) as [|noun nouns]; [done|].
    destruct (Hall noun) as (t & _ & Ht); [apply list_elem_of_here|].
    unfold IndexingApp.posting_set in Ht. specialize (Hlists (KStr t)).
    unfold IndexingApp.posting_list in Hlists.
    destruct (to_map (table (IndexingApp.index e)) !! KStr t) as [posting|];
      [|done].
    simpl in Hlists. by rewrite Hlists in Ht. }
  assert (IndexingApp.index_ok (IndexingApp.index IndexingApp.new_engine)) as Hok.
  { split_and!; [by apply wf_init | by apply load_ok_init | done]. }
  split.
  - intros idx e. split_and!; [done | done |].
    unfold Indexing.search_by_content, Indexing.phrase_matches.
    cbn [Indexing.documents Indexing.index]. rewrite filter_nil.
    rewrite decide_True by done.
    assert (Indexing.noun_matching [] (Indexing.expanded_noun_tokens query) = ∅) as ->.
    { destruct (Indexing.expanded_noun_tokens query) as [|first others]; [done|].
      apply set_eq. intros d. split; [|by intros ?%not_elem_of_empty].
      intros Hd. apply noun_matching_loop in Hd. by destruct Hd as [Hd _]. }
    by rewrite decide_True.
  - intros depth. split_and!.
    + unfold IndexingApp.search_by_title, keys.
      change (IndexingApp.documents IndexingApp.new_engine)
        with (__init__ 1024 : CustomDictionary string).
      by rewrite Hitems.
    + apply Hsearch; [done | done |]. intros k.
      unfold IndexingApp.posting_list. simpl. by rewrite to_map_init.
    + destruct (app_update_index depth threshold IndexingApp.new_engine Hok)
        as (e' & Hrun & Hdocs & Hok' & Hget).
      assert (forall k, IndexingApp.posting_list (IndexingApp.index e') k = []) as Hlists.
      { intros k. rewrite Hget.
        change (IndexingApp.documents IndexingApp.new_engine)
          with (__init__ 1024 : CustomDictionary string).
        by rewrite Hitems. }
      exists e'. split_and!; [done | done | done |].
      destruct (Hsearch e' Hdocs Hok' Hlists depth) as (e'' & Hs & _). by exists e''.
Qed.

End EmptyCorpus.
